(** * sdlc-content: template rendering and template inheritance

    A shallow embedding of [src/implementations/TemplateRenderer.ts] and
    [src/implementations/TemplateInheritance.ts], followed by the properties
    of the rendering engine and of the inheritance resolver.

    - Strings are [string]; a character is read as the UTF-16 code unit of
      the same number, so the embedding covers the texts whose code units are
      below 256.  Positions are [nat]; [indexOf] returns [None] where
      JavaScript returns [-1].
    - The three regular expressions of the renderer and the one of the
      resolver are written as matchers that try the pattern at one position;
      [replace_all] and [exec_all] scan with them as a global regular
      expression does.
    - Environment values are a tagged variant; property lookup follows the
      prototype chain of plain objects and arrays, as the [in] operator does.
    - [render] may run forever, so it takes fuel and answers [None] when the
      fuel does not suffice; the inner scanning loops always end, and their
      bounds are proved not to matter.
    - The resolver is a state (cache and getter) passed explicitly; its
      operations answer [Return], [Throw] or [OutOfFuel].
    - The validation of an environment ([validateVariables] of the renderer
      and of [ContentValidator.ts]) takes [Date.parse] and the test of a
      regular expression given as text from a host record, and answers
      [Normal] or [Abrupt].
    - [getTemplate] and [renderTemplate] of [ContentManager.ts] are written
      over the store and the cache of the resolver; logging and the emitted
      events are left out. *)

From Stdlib Require Import String Ascii List ZArith Lia Bool.
From stdpp Require Import base option list gmap sets strings pretty.

Local Open Scope nat_scope.
Local Set Warnings "-register-all".

(** ** The JavaScript primitives the two classes rely on *)

Module JS.

(** *** Characters and strings *)

(** [\s] of a regular expression and the characters removed by
    [String.prototype.trim]: tab, line feed, vertical tab, form feed,
    carriage return, space and no-break space. *)
Definition is_space (c : ascii) : bool :=
  match c with
  | "009" | "010" | "011" | "012" | "013" | " " | "160" => true
  | _ => false
  end%char.

(** [\w]: ASCII letters, digits and the underscore. *)
Definition is_word (c : ascii) : bool :=
  let n := nat_of_ascii c in
  ((48 <=? n) && (n <=? 57)) || ((65 <=? n) && (n <=? 90))
  || ((97 <=? n) && (n <=? 122)) || (n =? 95).

(** The class [[\w.]] of the three marker patterns. *)
Definition is_path_char (c : ascii) : bool :=
  is_word c || Ascii.eqb c "."%char.

(** [strip_prefix p s] is the rest of [s] after its prefix [p]. *)
Fixpoint strip_prefix (p s : string) : option string :=
  match p with
  | "" => Some s
  | String a p' =>
      match s with
      | String b s' => if Ascii.eqb a b then strip_prefix p' s' else None
      | "" => None
      end
  end.

(** The longest prefix of characters satisfying [f], and the rest: a greedy
    [c*] for a character class [c]. *)
Fixpoint span (f : ascii -> bool) (s : string) : string * string :=
  match s with
  | String c s' =>
      if f c then let '(a, b) := span f s' in (String c a, b) else ("", s)
  | "" => ("", "")
  end.

Fixpoint drop (n : nat) (s : string) : string :=
  match n, s with
  | S n', String _ s' => drop n' s'
  | _, _ => s
  end.

(** [s.slice(a, b)] and [s.slice(a)] for non-negative positions. *)
Definition slice (s : string) (a b : nat) : string := substring a (b - a) s.
Definition slice_from (s : string) (a : nat) : string := drop a s.

(** First position of [pat] in [s]. *)
Fixpoint find (pat s : string) : option nat :=
  match strip_prefix pat s with
  | Some _ => Some 0
  | None =>
      match s with
      | String _ s' => option_map S (find pat s')
      | "" => None
      end
  end.

(** [s.indexOf(pat, pos)]. *)
Definition indexOf (pat s : string) (pos : nat) : option nat :=
  option_map (Nat.add pos) (find pat (drop pos s)).

Fixpoint drop_while (f : ascii -> bool) (s : string) : string :=
  match s with
  | String c s' => if f c then drop_while f s' else s
  | "" => ""
  end.

(** [s.trim()]. *)
Definition trim (s : string) : string :=
  String.rev (drop_while is_space (String.rev (drop_while is_space s))).

(** [s.split(sep)] for a one-character separator: never the empty list. *)
Fixpoint split (sep : ascii) (s : string) : list string :=
  match s with
  | "" => [""]
  | String c s' =>
      if Ascii.eqb c sep then "" :: split sep s'
      else match split sep s' with
           | h :: t => String c h :: t
           | [] => [String c ""]
           end
  end.

Fixpoint join (sep : string) (l : list string) : string :=
  match l with
  | [] => ""
  | [x] => x
  | x :: l' => x +:+ sep +:+ join sep l'
  end.

(** *** Global regular-expression scans

    [matcher before rest] tries the pattern at the position that splits the
    input into [before] and [rest]; it answers the length of the match (never
    0 for the patterns of this program) and what the match yields.  The scan
    is the one of [RegExp.prototype.exec] with the [g] flag: leftmost match
    first, then on from the end of that match. *)

Section Scan.
Context {A : Type} (matcher : string -> string -> option (nat * A)).

(** [s.replace(re, f)]: [skip] counts the characters of the current match
    that are still to be passed over. *)
Fixpoint replace_scan (emit : A -> string) (before s : string) (skip : nat)
  : string :=
  match s with
  | "" => ""
  | String c s' =>
      match skip with
      | S k => replace_scan emit (before +:+ String c "") s' k
      | O =>
          match matcher before s with
          | Some (len, a) =>
              emit a +:+ replace_scan emit (before +:+ String c "") s' (len - 1)
          | None =>
              String c (replace_scan emit (before +:+ String c "") s' 0)
          end
      end
  end.

(** The successive results of [re.exec(s)] until it answers [null]. *)
Fixpoint exec_scan (before s : string) (skip : nat) : list A :=
  match s with
  | "" => []
  | String c s' =>
      match skip with
      | S k => exec_scan (before +:+ String c "") s' k
      | O =>
          match matcher before s with
          | Some (len, a) => a :: exec_scan (before +:+ String c "") s' (len - 1)
          | None => exec_scan (before +:+ String c "") s' 0
          end
      end
  end.
End Scan.

Definition replace_all {A} (matcher : string -> string -> option (nat * A))
    (emit : A -> string) (s : string) : string :=
  replace_scan matcher emit "" s 0.

(** [GetSubstitution] for a pattern without capture groups: what a
    replacement given as a string stands for.  [$$] is a dollar sign, [$&] the
    match, [$`] the text before it and [$'] the text after it; any other
    dollar sign stands for itself. *)
Fixpoint get_substitution (before matched after replacement : string)
  : string :=
  match replacement with
  | "" => ""
  | String "$" (String "$" r) =>
      "$" +:+ get_substitution before matched after r
  | String "$" (String "&" r) =>
      matched +:+ get_substitution before matched after r
  | String "$" (String "`" r) =>
      before +:+ get_substitution before matched after r
  | String "$" (String "'" r) =>
      after +:+ get_substitution before matched after r
  | String c r => String c (get_substitution before matched after r)
  end.

(** [s.replace(re, replacement)] with a string as the replacement. *)
Definition replace_all_string (matcher : string -> string -> option nat)
    (replacement s : string) : string :=
  replace_all
    (fun before rest =>
       len ← matcher before rest;
       Some (len, (before, substring 0 len rest, drop len rest)))
    (fun '(before, matched, after) =>
       get_substitution before matched after replacement)
    s.

Definition exec_all {A} (matcher : string -> string -> option (nat * A))
    (s : string) : list A :=
  exec_scan matcher "" s 0.

(** *** Values

    The values an environment holds.  A number is an integer (the integers
    JavaScript prints in plain decimal), [NaN] or an infinity.  [VMap] is a
    plain object, its own keys in insertion order, and [VList] an array;
    [VFunction] and [VProto] are the built-in members that the [in] operator
    and property access reach through the prototype chain of the two. *)

Inductive number :=
| Int (z : Z)
| NaN
| Infinity (negative : bool).

Inductive proto := ObjectPrototype | ArrayPrototype.

Inductive value :=
| VUndefined
| VNull
| VBool (b : bool)
| VNum (n : number)
| VStr (s : string)
| VList (items : list value)
| VMap (fields : list (string * value))
| VFunction (name : string)
| VProto (p : proto).

(** [Record<string, unknown>]. *)
Definition record := list (string * value).

Definition typeof (v : value) : string :=
  match v with
  | VUndefined => "undefined"
  | VBool _ => "boolean"
  | VNum _ => "number"
  | VStr _ => "string"
  | VFunction _ => "function"
  | VNull | VList _ | VMap _ | VProto _ => "object"
  end.

(** [Array.isArray(v)], with the elements. *)
Definition array_items (v : value) : option (list value) :=
  match v with
  | VList items => Some items
  | VProto ArrayPrototype => Some []
  | _ => None
  end.

(** [n !== 0]. *)
Definition number_is_zero (n : number) : bool :=
  match n with
  | Int z => Z.eqb z 0
  | _ => false
  end.

(** The conversion to boolean of [current && ...]. *)
Definition to_boolean (v : value) : bool :=
  match v with
  | VUndefined | VNull => false
  | VBool b => b
  | VNum NaN => false
  | VNum n => negb (number_is_zero n)
  | VStr s => negb (String.eqb s "")
  | _ => true
  end.

Definition number_to_string (n : number) : string :=
  match n with
  | Int z => pretty z
  | NaN => "NaN"
  | Infinity false => "Infinity"
  | Infinity true => "-Infinity"
  end.

(** [String(v)].  A plain object prints through [Object.prototype.toString]
    (environments are data: no mapping carries a [toString] of its own), an
    array joins its elements, a built-in function prints its native source. *)
Fixpoint to_string (v : value) : string :=
  match v with
  | VUndefined => "undefined"
  | VNull => "null"
  | VBool true => "true"
  | VBool false => "false"
  | VNum n => number_to_string n
  | VStr s => s
  | VList items =>
      join ","
        (List.map
           (fun x => match x with
                     | VUndefined | VNull => ""
                     | _ => to_string x
                     end) items)
  | VMap _ => "[object Object]"
  | VFunction name => "function " +:+ name +:+ "() { [native code] }"
  | VProto ObjectPrototype => "[object Object]"
  | VProto ArrayPrototype => ""
  end.

(** *** Properties: own keys, then the prototype chain *)

Fixpoint own_field (fields : record) (key : string) : option value :=
  match fields with
  | [] => None
  | (k, v) :: rest => if String.eqb k key then Some v else own_field rest key
  end.

(** [{ ...fields, [key]: v }]: an existing key keeps its place. *)
Fixpoint set_field (fields : record) (key : string) (v : value) : record :=
  match fields with
  | [] => [(key, v)]
  | (k, w) :: rest =>
      if String.eqb k key then (k, v) :: rest
      else (k, w) :: set_field rest key v
  end.

(** The element of an array at a canonical index ("0", "1", ...). *)
Fixpoint own_index (items : list value) (i : nat) (key : string)
  : option value :=
  match items with
  | [] => None
  | x :: rest =>
      if String.eqb (pretty i) key then Some x else own_index rest (S i) key
  end.

(** String-keyed members of [Object.prototype]. *)
Definition object_prototype_methods : list string :=
  [ "__defineGetter__"; "__defineSetter__"; "hasOwnProperty";
    "__lookupGetter__"; "__lookupSetter__"; "isPrototypeOf";
    "propertyIsEnumerable"; "toString"; "valueOf"; "toLocaleString" ].

(** String-keyed members of [Array.prototype]. *)
Definition array_prototype_methods : list string :=
  [ "at"; "concat"; "copyWithin"; "fill"; "find"; "findIndex"; "findLast";
    "findLastIndex"; "lastIndexOf"; "pop"; "push"; "reverse"; "shift";
    "unshift"; "slice"; "sort"; "splice"; "includes"; "indexOf"; "join";
    "keys"; "entries"; "values"; "forEach"; "filter"; "flat"; "flatMap";
    "map"; "every"; "some"; "reduce"; "reduceRight"; "toLocaleString";
    "toString"; "toReversed"; "toSorted"; "toSpliced"; "with" ].

Definition mem (key : string) (l : list string) : bool :=
  existsb (String.eqb key) l.

(** Lookup on [Object.prototype] itself; [proto_of] is what [__proto__]
    answers for the object the lookup started from. *)
Definition object_prototype_get (proto_of : value) (key : string)
  : option value :=
  if String.eqb key "constructor" then Some (VFunction "Object")
  else if String.eqb key "__proto__" then Some proto_of
  else if mem key object_prototype_methods then Some (VFunction key)
  else None.

Definition array_prototype_get (proto_of : value) (key : string)
  : option value :=
  if String.eqb key "constructor" then Some (VFunction "Array")
  else if mem key array_prototype_methods then Some (VFunction key)
  else object_prototype_get proto_of key.

(** [key in v] and [v[key]] for a value of type "object": [None] when [key]
    is not a property, own or inherited. *)
Definition property (v : value) (key : string) : option value :=
  match v with
  | VMap fields =>
      match own_field fields key with
      | Some x => Some x
      | None => object_prototype_get (VProto ObjectPrototype) key
      end
  | VList items =>
      match own_index items 0 key with
      | Some x => Some x
      | None =>
          if String.eqb key "length" then Some (VNum (Int (Z.of_nat (length items))))
          else array_prototype_get (VProto ArrayPrototype) key
      end
  | VProto ObjectPrototype => object_prototype_get VNull key
  | VProto ArrayPrototype =>
      if String.eqb key "length" then Some (VNum (Int 0))
      else array_prototype_get (VProto ObjectPrototype) key
  | _ => None
  end.

Definition has_property (v : value) (key : string) : bool :=
  match property v key with Some _ => true | None => false end.

Definition get_property (v : value) (key : string) : value :=
  match property v key with Some x => x | None => VUndefined end.

(** The values on which [String(v)] returns and is what [to_string] prints.
    A number is an integer that JavaScript holds exactly and prints in plain
    decimal (below 2^53 in magnitude), [NaN] or an infinity.  A mapping has
    no own key [toString]: one that holds such a key does not print through
    [Object.prototype.toString], and [String] throws when the key holds no
    function.  The elements of a list are again such values, since an array
    prints by joining them.  The source text of a built-in function depends
    on the engine. *)
Fixpoint printable (v : value) : bool :=
  match v with
  | VNum (Int z) => (Z.abs z <? 2 ^ 53)%Z
  | VList items => forallb printable items
  | VMap fields =>
      match own_field fields "toString" with
      | Some _ => false
      | None => true
      end
  | VFunction _ => false
  | _ => true
  end.

End JS.

(** ** Content types ([types/ContentTypes.ts]) *)

Module ContentTypes.
Import JS.

(** The type of a variable is a text: the six declared ones, or any other
    text, which the loader does not reject. *)
Inductive variable_type :=
| TString | TNumber | TBoolean | TDate | TArray | TObject
| TOther (text : string).

Record IVariableValidation := {
  pattern : option string;
  min : option number;
  max : option number;
  enum : option (list value);
  custom : option string
}.

Record ITemplateVariable := {
  var_name : string;
  var_description : string;
  var_type : variable_type;
  var_required : bool;
  var_default : option value;
  var_validation : option IVariableValidation
}.

Inductive template_category := Phase | Document | Deliverable | Checklist.

(** A template as the loader hands it over: the schema requires [id], [name],
    [category], [version] and [content]; the other fields may be absent. *)
Record ISDLCTemplate := {
  id : string;
  name : string;
  category : template_category;
  phase : option string;
  version : string;
  description : option string;
  variables : option (list ITemplateVariable);
  content : string;
  parent : option string;
  tags : option (list string)
}.

End ContentTypes.

(** ** The template renderer ([implementations/TemplateRenderer.ts]) *)

Module TemplateRenderer.
Import JS ContentTypes.

(** [variablePattern]: two opening braces, [\s*], one or more [[\w.]], [\s*],
    two closing braces.  The three classes are disjoint and none holds a
    brace, so the greedy runs are the only way to match.  The answer is the
    capture group. *)
Definition variablePattern (before rest : string) : option (nat * string) :=
  rest1 ← strip_prefix "{{" rest;
  let '(ws1, rest2) := span is_space rest1 in
  let '(path, rest3) := span is_path_char rest2 in
  if String.eqb path "" then None
  else
    let '(ws2, rest4) := span is_space rest3 in
    _ ← strip_prefix "}}" rest4;
    let group := ws1 +:+ path +:+ ws2 in
    Some (2 + String.length group + 2, group).

(** [conditionalPattern]: the opening marker with its condition, then the
    shortest body that is followed by a closing marker.  The answer is the
    pair of capture groups (condition, body). *)
Definition conditionalPattern (before rest : string)
  : option (nat * (string * string)) :=
  rest1 ← strip_prefix "{{#if" rest;
  let '(ws, rest2) := span is_space rest1 in
  if String.eqb ws "" then None
  else
    let '(condition, rest3) := span is_path_char rest2 in
    if String.eqb condition "" then None
    else
      rest4 ← strip_prefix "}}" rest3;
      i ← find "{{/if}}" rest4;
      Some (5 + String.length ws + String.length condition + 2 + i + 7,
            (condition, substring 0 i rest4)).

(** The words [\s+([\w.]+)\s+as\s+(\w+)] shared by [loopPattern] and by the
    header match of [processLoops]: the two capture groups and the rest. *)
Definition loop_header (s : string) : option (string * string * string * nat) :=
  let '(ws1, s1) := span is_space s in
  if String.eqb ws1 "" then None
  else
    let '(arrayVar, s2) := span is_path_char s1 in
    if String.eqb arrayVar "" then None
    else
      let '(ws2, s3) := span is_space s2 in
      if String.eqb ws2 "" then None
      else
        s4 ← strip_prefix "as" s3;
        let '(ws3, s5) := span is_space s4 in
        if String.eqb ws3 "" then None
        else
          let '(itemName, s6) := span is_word s5 in
          if String.eqb itemName "" then None
          else
            Some (arrayVar, itemName, s6,
                  String.length ws1 + String.length arrayVar
                  + String.length ws2 + 2 + String.length ws3
                  + String.length itemName).

(** [loopPattern]: the answer is the triple of capture groups. *)
Definition loopPattern (before rest : string)
  : option (nat * (string * string * string)) :=
  rest1 ← strip_prefix "{{#each" rest;
  '(arrayVar, itemName, rest2, n) ← loop_header rest1;
  rest3 ← strip_prefix "}}" rest2;
  i ← find "{{/each}}" rest3;
  Some (7 + n + 2 + i + 9, (arrayVar, itemName, substring 0 i rest3)).

(** [header.match(/\s+([\w.]+)\s+as\s+(\w+)/)]: the pattern is not anchored,
    the first position where it matches wins. *)
Fixpoint match_header (header : string) : option (string * string) :=
  match loop_header header with
  | Some (arrayVar, itemName, _, _) => Some (arrayVar, itemName)
  | None =>
      match header with
      | String _ header' => match_header header'
      | "" => None
      end
  end.

(** [getNestedValue]. *)
Fixpoint getNestedValue_parts (parts : list string) (current : value) : value :=
  match parts with
  | [] => current
  | part :: parts' =>
      if to_boolean current && String.eqb (typeof current) "object"
         && has_property current part
      then getNestedValue_parts parts' (get_property current part)
      else VUndefined
  end.

Definition getNestedValue (obj : record) (path : string) : value :=
  getNestedValue_parts (split "." path) (VMap obj).

(** [isTruthy]. *)
Definition isTruthy (value : value) : bool :=
  match value with
  | VNull | VUndefined => false
  | VBool b => b
  | VNum n => negb (number_is_zero n)
  | VStr s => 0 <? String.length s
  | _ =>
      match array_items value with
      | Some items => 0 <? length items
      | None => true
      end
  end.

(** [processConditionals]. *)
Definition processConditionals (template : string) (variables : record)
  : string :=
  replace_all conditionalPattern
    (fun '(condition, content) =>
       let value := getNestedValue variables (trim condition) in
       if isTruthy value then content else "")
    template.

(** [processVariables]. *)
Definition processVariables (template : string) (variables : record)
  : string :=
  replace_all variablePattern
    (fun varName =>
       let value := getNestedValue variables (trim varName) in
       match value with
       | VUndefined => ""
       | _ => to_string value
       end)
    template.

(** The last statement of [render]: unmatched variables are removed. *)
Definition cleanup (result : string) : string :=
  replace_all variablePattern (fun _ => "") result.

(** [findMatchingEnd]: every turn moves [pos] forward by 7 or by 9, and the
    loop ends once [pos] reaches the length of the text, so the bound of
    [findMatchingEnd] is never what stops it. *)
Fixpoint findMatchingEnd_loop (turns : nat) (text : string) (depth pos : nat)
  : option nat :=
  match turns with
  | O => None
  | S turns' =>
      if (0 <? depth) && (pos <? String.length text) then
        let nextStart := indexOf "{{#each" text pos in
        let nextEnd := indexOf "{{/each}}" text pos in
        match nextEnd with
        | None => None
        | Some nextEnd =>
            match nextStart with
            | Some nextStart =>
                if nextStart <? nextEnd then
                  findMatchingEnd_loop turns' text (depth + 1) (nextStart + 7)
                else
                  let depth := depth - 1 in
                  if depth =? 0 then Some (nextEnd + 9)
                  else findMatchingEnd_loop turns' text depth (nextEnd + 9)
            | None =>
                let depth := depth - 1 in
                if depth =? 0 then Some (nextEnd + 9)
                else findMatchingEnd_loop turns' text depth (nextEnd + 9)
            end
        end
      else None
  end.

Definition findMatchingEnd (text : string) (startPos : nat) : option nat :=
  findMatchingEnd_loop (S (String.length text)) text 1 startPos.

Section ProcessLoops.
(** The recursive call [this.render(content, itemVars)]: [None] when it
    does not return. *)
Variable this_render : string -> record -> option string.

(** [for (const item of array) result += this.render(content, itemVars)]. *)
Fixpoint render_items (content : string) (variables : record)
    (itemName : string) (items : list value) (result : string)
  : option string :=
  match items with
  | [] => Some result
  | item :: items' =>
      let itemVars := set_field variables itemName item in
      match this_render content itemVars with
      | None => None
      | Some out =>
          render_items content variables itemName items' (result +:+ out)
      end
  end.

(** The [while (true)] of [processLoops]: every turn that goes on moves
    [lastPos] forward, and the loop ends once no opening marker is left. *)
Fixpoint processLoops_loop (turns : nat) (template : string)
    (variables : record) (lastPos : nat) (result : string)
  : option string :=
  match turns with
  | O => None
  | S turns' =>
      match indexOf "{{#each" template lastPos with
      | None => Some (result +:+ slice_from template lastPos)
      | Some startMatch =>
          let result := result +:+ slice template lastPos startMatch in
          match indexOf "}}" template startMatch with
          | None => Some (result +:+ slice_from template startMatch)
          | Some headerEnd =>
              let header := slice template (startMatch + 7) headerEnd in
              match match_header header with
              | None =>
                  processLoops_loop turns' template variables (headerEnd + 2)
                    (result +:+ slice template startMatch (headerEnd + 2))
              | Some (arrayVar, itemName) =>
                  let contentStart := headerEnd + 2 in
                  match findMatchingEnd template contentStart with
                  | None => Some (result +:+ slice_from template startMatch)
                  | Some endPos =>
                      let content :=
                        slice template contentStart (endPos - 9) in
                      let array :=
                        getNestedValue variables (trim arrayVar) in
                      match array_items array with
                      | Some items =>
                          match render_items content variables itemName
                                  items result with
                          | None => None
                          | Some result =>
                              processLoops_loop turns' template variables
                                endPos result
                          end
                      | None =>
                          processLoops_loop turns' template variables
                            endPos result
                      end
                  end
              end
          end
      end
  end.

Definition processLoops (template : string) (variables : record)
  : option string :=
  processLoops_loop (S (String.length template)) template variables 0 "".

(** One turn of the loop of [render]. *)
Definition pass (variables : record) (result : string) : option string :=
  match processLoops result variables with
  | None => None
  | Some result =>
      let result := processConditionals result variables in
      Some (processVariables result variables)
  end.
End ProcessLoops.

(** [while (result !== previousResult)], at most [n] turns. *)
Fixpoint until_stable (n : nat) (step : string -> option string)
    (result previousResult : string) : option string :=
  if String.eqb result previousResult then Some result
  else
    match n with
    | O => None
    | S n' =>
        match step result with
        | None => None
        | Some result' => until_stable n' step result' result
        end
    end.

(** [render]: the code has no bound on the turns of its loop nor on the
    depth of its recursion; [fuel] bounds both, and [None] says that the
    fuel did not suffice. *)
Fixpoint render (fuel : nat) (template : string) (variables : record)
  : option string :=
  match fuel with
  | O => None
  | S fuel' =>
      option_map cleanup
        (until_stable fuel' (pass (render fuel') variables) template "")
  end.

(** The text at which the loop of [render] stops, before the clean-up. *)
Definition stable_text (fuel : nat) (template : string) (variables : record)
  : option string :=
  match fuel with
  | O => None
  | S fuel' => until_stable fuel' (pass (render fuel') variables) template ""
  end.

(** [matches.add(x)] on a [Set], kept in insertion order. *)
Definition set_add (matches : list string) (x : string) : list string :=
  if mem x matches then matches else matches ++ [x].

(** The names that the three scans of [extractVariables] add to [matches]. *)
Definition variable_matches (template : string) : list string :=
  trim <$> exec_all variablePattern template.

Definition conditional_matches (template : string) : list string :=
  (fun '(condition, _) => trim condition)
    <$> exec_all conditionalPattern template.

Definition loop_matches (template : string) : list string :=
  (fun '(arrayVar, _, _) => trim arrayVar) <$> exec_all loopPattern template.

(** The definition that [extractVariables] creates for a name. *)
Definition extracted (varName : string) : ITemplateVariable :=
  {| var_name := varName;
     var_description := "Variable " +:+ varName +:+ " used in template";
     var_type := TString;
     var_required := true;
     var_default := None;
     var_validation := None |}.

(** [variables.set(varName, ...)] unless [variables.has(varName)], on a [Map]
    kept in insertion order. *)
Definition define_variable (variables : list (string * ITemplateVariable))
    (varName : string) : list (string * ITemplateVariable) :=
  if mem varName (fst <$> variables) then variables
  else variables ++ [(varName, extracted varName)].

(** [extractVariables]. *)
Definition extractVariables (template : string) : list ITemplateVariable :=
  let matches := fold_left set_add (variable_matches template) [] in
  let matches := fold_left set_add (conditional_matches template) matches in
  let matches := fold_left set_add (loop_matches template) matches in
  let variables := fold_left define_variable matches [] in
  snd <$> variables.

End TemplateRenderer.

(** ** The inheritance resolver ([implementations/TemplateInheritance.ts]) *)

Module TemplateInheritance.
Import JS ContentTypes.

(** The errors the class throws, by message. *)
Inductive error :=
| TemplateGetterNotSet
| TemplateNotFound (templateId : string)
| ChainTemplateNotFound (id : string)
| FailedToResolve
| CircularInheritance (templateId parent : string)
| NotAFunction.

Inductive outcome (A : Type) :=
| Return (a : A)
| Throw (e : error)
| OutOfFuel.
Arguments Return {A} a.
Arguments Throw {A} e.
Arguments OutOfFuel {A}.

Definition TemplateGetter := string -> option ISDLCTemplate.

(** The two private fields of the class. *)
Record state := {
  resolvedCache : gmap string ISDLCTemplate;
  templateGetter : option TemplateGetter
}.

Definition cache_set (st : state) (templateId : string) (t : ISDLCTemplate)
  : state :=
  {| resolvedCache := <[templateId := t]> (resolvedCache st);
     templateGetter := templateGetter st |}.

Definition clearCache (st : state) : state :=
  {| resolvedCache := ∅; templateGetter := templateGetter st |}.

Definition setTemplateGetter (st : state) (getter : TemplateGetter) : state :=
  {| resolvedCache := resolvedCache st; templateGetter := Some getter |}.

(** The truth value of an optional string: [undefined] and [""] are false. *)
Definition truthy (o : option string) : bool :=
  match o with
  | Some s => negb (String.eqb s "")
  | None => false
  end.

(** [merged.findIndex(v => v.name === name)]. *)
Fixpoint findIndex (varName : string) (merged : list ITemplateVariable)
  : option nat :=
  match merged with
  | [] => None
  | v :: rest =>
      if String.eqb (var_name v) varName then Some 0
      else option_map S (findIndex varName rest)
  end.

(** The body of the loop of [mergeVariables]: override in place or push. *)
Definition merge_step (merged : list ITemplateVariable)
    (childVar : ITemplateVariable) : list ITemplateVariable :=
  match findIndex (var_name childVar) merged with
  | Some existingIndex => <[existingIndex := childVar]> merged
  | None => merged ++ [childVar]
  end.

(** [mergeVariables]. *)
Definition mergeVariables (parentVars childVars : list ITemplateVariable)
  : list ITemplateVariable :=
  fold_left merge_step childVars parentVars.

(** [mergeTags]: a [Set] built from both lists, in insertion order. *)
Definition mergeTags (parentTags childTags : list string) : list string :=
  fold_left TemplateRenderer.set_add (parentTags ++ childTags) [].

(** The pattern of the splice marker in [mergeContent]. *)
Definition parentPattern (before rest : string) : option nat :=
  rest1 ← strip_prefix "{{>" rest;
  let '(ws1, rest2) := span is_space rest1 in
  rest3 ← strip_prefix "parent" rest2;
  let '(ws2, rest4) := span is_space rest3 in
  _ ← strip_prefix "}}" rest4;
  Some (3 + String.length ws1 + 6 + String.length ws2 + 2).

(** [mergeContent]: the parent content is handed to [replace] as a
    replacement string. *)
Definition mergeContent (parentContent childContent : string) : string :=
  replace_all_string parentPattern parentContent childContent.

(** A field of [{ ...parent, ...child }] that either may lack. *)
Definition spread {A} (parentField childField : option A) : option A :=
  match childField with
  | Some x => Some x
  | None => parentField
  end.

(** [mergeTemplates]. *)
Definition mergeTemplates (parent child : ISDLCTemplate) : ISDLCTemplate :=
  let merged :=
    {| id := id child;
       name := name child;
       category := category child;
       phase := spread (phase parent) (phase child);
       version := version child;
       description := spread (description parent) (description child);
       variables := Some (mergeVariables (default [] (variables parent))
                                         (default [] (variables child)));
       tags := Some (mergeTags (default [] (tags parent))
                               (default [] (tags child)));
       content := mergeContent (content parent) (content child);
       parent := ContentTypes.parent child |} in
  if truthy (phase parent) || truthy (phase child) then
    {| id := id merged;
       name := name merged;
       category := category merged;
       phase := if truthy (phase child) then phase child else phase parent;
       version := version merged;
       description := description merged;
       variables := variables merged;
       tags := tags merged;
       content := content merged;
       parent := ContentTypes.parent merged |}
  else merged.

(** The [while (true)] of [getInheritanceChain]; [fuel] bounds its turns. *)
Fixpoint getInheritanceChain_loop (fuel : nat) (getter : TemplateGetter)
    (templateId : string) (chain : list string) (visited : gset string)
    (currentId : string) : outcome (list string) :=
  match fuel with
  | O => OutOfFuel
  | S fuel' =>
      match getter currentId with
      | None => Return chain
      | Some template =>
          if negb (truthy (parent template)) then Return chain
          else
            let p := default "" (parent template) in
            if bool_decide (p ∈ visited) then
              Throw (CircularInheritance templateId p)
            else
              getInheritanceChain_loop fuel' getter templateId
                (chain ++ [p]) (visited ∪ {[p]}) p
      end
  end.

(** [getInheritanceChain]. *)
Definition getInheritanceChain (fuel : nat) (st : state) (templateId : string)
  : outcome (list string) :=
  match templateGetter st with
  | None => Throw NotAFunction
  | Some getter =>
      getInheritanceChain_loop fuel getter templateId
        [templateId] {[templateId]} templateId
  end.

(** The [for] loop of [resolveTemplate] over the reversed chain. *)
Fixpoint merge_chain (getter : TemplateGetter) (ids : list string)
    (resolved : option ISDLCTemplate) : outcome (option ISDLCTemplate) :=
  match ids with
  | [] => Return resolved
  | id :: ids' =>
      match getter id with
      | None => Throw (ChainTemplateNotFound id)
      | Some current =>
          match resolved with
          | None => merge_chain getter ids' (Some current)
          | Some r => merge_chain getter ids' (Some (mergeTemplates r current))
          end
      end
  end.

(** [resolveTemplate]: the answer and the state it leaves. *)
Definition resolveTemplate (fuel : nat) (st : state) (templateId : string)
  : outcome ISDLCTemplate * state :=
  match resolvedCache st !! templateId with
  | Some cached => (Return cached, st)
  | None =>
      match templateGetter st with
      | None => (Throw TemplateGetterNotSet, st)
      | Some getter =>
          match getter templateId with
          | None => (Throw (TemplateNotFound templateId), st)
          | Some template =>
              if negb (truthy (parent template)) then
                (Return template, cache_set st templateId template)
              else
                match getInheritanceChain fuel st templateId with
                | OutOfFuel => (OutOfFuel, st)
                | Throw e => (Throw e, st)
                | Return chain =>
                    match merge_chain getter (reverse chain) None with
                    | OutOfFuel => (OutOfFuel, st)
                    | Throw e => (Throw e, st)
                    | Return None => (Throw FailedToResolve, st)
                    | Return (Some resolved) =>
                        (Return resolved, cache_set st templateId resolved)
                    end
                end
          end
      end
  end.

(** An instance with a getter installed and [cache] as its cache. *)
Definition resolver (cache : gmap string ISDLCTemplate)
    (getter : TemplateGetter) : state :=
  {| resolvedCache := cache; templateGetter := Some getter |}.

(** The store of [ContentManager]: a [Map] from id to template, read by the
    getter it installs. *)
Definition store_getter (templates : gmap string ISDLCTemplate)
  : TemplateGetter :=
  fun id => templates !! id.

(** Every turn of [getInheritanceChain] but the last visits an id of the
    store that was not visited before: one turn more than the store has
    templates is enough. *)
Definition chain_fuel (templates : gmap string ISDLCTemplate) : nat :=
  S (size templates).

End TemplateInheritance.

(** ** Validation of an environment ([implementations/TemplateRenderer.ts])

    [validateVariables] and its helpers [validateType], [validateValue] and
    [flattenKeys].  Two built-ins are not part of the language core and are
    taken from the host: [Date.parse], and the construction and test of a
    regular expression given as text, which throws on a malformed pattern.
    Values are the values of [JS.value]; none is a [Date] object. *)

Module TemplateValidation.
Import JS ContentTypes TemplateRenderer.

Inductive error_type := Missing | Invalid | Conflict | Syntax.
Inductive warning_type := Deprecated | Unused | Style | BestPractice.

Record IValidationError := {
  err_path : string;
  err_message : string;
  err_type : error_type
}.

Record IValidationWarning := {
  warn_path : string;
  warn_message : string;
  warn_type : warning_type
}.

Record IContentValidationResult := {
  valid : bool;
  errors : list IValidationError;
  warnings : list IValidationWarning
}.

(** What the validation throws: the [TypeError] of [for ... of] over
    [undefined], and the [SyntaxError] of [new RegExp(pattern)]. *)
Inductive exception :=
| NotIterable
| InvalidRegExp (pattern : string).

Inductive completion (A : Type) :=
| Normal (a : A)
| Abrupt (e : exception).
Arguments Normal {A} a.
Arguments Abrupt {A} e.

Record Host := {
  Date_parse : string -> number;
  (** [new RegExp(pattern).test(s)]; [None] when the constructor throws. *)
  RegExp_test : string -> string -> option bool
}.

(** The text of a type: what [switch (type)] compares and what a message
    prints. *)
Definition type_name (type : variable_type) : string :=
  match type with
  | TString => "string"
  | TNumber => "number"
  | TBoolean => "boolean"
  | TDate => "date"
  | TArray => "array"
  | TObject => "object"
  | TOther text => text
  end.

Definition isNaN (n : number) : bool :=
  match n with
  | NaN => true
  | _ => false
  end.

(** [a < b] on numbers. *)
Definition number_lt (a b : number) : bool :=
  match a, b with
  | NaN, _ | _, NaN => false
  | Int x, Int y => Z.ltb x y
  | Int _, Infinity negative => negb negative
  | Infinity negative, Int _ => negative
  | Infinity n1, Infinity n2 => n1 && negb n2
  end.

Definition number_eqb (a b : number) : bool :=
  match a, b with
  | Int x, Int y => Z.eqb x y
  | NaN, NaN => true
  | Infinity n1, Infinity n2 => Bool.eqb n1 n2
  | _, _ => false
  end.

(** The comparison of [Array.prototype.includes]: [NaN] equals itself, and an
    object equals only itself.  The values of an enumeration are read from
    the template, the value tested from the environment: they share no
    object. *)
Definition same_value_zero (a b : value) : bool :=
  match a, b with
  | VUndefined, VUndefined => true
  | VNull, VNull => true
  | VBool x, VBool y => Bool.eqb x y
  | VNum x, VNum y => number_eqb x y
  | VStr x, VStr y => String.eqb x y
  | _, _ => false
  end.

Definition includes (items : list value) (v : value) : bool :=
  existsb (fun item => same_value_zero item v) items.

(** [items.join(sep)], on items that print ([printable]); the join throws
    where [String] throws on an item. *)
Definition join_values (sep : string) (items : list value) : string :=
  join sep
    (List.map
       (fun x => match x with
                 | VUndefined | VNull => ""
                 | _ => to_string x
                 end) items).

Definition is_undefined (v : value) : bool :=
  match v with
  | VUndefined => true
  | _ => false
  end.

Section Validate.
Variable host : Host.

(** [validateType]: a [switch] on the text of the type, whose [default]
    accepts every value. *)
Definition validateType (v : value) (type : variable_type) : bool :=
  let type := type_name type in
  if String.eqb type "string" then String.eqb (typeof v) "string"
  else if String.eqb type "number" then String.eqb (typeof v) "number"
  else if String.eqb type "boolean" then String.eqb (typeof v) "boolean"
  else if String.eqb type "date" then
    match v with
    | VStr s => negb (isNaN (Date_parse host s))
    | _ => false
    end
  else if String.eqb type "array" then
    match array_items v with
    | Some _ => true
    | None => false
    end
  else if String.eqb type "object" then
    String.eqb (typeof v) "object"
    && match v with VNull => false | _ => true end
    && match array_items v with Some _ => false | None => true end
  else true.

Definition pattern_error (varDef : ITemplateVariable) (p : string)
  : IValidationError :=
  {| err_path := var_name varDef;
     err_message := "Value does not match pattern: " +:+ p;
     err_type := Invalid |}.

Definition min_error (varDef : ITemplateVariable) (n m : number)
  : IValidationError :=
  {| err_path := var_name varDef;
     err_message := "Value " +:+ number_to_string n
                    +:+ " is less than minimum " +:+ number_to_string m;
     err_type := Invalid |}.

Definition max_error (varDef : ITemplateVariable) (n m : number)
  : IValidationError :=
  {| err_path := var_name varDef;
     err_message := "Value " +:+ number_to_string n
                    +:+ " is greater than maximum " +:+ number_to_string m;
     err_type := Invalid |}.

Definition enum_error (varDef : ITemplateVariable) (items : list value)
  : IValidationError :=
  {| err_path := var_name varDef;
     err_message := "Value must be one of: " +:+ join_values ", " items;
     err_type := Invalid |}.

(** The pattern check of [validateValue]: for a string, against a pattern
    that is not the empty text. *)
Definition validate_pattern (v : value) (varDef : ITemplateVariable)
    (validation : IVariableValidation)
  : completion (list IValidationError) :=
  match pattern validation, v with
  | Some p, VStr s =>
      if String.eqb p "" then Normal []
      else
        match RegExp_test host p s with
        | None => Abrupt (InvalidRegExp p)
        | Some true => Normal []
        | Some false => Normal [pattern_error varDef p]
        end
  | _, _ => Normal []
  end.

(** The bounds check of [validateValue], for a number. *)
Definition validate_range (v : value) (varDef : ITemplateVariable)
    (validation : IVariableValidation) : list IValidationError :=
  match v with
  | VNum n =>
      match min validation with
      | Some m => if number_lt n m then [min_error varDef n m] else []
      | None => []
      end
      ++ match max validation with
         | Some m => if number_lt m n then [max_error varDef n m] else []
         | None => []
         end
  | _ => []
  end.

(** The enumeration check of [validateValue]. *)
Definition validate_enum (v : value) (varDef : ITemplateVariable)
    (validation : IVariableValidation) : list IValidationError :=
  match enum validation with
  | Some items => if includes items v then [] else [enum_error varDef items]
  | None => []
  end.

(** [validateValue]. *)
Definition validateValue (v : value) (varDef : ITemplateVariable)
  : completion (list IValidationError) :=
  match var_validation varDef with
  | None => Normal []
  | Some validation =>
      match validate_pattern v varDef validation with
      | Abrupt e => Abrupt e
      | Normal patternErrors =>
          Normal (patternErrors ++ validate_range v varDef validation
                  ++ validate_enum v varDef validation)
      end
  end.

Definition missing_error (varDef : ITemplateVariable) : IValidationError :=
  {| err_path := var_name varDef;
     err_message := "Required variable '" +:+ var_name varDef
                    +:+ "' is missing";
     err_type := Missing |}.

Definition type_error (varDef : ITemplateVariable) : IValidationError :=
  {| err_path := var_name varDef;
     err_message := "Variable '" +:+ var_name varDef
                    +:+ "' has invalid type. Expected "
                    +:+ type_name (var_type varDef);
     err_type := Invalid |}.

(** One turn of the first loop of [validateVariables]: the errors it
    pushes. *)
Definition validate_definition (variables : record)
    (varDef : ITemplateVariable) : completion (list IValidationError) :=
  let v := getNestedValue variables (var_name varDef) in
  if var_required varDef && is_undefined v then Normal [missing_error varDef]
  else if is_undefined v then Normal []
  else
    let typeErrors :=
      if validateType v (var_type varDef) then [] else [type_error varDef] in
    match var_validation varDef with
    | Some _ =>
        match validateValue v varDef with
        | Abrupt e => Abrupt e
        | Normal validationErrors => Normal (typeErrors ++ validationErrors)
        end
    | None => Normal typeErrors
    end.

(** The first loop of [validateVariables]. *)
Fixpoint validate_definitions (variables : record)
    (defs : list ITemplateVariable) (errors : list IValidationError)
  : completion (list IValidationError) :=
  match defs with
  | [] => Normal errors
  | varDef :: rest =>
      match validate_definition variables varDef with
      | Abrupt e => Abrupt e
      | Normal pushed => validate_definitions variables rest (errors ++ pushed)
      end
  end.

End Validate.

(** [flattenKeys] of a value that passed the test
    [value && typeof value === 'object' && !Array.isArray(value)], and of any
    other value the empty list.  A mapping lists its entries in the order of
    [Object.entries]; the prototype object has none. *)
Fixpoint flattenKeys_of (v : value) (prefix : string) : list string :=
  match v with
  | VMap fields =>
      (fix entries (l : list (string * value)) : list string :=
         match l with
         | [] => []
         | (key, v') :: rest =>
             let fullKey :=
               if String.eqb prefix "" then key
               else prefix +:+ "." +:+ key in
             fullKey :: flattenKeys_of v' fullKey ++ entries rest
         end) fields
  | _ => []
  end.

(** [flattenKeys]. *)
Definition flattenKeys (obj : record) (prefix : string) : list string :=
  flattenKeys_of (VMap obj) prefix.

Definition unused_warning (key : string) : IValidationWarning :=
  {| warn_path := key;
     warn_message := "Variable '" +:+ key +:+ "' is not defined in template";
     warn_type := Unused |}.

(** [validateVariables]. *)
Definition validateVariables (host : Host) (template : ISDLCTemplate)
    (variables : record) : completion IContentValidationResult :=
  match ContentTypes.variables template with
  | None => Abrupt NotIterable
  | Some defs =>
      match validate_definitions host variables defs [] with
      | Abrupt e => Abrupt e
      | Normal errors =>
          let definedVars := var_name <$> defs in
          let providedVars := flattenKeys variables "" in
          let warnings :=
            unused_warning
              <$> List.filter (fun key => negb (mem key definedVars))
                    providedVars in
          Normal {| valid := Nat.eqb (length errors) 0;
                    errors := errors;
                    warnings := warnings |}
      end
  end.

End TemplateValidation.

(** ** The content validator ([implementations/ContentValidator.ts])

    Its validation of an environment against a list of definitions:
    [validateVariables], [validateVariableType] and [validateVariableValue].
    The checks of a whole template go through a schema library and are not
    part of this development. *)

Module ContentValidator.
Import JS ContentTypes TemplateValidation.

Section Validate.
Variable host : Host.

(** The types that [validateVariable] accepts in a definition. *)
Definition validTypes : list string :=
  ["string"; "number"; "boolean"; "date"; "array"; "object"].

(** [validateVariableType]: a [switch] on the text of the type, whose
    [default] rejects every value. *)
Definition validateVariableType (v : value) (type : variable_type) : bool :=
  let type := type_name type in
  if String.eqb type "string" then String.eqb (typeof v) "string"
  else if String.eqb type "number" then
    match v with
    | VNum n => negb (isNaN n)
    | _ => false
    end
  else if String.eqb type "boolean" then String.eqb (typeof v) "boolean"
  else if String.eqb type "date" then
    match v with
    | VStr s => negb (isNaN (Date_parse host s))
    | _ => false
    end
  else if String.eqb type "array" then
    match array_items v with
    | Some _ => true
    | None => false
    end
  else if String.eqb type "object" then
    String.eqb (typeof v) "object"
    && match v with VNull => false | _ => true end
    && match array_items v with Some _ => false | None => true end
  else false.

Definition required_pattern_error (variable : ITemplateVariable) (p : string)
  : IValidationError :=
  {| err_path := var_name variable;
     err_message := "Value does not match required pattern: " +:+ p;
     err_type := Invalid |}.

Definition below_error (variable : ITemplateVariable) (n m : number)
  : IValidationError :=
  {| err_path := var_name variable;
     err_message := "Value " +:+ number_to_string n
                    +:+ " is below minimum " +:+ number_to_string m;
     err_type := Invalid |}.

Definition exceeds_error (variable : ITemplateVariable) (n m : number)
  : IValidationError :=
  {| err_path := var_name variable;
     err_message := "Value " +:+ number_to_string n
                    +:+ " exceeds maximum " +:+ number_to_string m;
     err_type := Invalid |}.

Definition one_of_error (variable : ITemplateVariable) (items : list value)
  : IValidationError :=
  {| err_path := var_name variable;
     err_message := "Value must be one of: " +:+ join_values ", " items;
     err_type := Invalid |}.

(** [validateVariableValue]. *)
Definition validateVariableValue (variable : ITemplateVariable) (v : value)
  : completion (list IValidationError) :=
  match var_validation variable with
  | None => Normal []
  | Some validation =>
      let patternErrors :=
        match pattern validation, v with
        | Some p, VStr s =>
            if String.eqb p "" then Normal []
            else
              match RegExp_test host p s with
              | None => Abrupt (InvalidRegExp p)
              | Some true => Normal []
              | Some false => Normal [required_pattern_error variable p]
              end
        | _, _ => Normal []
        end in
      match patternErrors with
      | Abrupt e => Abrupt e
      | Normal patternErrors =>
          let numericErrors :=
            match v with
            | VNum n =>
                match min validation with
                | Some m =>
                    if number_lt n m then [below_error variable n m] else []
                | None => []
                end
                ++ match max validation with
                   | Some m =>
                       if number_lt m n then [exceeds_error variable n m]
                       else []
                   | None => []
                   end
            | _ => []
            end in
          let enumErrors :=
            match enum validation with
            | Some items =>
                if (0 <? length items) && negb (includes items v)
                then [one_of_error variable items] else []
            | None => []
            end in
          Normal (patternErrors ++ numericErrors ++ enumErrors)
      end
  end.

Definition incorrect_type_error (variable : ITemplateVariable)
  : IValidationError :=
  {| err_path := var_name variable;
     err_message := "Variable '" +:+ var_name variable
                    +:+ "' has incorrect type. Expected "
                    +:+ type_name (var_type variable);
     err_type := Invalid |}.

(** One turn of the first loop of [validateVariables]; the value is read by
    [values[variable.name]]. *)
Definition validate_variable (values : record) (variable : ITemplateVariable)
  : completion (list IValidationError) :=
  let v := get_property (VMap values) (var_name variable) in
  if var_required variable && is_undefined v then
    Normal [missing_error variable]
  else if is_undefined v then Normal []
  else
    let typeErrors :=
      if validateVariableType v (var_type variable) then []
      else [incorrect_type_error variable] in
    match var_validation variable with
    | Some _ =>
        match validateVariableValue variable v with
        | Abrupt e => Abrupt e
        | Normal varErrors => Normal (typeErrors ++ varErrors)
        end
    | None => Normal typeErrors
    end.

Fixpoint validate_variables (values : record)
    (variables : list ITemplateVariable) (errors : list IValidationError)
  : completion (list IValidationError) :=
  match variables with
  | [] => Normal errors
  | variable :: rest =>
      match validate_variable values variable with
      | Abrupt e => Abrupt e
      | Normal pushed => validate_variables values rest (errors ++ pushed)
      end
  end.

Definition not_defined_warning (key : string) : IValidationWarning :=
  {| warn_path := key;
     warn_message := "Variable '" +:+ key +:+ "' is not defined";
     warn_type := Unused |}.

(** [validateVariables]. *)
Definition validateVariables (variables : list ITemplateVariable)
    (values : record) : completion IContentValidationResult :=
  match validate_variables values variables [] with
  | Abrupt e => Abrupt e
  | Normal errors =>
      let definedVars := var_name <$> variables in
      let warnings :=
        not_defined_warning
          <$> List.filter (fun key => negb (mem key definedVars))
                (fst <$> values) in
      Normal {| valid := Nat.eqb (length errors) 0;
                errors := errors;
                warnings := warnings |}
  end.

End Validate.

End ContentValidator.

(** ** The content manager ([implementations/ContentManager.ts]) *)

Module ContentManager.
Import JS ContentTypes TemplateInheritance.

(** [getTemplate]: [templates] is the [Map] of the manager, which the getter
    of its inheritance resolver reads; [cache] is the cache of that resolver.
    The answer is [None] where the code answers [undefined]. *)
Definition getTemplate (fuel : nat) (templates cache : gmap string ISDLCTemplate)
    (templateId : string)
  : outcome (option ISDLCTemplate) * gmap string ISDLCTemplate :=
  match templates !! templateId with
  | None => (Return None, cache)
  | Some template =>
      if truthy (parent template) then
        match resolveTemplate fuel (resolver cache (store_getter templates))
                templateId with
        | (Return t, st') => (Return (Some t), resolvedCache st')
        | (Throw e, st') => (Throw e, resolvedCache st')
        | (OutOfFuel, st') => (OutOfFuel, resolvedCache st')
        end
      else (Return (Some template), cache)
  end.

(** How a call of [renderTemplate] ends. *)
Inductive failure :=
| TemplateMissing (templateId : string)
| Inheritance (e : error)
| Validation (e : TemplateValidation.exception)
| InvalidTemplateVariables (messages : string).

Inductive rendering :=
| Rendered (text : string)
| Failed (f : failure)
| Unfinished.

(** [renderTemplate]: [fuel] bounds the chain walk of the resolver, [turns]
    the passes of [render]. *)
Definition renderTemplate (host : TemplateValidation.Host) (fuel turns : nat)
    (templates cache : gmap string ISDLCTemplate)
    (templateId : string) (variables : record)
  : rendering * gmap string ISDLCTemplate :=
  match getTemplate fuel templates cache templateId with
  | (OutOfFuel, cache') => (Unfinished, cache')
  | (Throw e, cache') => (Failed (Inheritance e), cache')
  | (Return None, cache') => (Failed (TemplateMissing templateId), cache')
  | (Return (Some template), cache') =>
      match TemplateValidation.validateVariables host template variables with
      | TemplateValidation.Abrupt e => (Failed (Validation e), cache')
      | TemplateValidation.Normal validation =>
          if negb (TemplateValidation.valid validation) then
            (Failed
               (InvalidTemplateVariables
                  ("Invalid template variables: "
                   +:+ join ", "
                         (TemplateValidation.err_message
                            <$> TemplateValidation.errors validation))),
             cache')
          else
            match TemplateRenderer.render turns (content template) variables with
            | Some rendered => (Rendered rendered, cache')
            | None => (Unfinished, cache')
            end
      end
  end.

End ContentManager.

(** ** Specifications *)

Module Spec.
Import JS ContentTypes TemplateRenderer TemplateInheritance.

(** The variables of a merge, in the words of the specification: every parent
    entry in its place, replaced by the child entry of the same name when
    there is one, then the child entries whose name the parent does not
    have. *)
Definition child_named (childVars : list ITemplateVariable) (n : string)
  : option ITemplateVariable :=
  List.find (fun c => String.eqb (var_name c) n) childVars.

Definition overridden (childVars : list ITemplateVariable)
    (p : ITemplateVariable) : ITemplateVariable :=
  default p (child_named childVars (var_name p)).

Definition child_only (parentVars : list ITemplateVariable)
    (c : ITemplateVariable) : bool :=
  negb (mem (var_name c) (var_name <$> parentVars)).

Definition mergeVariables_spec (parentVars childVars : list ITemplateVariable)
  : list ITemplateVariable :=
  (overridden childVars <$> parentVars)
  ++ List.filter (child_only parentVars) childVars.

(** Every character of [s] satisfies [f]. *)
Fixpoint all_chars (f : ascii -> bool) (s : string) : bool :=
  match s with
  | "" => true
  | String c s' => f c && all_chars f s'
  end.

(** The values that [getNestedValue] walks into: arrays, plain objects and
    the two prototype objects. *)
Definition is_object (v : value) : bool :=
  match v with
  | VList _ | VMap _ | VProto _ => true
  | _ => false
  end.

(** The names every plain object inherits. *)
Definition inherited_object_keys : list string :=
  "constructor" :: "__proto__" :: object_prototype_methods.

(** [k] turns of the loop of [render], whatever the text becomes. *)
Fixpoint passes (k : nat) (step : string -> option string) (t : string)
  : option string :=
  match k with
  | O => Some t
  | S k' =>
      match step t with
      | None => None
      | Some t' => passes k' step t'
      end
  end.

(** [this_render2] returns whatever [this_render1] returns. *)
Definition below (this_render1 this_render2 : string -> record -> option string)
  : Prop :=
  forall c e out, this_render1 c e = Some out -> this_render2 c e = Some out.

(** An environment whose two values name each other. *)
Definition mutual_env : record :=
  [("a", VStr "{{b}}"); ("b", VStr "{{a}}")].

(** An environment whose value is its own marker. *)
Definition self_env : record := [("a", VStr "{{a}}")].

(** The parent link the resolver follows from [id]: none when the template
    is absent or has no parent. *)
Definition parent_of (getter : TemplateGetter) (id : string) : option string :=
  match getter id with
  | Some t => if truthy (parent t) then parent t else None
  | None => None
  end.

(** A sequence of ids, each the parent of the one before: leaf first. *)
Inductive parent_path (getter : TemplateGetter) : list string -> Prop :=
| path_one id : parent_path getter [id]
| path_cons id p rest :
    parent_of getter id = Some p ->
    parent_path getter (p :: rest) ->
    parent_path getter (id :: p :: rest).

(** What a resolver with an empty cache answers for [id] on a store. *)
Definition resolved_from_store (templates : gmap string ISDLCTemplate)
    (id : string) : outcome ISDLCTemplate :=
  fst (resolveTemplate (chain_fuel templates)
         (resolver ∅ (store_getter templates)) id).

(** A cache that holds only what [resolveTemplate] answers on the store: the
    empty cache is one, and [resolveTemplate] keeps it so. *)
Definition cache_sound (templates cache : gmap string ISDLCTemplate) : Prop :=
  forall id t, cache !! id = Some t ->
               resolved_from_store templates id = Return t.

(** Sample variables and templates for the examples. *)
Definition sample_variable (n : string) (t : variable_type)
  : ITemplateVariable :=
  {| var_name := n; var_description := ""; var_type := t;
     var_required := true; var_default := None; var_validation := None |}.

Definition sample_template (i c : string) (p : option string)
  : ISDLCTemplate :=
  {| id := i; name := i; category := Document; phase := None;
     version := "1.0.0"; description := None; variables := None;
     content := c; parent := p; tags := None |}.

(** The store of scenario 5: [id1] and [id2] name each other as parent. *)
Definition cyclic_store : gmap string ISDLCTemplate :=
  <["id1" := sample_template "id1" "ONE" (Some "id2")]>
    (<["id2" := sample_template "id2" "TWO" (Some "id1")]> ∅).

(** A store of three generations. *)
Definition family_store : gmap string ISDLCTemplate :=
  <["base" := sample_template "base" "BASE" None]>
    (<["child" := sample_template "child"
                    ("{{> parent}}" +:+ String "010" "EXTRA") (Some "base")]>
       (<["grandchild" := sample_template "grandchild" "[{{>parent}}]"
                            (Some "child")]> ∅)).

End Spec.

(** ** Samples and relations for the validation and the manager *)

Module Samples.
Import JS ContentTypes TemplateValidation Spec.

(** Two errors about the same path, of the same type: the messages of the
    two validations differ in their wording. *)
Definition same_report (e1 e2 : IValidationError) : Prop :=
  err_path e1 = err_path e2 /\ err_type e1 = err_type e2.

(** An environment of data: no object holds a key twice, no key holds a
    dot, and no key holds the undefined value, at any depth. *)
Fixpoint well_keyed (v : value) : Prop :=
  match v with
  | VMap fields =>
      NoDup (fst <$> fields)
      /\ (fix each (l : list (string * value)) : Prop :=
            match l with
            | [] => True
            | (k, v') :: rest =>
                all_chars (fun c => negb (Ascii.eqb c ".")) k = true
                /\ v' <> VUndefined /\ well_keyed v' /\ each rest
            end) fields
  | _ => True
  end.

(** A host whose dates never parse and whose only pattern accepts
    everything; any other pattern does not compile. *)
Definition sample_host : Host :=
  {| Date_parse := fun _ => NaN;
     RegExp_test := fun p _ => if String.eqb p ".*" then Some true else None |}.

(** A parentless template with one required variable. *)
Definition greeting : ISDLCTemplate :=
  {| id := "greeting"; name := "greeting"; category := Document;
     phase := None; version := "1.0.0"; description := None;
     variables := Some [sample_variable "name" TString];
     content := "Hi {{name}}"; parent := None; tags := None |}.

Definition greeting_store : gmap string ISDLCTemplate :=
  <["greeting" := greeting]> ∅.

(** A definition whose pattern does not compile on [sample_host]. *)
Definition checked_variable : ITemplateVariable :=
  {| var_name := "code"; var_description := ""; var_type := TString;
     var_required := false; var_default := None;
     var_validation :=
       Some {| pattern := Some "("; min := None; max := None;
               enum := None; custom := None |} |}.

Definition checked : ISDLCTemplate :=
  {| id := "checked"; name := "checked"; category := Document;
     phase := None; version := "1.0.0"; description := None;
     variables := Some [checked_variable];
     content := "{{code}}"; parent := None; tags := None |}.

(** A template with variables and tags, and a store of a parent and its
    child. *)
Definition declared (i : string) (p : option string)
    (vars : list ITemplateVariable) (labels : list string) : ISDLCTemplate :=
  {| id := i; name := i; category := Document; phase := None;
     version := "1.0.0"; description := None; variables := Some vars;
     content := "{{> parent}}"; parent := p; tags := Some labels |}.

Definition declared_store : gmap string ISDLCTemplate :=
  <["plan" := declared "plan" None [sample_variable "owner" TString]
                ["planning"]]>
    (<["sprint" := declared "sprint" (Some "plan")
                     [sample_variable "week" TNumber] ["agile"]]> ∅).

End Samples.

Import JS ContentTypes TemplateRenderer TemplateInheritance Spec.

(** ** Properties of the JavaScript primitives *)

Section Primitives.

Lemma mem_spec (x : string) (l : list string) : mem x l = true <-> x ∈ l.
Proof.
  unfold mem. rewrite existsb_exists. split.
  - intros (y & Hy & Heq). apply String.eqb_eq in Heq. subst.
    by apply list_elem_of_In.
  - intros Hx. exists x. split; [by apply list_elem_of_In|apply String.eqb_refl].
Qed.

Lemma mem_false (x : string) (l : list string) : mem x l = false <-> x ∉ l.
Proof.
  rewrite <- mem_spec. destruct (mem x l); split; congruence.
Qed.

Lemma append_cons c (s t : string) : String c s +:+ t = String c (s +:+ t).
Proof. reflexivity. Qed.

Lemma append_nil_l (t : string) : "" +:+ t = t.
Proof. reflexivity. Qed.

Lemma append_nil_r (s : string) : s +:+ "" = s.
Proof. induction s as [|c s IH]; [done|]. by rewrite append_cons, IH. Qed.

Lemma length_append (s1 s2 : string) :
  String.length (s1 +:+ s2) = String.length s1 + String.length s2.
Proof.
  induction s1 as [|c s1 IH]; [done|]. rewrite append_cons. simpl.
  by rewrite IH.
Qed.

Lemma path_char_not_space c : is_path_char c = true -> is_space c = false.
Proof. by destruct c as [[] [] [] [] [] [] [] []]. Qed.

Lemma span_all f s rest :
  all_chars f s = true ->
  match rest with String c _ => f c = false | "" => True end ->
  span f (s +:+ rest) = (s, rest).
Proof.
  intros Hs Hrest. induction s as [|c s IH].
  - rewrite append_nil_l. destruct rest as [|c rest]; [done|].
    simpl. by rewrite Hrest.
  - rewrite append_cons. simpl in *.
    apply andb_prop in Hs as [-> Hs]. by rewrite IH.
Qed.

Lemma rev_app_rev_app (s a b : string) :
  String.rev_app (String.rev_app s a) b = String.rev_app a (s +:+ b).
Proof.
  revert a b. induction s as [|c s IH]; intros a b; [done|].
  rewrite append_cons. simpl. by rewrite IH.
Qed.

Lemma rev_involutive (s : string) : String.rev (String.rev s) = s.
Proof.
  unfold String.rev. rewrite rev_app_rev_app. exact (append_nil_r s).
Qed.

Lemma drop_while_rev_app f s a :
  s <> "" -> all_chars (fun c => negb (f c)) s = true ->
  drop_while f (String.rev_app s a) = String.rev_app s a.
Proof.
  revert a. induction s as [|c s IH]; intros a Hne Hs; [done|].
  simpl in *. apply andb_prop in Hs as [Hc Hs].
  destruct s as [|c' s]; [|by apply IH].
  simpl. by apply negb_true_iff in Hc as ->.
Qed.

Lemma all_chars_impl (f g : ascii -> bool) s :
  (forall c, f c = true -> g c = true) ->
  all_chars f s = true -> all_chars g s = true.
Proof.
  intros Hfg. induction s as [|c s IH]; simpl; [done|].
  intros [Hc Hs]%andb_prop. by rewrite (Hfg _ Hc), IH.
Qed.

(** A path is its own trimmed form. *)
Lemma trim_path s : all_chars is_path_char s = true -> trim s = s.
Proof.
  intros Hs. destruct s as [|c s]; [done|].
  assert (Hns : all_chars (fun c => negb (is_space c)) (String c s) = true).
  { revert Hs. apply all_chars_impl. intros c' Hc'.
    by rewrite (path_char_not_space _ Hc'). }
  unfold trim.
  replace (drop_while is_space (String c s)) with (String c s).
  - unfold String.rev at 2. rewrite drop_while_rev_app by done.
    exact (rev_involutive (String c s)).
  - simpl in *. apply andb_prop in Hns as [Hc _].
    by apply negb_true_iff in Hc as ->.
Qed.

Lemma replace_scan_matched {A} (matcher : string -> string -> option (nat * A))
    emit before c s len a :
  matcher before (String c s) = Some (len, a) ->
  replace_scan matcher emit before (String c s) 0
  = emit a +:+ replace_scan matcher emit (before +:+ String c "") s (len - 1).
Proof. intros H. simpl. by rewrite H. Qed.

Lemma replace_scan_skipped {A} (matcher : string -> string -> option (nat * A))
    emit before s skip :
  String.length s <= skip -> replace_scan matcher emit before s skip = "".
Proof.
  revert before skip. induction s as [|c s IH]; intros before skip; [done|].
  simpl. destruct skip as [|skip]; [lia|]. intros H. apply IH. lia.
Qed.

End Primitives.

(** ** The bounds of the scanning loops

    [findMatchingEnd] and [processLoops] scan forward; the number of turns
    the embedding grants them is never what stops them. *)

Section ScanBounds.

Lemma strip_prefix_length p s r :
  strip_prefix p s = Some r ->
  String.length s = String.length p + String.length r.
Proof.
  revert s. induction p as [|a p IH]; intros s; simpl.
  - by intros [= ->].
  - destruct s as [|b s]; [done|]. destruct (Ascii.eqb a b); [|done].
    intros H. simpl. by rewrite (IH _ H).
Qed.

Lemma find_bound pat s i :
  find pat s = Some i -> i + String.length pat <= String.length s.
Proof.
  revert i. induction s as [|c s IH]; intros i; simpl.
  - destruct (strip_prefix pat "") as [r|] eqn:Hp; [|done].
    intros [= <-]. apply strip_prefix_length in Hp. simpl in *. lia.
  - destruct (strip_prefix pat (String c s)) as [r|] eqn:Hp.
    + intros [= <-]. apply strip_prefix_length in Hp. simpl in *. lia.
    + destruct (find pat s) as [j|]; [|done]. intros [= <-].
      specialize (IH j eq_refl). lia.
Qed.

Lemma length_drop n s : String.length (drop n s) = String.length s - n.
Proof.
  revert s. induction n as [|n IH]; intros s; simpl.
  - destruct s; simpl; lia.
  - destruct s as [|c s]; [done|]. by rewrite IH.
Qed.

Lemma indexOf_bound pat s pos i :
  0 < String.length pat ->
  indexOf pat s pos = Some i ->
  pos <= i /\ i + String.length pat <= String.length s.
Proof.
  intros Hpat. unfold indexOf.
  destruct (find pat (drop pos s)) as [j|] eqn:Hfind; [|done].
  intros [= <-]. apply find_bound in Hfind. rewrite length_drop in Hfind. lia.
Qed.

Lemma findMatchingEnd_loop_bound turns text depth pos endPos :
  findMatchingEnd_loop turns text depth pos = Some endPos ->
  pos + 9 <= endPos /\ endPos <= String.length text.
Proof.
  revert depth pos.
  induction turns as [|turns IH]; intros depth pos; simpl; [done|].
  destruct ((0 <? depth) && (pos <? String.length text)); [|done].
  destruct (indexOf "{{/each}}" text pos) as [nextEnd|] eqn:Hend; [|done].
  apply indexOf_bound in Hend as [Hend1 Hend2]; [|simpl; lia]. simpl in Hend2.
  assert (Hclose :
    (if depth - 1 =? 0 then Some (nextEnd + 9)
     else findMatchingEnd_loop turns text (depth - 1) (nextEnd + 9))
    = Some endPos -> pos + 9 <= endPos /\ endPos <= String.length text).
  { destruct (depth - 1 =? 0).
    - intros [= <-]. lia.
    - intros H. apply IH in H. lia. }
  destruct (indexOf "{{#each" text pos) as [nextStart|] eqn:Hstart; [|done].
  apply indexOf_bound in Hstart as [Hstart1 Hstart2]; [|simpl; lia].
  destruct (nextStart <? nextEnd) eqn:Hlt; [|done].
  apply Nat.ltb_lt in Hlt. intros H. apply IH in H. lia.
Qed.

(** One turn more than needed changes nothing. *)
Lemma findMatchingEnd_loop_turns turns text depth pos :
  String.length text < pos + turns ->
  findMatchingEnd_loop (S turns) text depth pos
  = findMatchingEnd_loop turns text depth pos.
Proof.
  revert depth pos. induction turns as [|turns IH]; intros depth pos Hlen.
  - simpl. replace (pos <? String.length text) with false.
    + by rewrite andb_false_r.
    + symmetry. apply Nat.ltb_ge. lia.
  - change (findMatchingEnd_loop (S (S turns)) text depth pos) with
      (if (0 <? depth) && (pos <? String.length text) then
         match indexOf "{{/each}}" text pos with
         | None => None
         | Some nextEnd =>
             match indexOf "{{#each" text pos with
             | Some nextStart =>
                 if nextStart <? nextEnd then
                   findMatchingEnd_loop (S turns) text (depth + 1)
                     (nextStart + 7)
                 else
                   if depth - 1 =? 0 then Some (nextEnd + 9)
                   else findMatchingEnd_loop (S turns) text (depth - 1)
                          (nextEnd + 9)
             | None =>
                 if depth - 1 =? 0 then Some (nextEnd + 9)
                 else findMatchingEnd_loop (S turns) text (depth - 1)
                        (nextEnd + 9)
             end
         end
       else None).
    simpl. destruct ((0 <? depth) && (pos <? String.length text)); [|done].
    destruct (indexOf "{{/each}}" text pos) as [nextEnd|] eqn:Hend; [|done].
    apply indexOf_bound in Hend as [Hend1 _]; [|simpl; lia].
    destruct (indexOf "{{#each" text pos) as [nextStart|] eqn:Hstart.
    + apply indexOf_bound in Hstart as [Hstart1 _]; [|simpl; lia].
      destruct (nextStart <? nextEnd); [apply IH; lia|].
      destruct (depth - 1 =? 0); [done|apply IH; lia].
    + destruct (depth - 1 =? 0); [done|apply IH; lia].
Qed.

Lemma findMatchingEnd_bound text startPos endPos :
  findMatchingEnd text startPos = Some endPos ->
  startPos + 9 <= endPos /\ endPos <= String.length text.
Proof. apply findMatchingEnd_loop_bound. Qed.

Lemma render_items_None this_render content e itemName items result :
  render_items this_render content e itemName items result = None ->
  exists c e', this_render c e' = None.
Proof.
  revert result. induction items as [|item items IH]; intros result; simpl.
  - done.
  - destruct (this_render content (set_field e itemName item)) eqn:Hr; eauto.
Qed.

Lemma processLoops_loop_None this_render turns t e lastPos result :
  lastPos <= String.length t ->
  String.length t < lastPos + turns ->
  processLoops_loop this_render turns t e lastPos result = None ->
  exists c e', this_render c e' = None.
Proof.
  revert lastPos result.
  induction turns as [|turns IH]; intros lastPos result Hpos Hturns; [lia|].
  simpl.
  destruct (indexOf "{{#each" t lastPos) as [startMatch|] eqn:Hstart; [|done].
  apply indexOf_bound in Hstart as [Hs1 Hs2]; [|simpl; lia].
  destruct (indexOf "}}" t startMatch) as [headerEnd|] eqn:Hheader; [|done].
  apply indexOf_bound in Hheader as [Hh1 Hh2]; [|simpl; lia]. simpl in Hh2.
  destruct (match_header _) as [[arrayVar itemName]|].
  2:{ apply IH; lia. }
  destruct (findMatchingEnd t (headerEnd + 2)) as [endPos|] eqn:Hend; [|done].
  apply findMatchingEnd_bound in Hend as [He1 He2].
  destruct (array_items _) as [items|].
  2:{ apply IH; lia. }
  destruct (render_items _ _ _ _ _ _) as [out|] eqn:Hitems.
  - apply IH; lia.
  - intros _. by apply render_items_None in Hitems.
Qed.

(** [processLoops] returns unless one of its calls of [render] does not. *)
Lemma processLoops_None this_render t e :
  processLoops this_render t e = None ->
  exists c e', this_render c e' = None.
Proof. apply processLoops_loop_None; lia. Qed.

(** A turn of the loop of [render] ends unless a recursive call does not. *)
Lemma pass_None this_render e t :
  pass this_render e t = None -> exists c e', this_render c e' = None.
Proof.
  unfold pass. destruct (processLoops this_render t e) eqn:Hloops; [done|].
  intros _. by apply processLoops_None in Hloops.
Qed.

End ScanBounds.

(** ** Truthiness *)

Section Truthiness.


End Truthiness.

(** ** Merging variables *)

Section MergeVariables.

Implicit Types (p c : list ITemplateVariable) (x v : ITemplateVariable).

Lemma mergeVariables_cons p x c :
  mergeVariables p (x :: c) = mergeVariables (merge_step p x) c.
Proof. reflexivity. Qed.

Lemma findIndex_None n p : findIndex n p = None <-> n ∉ var_name <$> p.
Proof.
  induction p as [|v p IH]; simpl.
  - split; [intros _; apply not_elem_of_nil|done].
  - destruct (String.eqb_spec (var_name v) n) as [->|Hne].
    + split; [done|]. intros H. exfalso. apply H. left.
    + rewrite not_elem_of_cons. destruct (findIndex n p); simpl.
      * split; [done|]. intros [_ H]. by apply IH in H.
      * split; [|done]. intros _. split; [congruence|by apply IH].
Qed.

Lemma child_named_None c n : n ∉ var_name <$> c -> child_named c n = None.
Proof.
  unfold child_named. induction c as [|x c IH]; simpl; [done|].
  rewrite not_elem_of_cons. intros [Hne Hn].
  destruct (String.eqb_spec (var_name x) n); [congruence|auto].
Qed.

Lemma overridden_fresh c x : var_name x ∉ var_name <$> c -> overridden c x = x.
Proof. intros H. unfold overridden. by rewrite child_named_None. Qed.

Lemma overridden_cons_ne c x v :
  var_name x <> var_name v -> overridden (x :: c) v = overridden c v.
Proof.
  intros Hne. unfold overridden, child_named. simpl.
  by destruct (String.eqb_spec (var_name x) (var_name v)).
Qed.

Lemma overridden_cons_eq c x v :
  var_name x = var_name v -> overridden (x :: c) v = x.
Proof.
  intros Heq. unfold overridden, child_named. simpl.
  by rewrite Heq, String.eqb_refl.
Qed.

Lemma overridden_cons_fresh c x p :
  var_name x ∉ var_name <$> p ->
  overridden (x :: c) <$> p = overridden c <$> p.
Proof.
  induction p as [|v p IH]; simpl; [done|].
  rewrite not_elem_of_cons. intros [Hne Hn].
  rewrite overridden_cons_ne by done. f_equal. auto.
Qed.

(** Overriding in place is what the specification asks of the entry that
    carries the name of the child entry. *)
Lemma overridden_insert c x p i :
  findIndex (var_name x) p = Some i ->
  NoDup (var_name <$> p) ->
  var_name x ∉ var_name <$> c ->
  overridden c <$> <[i := x]> p = overridden (x :: c) <$> p.
Proof.
  revert i. induction p as [|v p IH]; intros i; simpl; [done|].
  intros Hi Hnd Hx. apply NoDup_cons in Hnd as [Hv Hnd].
  destruct (String.eqb_spec (var_name v) (var_name x)) as [Heq|Hne].
  - injection Hi as <-. simpl.
    rewrite overridden_fresh by done.
    rewrite overridden_cons_eq by done.
    f_equal. symmetry. apply overridden_cons_fresh. by rewrite <- Heq.
  - destruct (findIndex (var_name x) p) as [j|] eqn:Hj; [|done].
    injection Hi as <-. simpl.
    rewrite overridden_cons_ne by done. f_equal. by apply IH.
Qed.

Lemma names_insert p x i :
  findIndex (var_name x) p = Some i ->
  var_name <$> <[i := x]> p = var_name <$> p.
Proof.
  revert i. induction p as [|v p IH]; intros i; simpl; [done|].
  destruct (String.eqb_spec (var_name v) (var_name x)) as [Heq|Hne].
  - intros [= <-]. simpl. by rewrite Heq.
  - destruct (findIndex (var_name x) p) as [j|] eqn:Hj; [|done].
    intros [= <-]. simpl. f_equal. by apply IH.
Qed.

Lemma child_only_names p p' :
  var_name <$> p = var_name <$> p' -> child_only p = child_only p'.
Proof. intros H. unfold child_only. by rewrite H. Qed.

Lemma filter_child_only_snoc p x c :
  var_name x ∉ var_name <$> c ->
  List.filter (child_only (p ++ [x])) c = List.filter (child_only p) c.
Proof.
  induction c as [|y c IH]; simpl; [done|].
  rewrite not_elem_of_cons. intros [Hne Hn].
  rewrite IH by done.
  replace (child_only (p ++ [x]) y) with (child_only p y); [done|].
  unfold child_only. f_equal.
  destruct (mem (var_name y) (var_name <$> p)) eqn:Hm.
  - symmetry. apply mem_spec. apply mem_spec in Hm.
    rewrite fmap_app. apply elem_of_app. by left.
  - symmetry. apply mem_false. apply mem_false in Hm.
    rewrite fmap_app. rewrite elem_of_app. intros [H|H]; [done|].
    simpl in H. apply list_elem_of_singleton in H. congruence.
Qed.

(** C6 (amended): when the names of the parent list are pairwise distinct
    and so are those of the child list, the merged variables are the parent
    entries in their order, each replaced in its place by the child entry of
    the same name when there is one, followed by the child entries whose name
    the parent does not have, in child order. *)
Theorem mergeVariables_distinct_names p c :
  NoDup (var_name <$> p) -> NoDup (var_name <$> c) ->
  mergeVariables p c = mergeVariables_spec p c.
Proof.
  revert p. induction c as [|x c IH]; intros p Hp Hc.
  - unfold mergeVariables, mergeVariables_spec. simpl.
    rewrite app_nil_r. induction p as [|v p IHp]; simpl; [done|].
    apply NoDup_cons in Hp as [_ Hp]. f_equal; auto.
  - simpl in Hc. apply NoDup_cons in Hc as [Hx Hc].
    rewrite mergeVariables_cons. unfold merge_step.
    destruct (findIndex (var_name x) p) as [i|] eqn:Hi.
    + rewrite IH; [|by rewrite names_insert|done].
      unfold mergeVariables_spec.
      rewrite overridden_insert by done.
      rewrite (child_only_names _ p) by by apply names_insert.
      simpl. replace (child_only p x) with false; [done|].
      symmetry. unfold child_only. apply negb_false_iff, mem_spec.
      destruct (decide (var_name x ∈ var_name <$> p)) as [|Hn]; [done|].
      apply findIndex_None in Hn. congruence.
    + apply findIndex_None in Hi.
      rewrite IH; [|rewrite fmap_app; apply NoDup_app; repeat split;
                    [done| |apply NoDup_singleton]|done].
      2:{ intros y Hy Hy'. apply list_elem_of_singleton in Hy'. by subst. }
      unfold mergeVariables_spec.
      rewrite fmap_app. simpl. rewrite overridden_fresh by done.
      rewrite overridden_cons_fresh by done.
      rewrite filter_child_only_snoc by done.
      replace (child_only p x) with true.
      * by rewrite <- app_assoc.
      * symmetry. unfold child_only. by apply negb_true_iff, mem_false.
Qed.

Lemma mergeVariables_distinct_names_witness :
  let p := [sample_variable "a" TString; sample_variable "b" TNumber] in
  let c := [sample_variable "b" TBoolean; sample_variable "c" TDate] in
  NoDup (var_name <$> p) /\ NoDup (var_name <$> c)
  /\ mergeVariables p c = mergeVariables_spec p c.
Proof.
  intros p c.
  assert (Hp : NoDup (var_name <$> p))
    by (apply (bool_decide_unpack _); vm_compute; exact I).
  assert (Hc : NoDup (var_name <$> c))
    by (apply (bool_decide_unpack _); vm_compute; exact I).
  split; [exact Hp|]. split; [exact Hc|].
  exact (mergeVariables_distinct_names p c Hp Hc).
Defined.

(** C6 as stated fails when a name occurs twice in a list: of two child
    entries of a name that the parent does not have only the second is in the
    result, and of two parent entries of a name only the first is replaced. *)
Lemma mergeVariables_duplicate_names :
  let a1 := sample_variable "a" TString in
  let a2 := sample_variable "a" TNumber in
  let a3 := sample_variable "a" TBoolean in
  mergeVariables [] [a1; a2] = [a2]
  /\ mergeVariables_spec [] [a1; a2] = [a1; a2]
  /\ mergeVariables [a1; a2] [a3] = [a3; a2]
  /\ mergeVariables_spec [a1; a2] [a3] = [a3; a3]
  /\ ~ (forall p c, mergeVariables p c = mergeVariables_spec p c).
Proof.
  repeat split. intros H.
  by specialize (H [] [sample_variable "a" TString; sample_variable "a" TNumber]).
Qed.

End MergeVariables.

(** ** Merging content *)

Section MergeContent.

Lemma get_substitution_plain before matched after replacement :
  all_chars (fun c => negb (Ascii.eqb c "$")) replacement = true ->
  get_substitution before matched after replacement = replacement.
Proof.
  induction replacement as [|c r IH]; [done|].
  intros [Hc Hr]%andb_prop. apply negb_true_iff, Ascii.eqb_neq in Hc.
  specialize (IH Hr).
  destruct c as [[] [] [] [] [] [] [] []]; try done;
    cbn [get_substitution]; by rewrite IH.
Qed.

(** A parent content without a dollar sign replaces the marker as it is. *)
Lemma mergeContent_plain parentContent :
  all_chars (fun c => negb (Ascii.eqb c "$")) parentContent = true ->
  mergeContent parentContent "{{> parent}}" = parentContent.
Proof.
  intros Hplain. unfold mergeContent, replace_all_string, replace_all.
  erewrite replace_scan_matched by reflexivity. cbv beta iota zeta.
  rewrite get_substitution_plain by done.
  rewrite replace_scan_skipped by (simpl; lia). apply append_nil_r.
Qed.

(** C7: the splice marker is replaced through a replacement string, so the
    dollar patterns of the ancestor content are expanded: a parent content
    [cost: $$5] is spliced as [cost: $5], and [$&] as the marker itself.
    Content without a dollar sign is spliced as it is, as in the scenario of
    the specification, and a grandchild receives the merged content of its
    ancestors. *)
Theorem mergeContent_expands_dollar_patterns :
  mergeContent "cost: $$5" "{{> parent}}" = "cost: $5"
  /\ mergeContent "$&" "{{> parent}}" = "{{> parent}}"
  /\ mergeContent "BASE" ("{{> parent}}" +:+ String "010" "EXTRA")
     = "BASE" +:+ String "010" "EXTRA"
  /\ (exists t,
        merge_chain (store_getter family_store)
          ["base"; "child"; "grandchild"] None = Return (Some t)
        /\ content t = "[BASE" +:+ String "010" "EXTRA]").
Proof.
  repeat split.
  eexists. split; [vm_compute; reflexivity|reflexivity].
Qed.

End MergeContent.

(** ** Inheritance chains *)

Section InheritanceChain.

Context (getter : TemplateGetter).

Lemma parent_path_nonempty l : parent_path getter l -> l <> [].
Proof. by destruct 1. Qed.

Lemma parent_path_snoc l a p :
  parent_path getter (l ++ [a]) ->
  parent_of getter a = Some p ->
  parent_path getter ((l ++ [a]) ++ [p]).
Proof.
  induction l as [|x l IH]; simpl; intros H Hp.
  - apply path_cons; [done|apply path_one].
  - destruct l as [|y l]; simpl in *.
    + inversion H; subst. apply path_cons; [done|].
      apply path_cons; [done|apply path_one].
    + inversion H; subst. apply path_cons; [done|]. by apply IH.
Qed.

Lemma parent_path_tail x l :
  parent_path getter (x :: l) -> l <> [] -> parent_path getter l.
Proof. by inversion 1. Qed.

Lemma parent_path_link l1 a b l2 :
  parent_path getter (l1 ++ a :: b :: l2) -> parent_of getter a = Some b.
Proof.
  induction l1 as [|x l1 IH]; simpl; intros H.
  - by inversion H.
  - apply IH. apply (parent_path_tail x); [done|by destruct l1].
Qed.

(** The parent of an id is a function of the id: two paths from the same id
    run together as far as the shorter one goes. *)
Lemma parent_path_comparable l1 l2 :
  parent_path getter l1 -> parent_path getter l2 ->
  head l1 = head l2 -> l1 `prefix_of` l2 \/ l2 `prefix_of` l1.
Proof.
  intros H1. revert l2. induction H1 as [id|id p rest Hp H1 IH]; intros l2 H2.
  - destruct H2 as [id'|id' p' rest' Hp' H2]; simpl; intros [= <-].
    + by left.
    + left. by exists (p' :: rest').
  - destruct H2 as [id'|id' p' rest' Hp' H2]; simpl; intros [= <-].
    + right. by exists (p :: rest).
    + assert (p' = p) as -> by congruence.
      destruct (IH _ H2 eq_refl) as [[k Hk]|[k Hk]].
      * left. exists k. simpl. by rewrite Hk.
      * right. exists k. simpl. by rewrite Hk.
Qed.

(** A path that ends at an id without parent cannot be extended. *)
Lemma parent_path_maximal lc root l :
  parent_of getter root = None ->
  parent_path getter l ->
  (lc ++ [root]) `prefix_of` l -> l = lc ++ [root].
Proof.
  intros Hroot Hl [k ->]. destruct k as [|y k]; [by rewrite app_nil_r|].
  rewrite <- app_assoc in Hl. simpl in Hl.
  apply parent_path_link in Hl. congruence.
Qed.

(** What the loop of [getInheritanceChain] answers, whatever the getter. *)
Lemma getInheritanceChain_loop_spec fuel tid inner cur visited :
  parent_path getter (inner ++ [cur]) ->
  NoDup (inner ++ [cur]) ->
  (forall x, x ∈ visited <-> x ∈ inner ++ [cur]) ->
  match getInheritanceChain_loop fuel getter tid (inner ++ [cur]) visited cur with
  | Return c =>
      (inner ++ [cur]) `prefix_of` c /\ parent_path getter c /\ NoDup c
      /\ exists lc root, c = lc ++ [root] /\ parent_of getter root = None
  | Throw e =>
      exists c p, e = CircularInheritance tid p
        /\ (inner ++ [cur]) `prefix_of` c
        /\ parent_path getter (c ++ [p]) /\ NoDup c /\ p ∈ c
  | OutOfFuel => True
  end.
Proof.
  revert inner cur visited.
  induction fuel as [|fuel IH]; intros inner cur visited Hpath Hnd Hvis;
    simpl; [done|].
  destruct (getter cur) as [t|] eqn:Hget.
  2:{ repeat split; [done..|]. exists inner, cur. split; [done|].
      unfold parent_of. by rewrite Hget. }
  destruct (truthy (parent t)) eqn:Htruthy; simpl.
  2:{ repeat split; [done..|]. exists inner, cur. split; [done|].
      unfold parent_of. by rewrite Hget, Htruthy. }
  destruct (parent t) as [p|] eqn:Hparent; [|done]. simpl.
  assert (Hof : parent_of getter cur = Some p).
  { unfold parent_of. by rewrite Hget, Hparent, Htruthy. }
  case_bool_decide as Hin.
  - exists (inner ++ [cur]), p. repeat split; [done| |done|by apply Hvis].
    by apply parent_path_snoc.
  - assert (Hfresh : p ∉ inner ++ [cur]) by (by rewrite <- Hvis).
    specialize (IH (inner ++ [cur]) p (visited ∪ {[p]})).
    destruct (getInheritanceChain_loop fuel getter tid
                ((inner ++ [cur]) ++ [p]) (visited ∪ {[p]}) p) as [c|e|].
    + destruct IH as ([k Hk] & Hc & Hndc & Hroot).
      * by apply parent_path_snoc.
      * apply NoDup_app. repeat split; [done| |apply NoDup_singleton].
        intros x Hx Hx'. apply list_elem_of_singleton in Hx'. by subst.
      * intros x. rewrite elem_of_union, elem_of_singleton, Hvis.
        rewrite (elem_of_app (inner ++ [cur])), list_elem_of_singleton. done.
      * repeat split; [|done..]. exists ([p] ++ k). by rewrite app_assoc.
    + destruct IH as (c & p' & -> & [k Hk] & Hc & Hndc & Hp').
      * by apply parent_path_snoc.
      * apply NoDup_app. repeat split; [done| |apply NoDup_singleton].
        intros x Hx Hx'. apply list_elem_of_singleton in Hx'. by subst.
      * intros x. rewrite elem_of_union, elem_of_singleton, Hvis.
        rewrite (elem_of_app (inner ++ [cur])), list_elem_of_singleton. done.
      * exists c, p'. repeat split; [|done..].
        exists ([p] ++ k). by rewrite app_assoc.
    + done.
Qed.

End InheritanceChain.

Section FiniteStore.

Context (templates : gmap string ISDLCTemplate).

Lemma distinct_ids_bounded (l : list string) :
  NoDup l -> (forall x, x ∈ l -> is_Some (templates !! x)) ->
  length l <= size templates.
Proof.
  intros Hnd Hin.
  rewrite <- (size_list_to_set (C := gset string) l) by done.
  rewrite <- (size_dom (D := gset string) templates).
  apply subseteq_size. intros x Hx.
  apply elem_of_list_to_set in Hx. apply elem_of_dom. auto.
Qed.

(** On a finite store the loop ends within [chain_fuel] turns. *)
Lemma getInheritanceChain_loop_fuel fuel tid inner cur visited :
  NoDup (inner ++ [cur]) ->
  (forall x, x ∈ inner -> is_Some (templates !! x)) ->
  (forall x, x ∈ visited <-> x ∈ inner ++ [cur]) ->
  size templates < fuel + length inner ->
  getInheritanceChain_loop fuel (store_getter templates) tid
    (inner ++ [cur]) visited cur <> OutOfFuel.
Proof.
  revert inner cur visited.
  induction fuel as [|fuel IH]; intros inner cur visited Hnd Hin Hvis Hsize.
  - exfalso. apply NoDup_app in Hnd as (Hnd & _ & _).
    pose proof (distinct_ids_bounded inner Hnd Hin). simpl in Hsize. lia.
  - simpl. unfold store_getter at 1.
    destruct (templates !! cur) as [t|] eqn:Hget; [|done].
    destruct (truthy (parent t)); simpl; [|done].
    case_bool_decide as Hvisited; [done|].
    set (p := default "" (parent t)) in *.
    apply IH.
    + apply NoDup_app. repeat split; [done| |apply NoDup_singleton].
      intros x Hx Hx'. apply list_elem_of_singleton in Hx'. subst.
      by apply Hvisited, Hvis.
    + intros x. rewrite elem_of_app, list_elem_of_singleton.
      intros [Hx| ->]; [auto|by rewrite Hget].
    + intros x. rewrite elem_of_union, elem_of_singleton, Hvis.
      rewrite (elem_of_app (inner ++ [cur])), list_elem_of_singleton. done.
    + rewrite length_app. simpl. lia.
Qed.

End FiniteStore.

(** ** Resolving a template *)

Section Resolve.

Implicit Types (templates cache : gmap string ISDLCTemplate).

(** On a finite store [getInheritanceChain] answers within [chain_fuel]
    turns: a maximal duplicate-free path from [id], or the cycle error at the
    first id that comes back. *)
Lemma getInheritanceChain_store templates cache id :
  let getter := store_getter templates in
  match getInheritanceChain (chain_fuel templates) (resolver cache getter) id with
  | Return chain =>
      exists c, chain = id :: c /\ parent_path getter chain /\ NoDup chain
        /\ exists lc root, chain = lc ++ [root] /\ parent_of getter root = None
  | Throw e =>
      exists c p, e = CircularInheritance id p
        /\ parent_path getter ((id :: c) ++ [p]) /\ NoDup (id :: c)
        /\ p ∈ id :: c
  | OutOfFuel => False
  end.
Proof.
  intros getter.
  cbv beta iota delta [getInheritanceChain resolver templateGetter].
  assert (Hvis : forall x : string, x ∈ ({[id]} : gset string) <-> x ∈ [] ++ [id]).
  { intros x. simpl. by rewrite elem_of_singleton, list_elem_of_singleton. }
  pose proof (getInheritanceChain_loop_spec getter (chain_fuel templates) id
                [] id {[id]} (path_one _ _) (NoDup_singleton _) Hvis) as Hspec.
  pose proof (getInheritanceChain_loop_fuel templates (chain_fuel templates) id
                [] id {[id]} (NoDup_singleton _)
                ltac:(intros x Hx; by apply elem_of_nil in Hx) Hvis
                ltac:(unfold chain_fuel; simpl; lia)) as Hfuel.
  fold getter in Hfuel. simpl app in *.
  destruct (getInheritanceChain_loop (chain_fuel templates) getter id [id]
              {[id]} id) as [chain|e|]; [| |done].
  - destruct Hspec as (Hpre & Hpath & Hnd & Hroot).
    destruct Hpre as [k ->]. by exists k.
  - destruct Hspec as (c & p & -> & Hpre & Hpath & Hnd & Hp).
    destruct Hpre as [k ->]. by exists k, p.
Qed.

Lemma resolveTemplate_with_parent fuel cache (getter : TemplateGetter) tid leaf :
  cache !! tid = None ->
  getter tid = Some leaf ->
  truthy (parent leaf) = true ->
  resolveTemplate fuel (resolver cache getter) tid
  = match getInheritanceChain fuel (resolver cache getter) tid with
    | OutOfFuel => (OutOfFuel, resolver cache getter)
    | Throw e => (Throw e, resolver cache getter)
    | Return chain =>
        match merge_chain getter (reverse chain) None with
        | OutOfFuel => (OutOfFuel, resolver cache getter)
        | Throw e => (Throw e, resolver cache getter)
        | Return None => (Throw FailedToResolve, resolver cache getter)
        | Return (Some resolved) =>
            (Return resolved, cache_set (resolver cache getter) tid resolved)
        end
    end.
Proof.
  intros Hmiss Hleaf Hparent. unfold resolveTemplate.
  cbv beta iota delta [resolver resolvedCache templateGetter].
  by rewrite Hmiss, Hleaf, Hparent.
Qed.

Lemma resolveTemplate_hit fuel cache (getter : TemplateGetter) tid cached :
  cache !! tid = Some cached ->
  resolveTemplate fuel (resolver cache getter) tid
  = (Return cached, resolver cache getter).
Proof.
  intros Hhit. unfold resolveTemplate.
  cbv beta iota delta [resolver resolvedCache]. by rewrite Hhit.
Qed.

(** On a miss the answer does not depend on what else the cache holds. *)
Lemma resolveTemplate_miss fuel cache (getter : TemplateGetter) tid :
  cache !! tid = None ->
  fst (resolveTemplate fuel (resolver cache getter) tid)
  = fst (resolveTemplate fuel (resolver ∅ getter) tid).
Proof.
  intros Hmiss. unfold resolveTemplate.
  cbv beta iota delta [resolver resolvedCache templateGetter].
  rewrite Hmiss, lookup_empty.
  destruct (getter tid) as [template|]; [|done].
  destruct (truthy (parent template)); [|done]. simpl negb. cbv iota.
  change (getInheritanceChain fuel
            {| resolvedCache := cache; templateGetter := Some getter |} tid)
    with (getInheritanceChain fuel
            {| resolvedCache := ∅; templateGetter := Some getter |} tid).
  destruct (getInheritanceChain _ _ _) as [chain|e|]; [|done..].
  by destruct (merge_chain getter (reverse chain) None) as [[r|]|e|].
Qed.

(** The state [resolveTemplate] leaves: the same, or the answer cached. *)
Lemma resolveTemplate_state fuel cache (getter : TemplateGetter) tid r st' :
  resolveTemplate fuel (resolver cache getter) tid = (r, st') ->
  st' = resolver cache getter
  \/ (cache !! tid = None
      /\ exists t, r = Return t /\ st' = resolver (<[tid := t]> cache) getter).
Proof.
  unfold resolveTemplate.
  cbv beta iota delta [resolver resolvedCache templateGetter].
  destruct (cache !! tid) as [cached|] eqn:Hlookup.
  { intros [= <- <-]. by left. }
  destruct (getter tid) as [template|]; [|intros [= <- <-]; by left].
  destruct (truthy (parent template)); simpl negb; cbv iota.
  2:{ intros [= <- <-]. right. split; [done|]. by exists template. }
  destruct (getInheritanceChain _ _ _) as [chain|e|];
    [|intros [= <- <-]; by left..].
  destruct (merge_chain getter (reverse chain) None) as [[resolved|]|e|];
    [|intros [= <- <-]; by left..].
  intros [= <- <-]. right. split; [done|]. by exists resolved.
Qed.

Lemma cache_sound_empty templates : cache_sound templates ∅.
Proof. intros id t H. by rewrite lookup_empty in H. Qed.

Lemma cache_sound_clearCache templates st :
  cache_sound templates (resolvedCache (clearCache st)).
Proof. apply cache_sound_empty. Qed.

(** [resolveTemplate] keeps the cache sound. *)
Lemma cache_sound_resolveTemplate templates cache tid r st' :
  cache_sound templates cache ->
  resolveTemplate (chain_fuel templates)
    (resolver cache (store_getter templates)) tid = (r, st') ->
  cache_sound templates (resolvedCache st').
Proof.
  intros Hsound Hres.
  pose proof (resolveTemplate_miss (chain_fuel templates) cache
                (store_getter templates) tid) as Hmiss.
  rewrite Hres in Hmiss. simpl in Hmiss.
  apply resolveTemplate_state in Hres as [->|(Hnone & t & -> & ->)]; [done|].
  intros id' t'. simpl. rewrite lookup_insert.
  case_decide as Hid; [|apply Hsound].
  intros [= <-]. subst id'. unfold resolved_from_store. by rewrite <- Hmiss.
Qed.

Lemma NoDup_prefix (l1 l2 : list string) :
  l1 `prefix_of` l2 -> NoDup l2 -> NoDup l1.
Proof. intros [k ->] H. by apply NoDup_app in H as (H & _ & _). Qed.

Lemma cyclic_has_parent (getter : TemplateGetter) id l :
  parent_path getter (id :: l) -> ~ NoDup (id :: l) ->
  exists t, getter id = Some t /\ truthy (parent t) = true.
Proof.
  intros Hpath Hdup. destruct l as [|p l].
  - exfalso. apply Hdup, NoDup_singleton.
  - inversion Hpath as [|? ? ? Hp _]; subst. unfold parent_of in Hp.
    destruct (getter id) as [t|]; [|done]. exists t. split; [done|].
    by destruct (truthy (parent t)).
Qed.

(** C5: on a store where the parent links followed from [id] come back to an
    id already visited, [getInheritanceChain] throws the cycle error for the
    first id that comes back and returns no chain, within a number of turns
    bounded by the size of the store, and so does [resolveTemplate], whose
    cache holds only what it resolved on that store; on a store where they do
    not, [getInheritanceChain] returns the ids from [id] to the root, none of
    them twice. *)
Theorem getInheritanceChain_cycle_or_chain templates cache id :
  let getter := store_getter templates in
  let st := resolver cache getter in
  let fuel := chain_fuel templates in
  ((exists l, parent_path getter (id :: l) /\ ~ NoDup (id :: l)) ->
   exists c p,
     getInheritanceChain fuel st id = Throw (CircularInheritance id p)
     /\ parent_path getter ((id :: c) ++ [p]) /\ NoDup (id :: c)
     /\ p ∈ id :: c
     /\ (cache_sound templates cache ->
         resolveTemplate fuel st id = (Throw (CircularInheritance id p), st)))
  /\ ((forall l, parent_path getter (id :: l) -> NoDup (id :: l)) ->
      exists c root,
        getInheritanceChain fuel st id = Return (id :: c)
        /\ parent_path getter (id :: c) /\ NoDup (id :: c)
        /\ last (id :: c) = Some root /\ parent_of getter root = None).
Proof.
  intros getter st fuel.
  pose proof (getInheritanceChain_store templates cache id) as Hchain.
  cbv zeta in Hchain.
  change (store_getter templates) with getter in Hchain.
  change (resolver cache getter) with st in Hchain.
  change (chain_fuel templates) with fuel in Hchain. split.
  - intros (l & Hl & Hdup).
    destruct (getInheritanceChain fuel st id) as [chain|e|] eqn:Hres; [| |done].
    + exfalso. destruct Hchain as (c & -> & Hpath & Hnd & lc & root & Hc & Hroot).
      destruct (parent_path_comparable getter _ _ Hl Hpath eq_refl) as [Hpre|Hpre].
      * by apply Hdup, (NoDup_prefix _ _ Hpre).
      * rewrite Hc in Hpre.
        apply (parent_path_maximal getter _ _ _ Hroot Hl) in Hpre.
        apply Hdup. by rewrite Hpre, <- Hc.
    + destruct Hchain as (c & p & -> & Hpath & Hnd & Hp).
      exists c, p. repeat split; [done..|].
      intros Hsound. subst st.
      destruct (cyclic_has_parent getter id l Hl Hdup) as (t & Ht & Hparent).
      assert (Hthrow : forall cache',
        cache' !! id = None ->
        resolveTemplate fuel (resolver cache' getter) id
        = (Throw (CircularInheritance id p), resolver cache' getter)).
      { intros cache' Hmiss.
        rewrite (resolveTemplate_with_parent _ _ _ _ t) by done.
        change (getInheritanceChain fuel (resolver cache' getter) id)
          with (getInheritanceChain fuel (resolver cache getter) id).
        by rewrite Hres. }
      destruct (cache !! id) as [cached|] eqn:Hlookup; [|by apply Hthrow].
      apply Hsound in Hlookup. unfold resolved_from_store in Hlookup.
      fold getter fuel in Hlookup.
      by rewrite (Hthrow ∅ (lookup_empty _)) in Hlookup.
  - intros Hacyclic.
    destruct (getInheritanceChain fuel st id) as [chain|e|] eqn:Hres; [| |done].
    + destruct Hchain as (c & -> & Hpath & Hnd & lc & root & Hc & Hroot).
      exists c, root. repeat split; [done..| |done].
      rewrite Hc. apply last_snoc.
    + exfalso. destruct Hchain as (c & p & -> & Hpath & Hnd & Hp).
      specialize (Hacyclic (c ++ [p]) Hpath).
      change (NoDup ((id :: c) ++ [p])) in Hacyclic.
      apply NoDup_app in Hacyclic as (_ & Hdisj & _).
      apply (Hdisj p Hp). apply list_elem_of_singleton. done.
Qed.

Lemma getInheritanceChain_cycle_or_chain_witness :
  (exists c p,
     getInheritanceChain (chain_fuel cyclic_store)
       (resolver ∅ (store_getter cyclic_store)) "id1"
     = Throw (CircularInheritance "id1" p)
     /\ parent_path (store_getter cyclic_store) (("id1" :: c) ++ [p])
     /\ NoDup ("id1" :: c) /\ p ∈ "id1" :: c
     /\ (cache_sound cyclic_store ∅ ->
         resolveTemplate (chain_fuel cyclic_store)
           (resolver ∅ (store_getter cyclic_store)) "id1"
         = (Throw (CircularInheritance "id1" p),
            resolver ∅ (store_getter cyclic_store))))
  /\ getInheritanceChain (chain_fuel cyclic_store)
       (resolver ∅ (store_getter cyclic_store)) "id1"
     = Throw (CircularInheritance "id1" "id1").
Proof.
  split; [|reflexivity].
  apply (proj1 (getInheritanceChain_cycle_or_chain cyclic_store ∅ "id1")).
  exists ["id2"; "id1"]. split.
  - apply path_cons; [reflexivity|].
    apply path_cons; [reflexivity|apply path_one].
  - intros H. apply NoDup_cons in H as [H _]. apply H.
    right. left.
Defined.

Lemma merge_chain_last (getter : TemplateGetter) ids idl leaf resolved t :
  getter idl = Some leaf ->
  merge_chain getter (ids ++ [idl]) resolved = Return (Some t) ->
  t = leaf \/ exists r, t = mergeTemplates r leaf.
Proof.
  intros Hleaf. revert resolved.
  induction ids as [|x ids IH]; intros resolved; simpl.
  - rewrite Hleaf. destruct resolved as [r|]; intros [= <-]; eauto.
  - destruct (getter x) as [current|]; [|done].
    destruct resolved as [r|]; apply IH.
Qed.

Lemma merge_chain_returns (getter : TemplateGetter) ids resolved :
  (forall x, x ∈ ids -> is_Some (getter x)) ->
  ids <> [] \/ is_Some resolved ->
  exists t, merge_chain getter ids resolved = Return (Some t).
Proof.
  revert resolved. induction ids as [|x ids IH]; intros resolved Hin Hne; simpl.
  - destruct Hne as [?|[t ->]]; [done|eauto].
  - destruct (Hin x) as [current ->]; [left|].
    destruct resolved as [r|]; apply IH; eauto;
      intros y Hy; apply Hin; by right.
Qed.

Lemma mergeTemplates_child_fields p c :
  parent (mergeTemplates p c) = parent c
  /\ id (mergeTemplates p c) = id c
  /\ name (mergeTemplates p c) = name c
  /\ category (mergeTemplates p c) = category c
  /\ version (mergeTemplates p c) = version c
  /\ (forall d, description c = Some d ->
                description (mergeTemplates p c) = Some d).
Proof.
  unfold mergeTemplates.
  destruct (truthy (phase p) || truthy (phase c)); simpl;
    repeat split; by intros d ->.
Qed.

Lemma parent_path_present (getter : TemplateGetter) l x :
  parent_path getter l -> x ∈ l -> Some x <> last l -> is_Some (getter x).
Proof.
  induction 1 as [id|id p rest Hp Hpath IH]; intros Hx Hlast.
  - apply list_elem_of_singleton in Hx. by subst.
  - apply elem_of_cons in Hx as [->|Hx].
    + unfold parent_of in Hp. by destruct (getter id).
    + apply IH; [done|]. by rewrite last_cons_cons in Hlast.
Qed.

Lemma resolveTemplate_miss_leaf templates cache tid leaf t st' :
  cache !! tid = None ->
  templates !! tid = Some leaf ->
  truthy (parent leaf) = true ->
  resolveTemplate (chain_fuel templates)
    (resolver cache (store_getter templates)) tid = (Return t, st') ->
  (t = leaf \/ exists r, t = mergeTemplates r leaf)
  /\ resolvedCache st' !! tid = Some t.
Proof.
  intros Hmiss Hleaf Hparent.
  rewrite (resolveTemplate_with_parent _ _ _ _ leaf) by done.
  pose proof (getInheritanceChain_store templates cache tid) as Hchain.
  cbv zeta in Hchain.
  destruct (getInheritanceChain (chain_fuel templates)
              (resolver cache (store_getter templates)) tid)
    as [chain|e|]; [|done..].
  destruct Hchain as (c & -> & _).
  destruct (merge_chain (store_getter templates) (reverse (tid :: c)) None)
    as [[resolved|]|e|] eqn:Hmerge; [|done..].
  intros [= <- <-]. rewrite reverse_cons in Hmerge.
  apply (merge_chain_last _ _ _ leaf) in Hmerge; [|done].
  split; [done|]. apply lookup_insert_eq.
Qed.

Lemma leaf_fields leaf t :
  t = leaf \/ (exists r, t = mergeTemplates r leaf) ->
  parent t = parent leaf /\ id t = id leaf /\ name t = name leaf
  /\ category t = category leaf /\ version t = version leaf
  /\ (forall d, description leaf = Some d -> description t = Some d).
Proof.
  intros [->|[r ->]]; [done|]. apply mergeTemplates_child_fields.
Qed.

(** C10: [mergeTemplates] gives the merged template the parent id of the
    child, the id, name, category and version of the child, and the
    description of the child when the child has one; so the template that
    [resolveTemplate] returns for an id that has a parent carries the parent
    id of that template and its scalar fields, and is what the cache then
    holds; and [resolveTemplate] does return one when the parent links from
    the id reach, without a cycle, a root that the store holds. *)
Theorem resolveTemplate_keeps_leaf_parent :
  (forall p c,
     parent (mergeTemplates p c) = parent c
     /\ id (mergeTemplates p c) = id c
     /\ name (mergeTemplates p c) = name c
     /\ category (mergeTemplates p c) = category c
     /\ version (mergeTemplates p c) = version c
     /\ (forall d, description c = Some d ->
                   description (mergeTemplates p c) = Some d))
  /\ (forall templates cache tid leaf t st',
        cache_sound templates cache ->
        templates !! tid = Some leaf ->
        truthy (parent leaf) = true ->
        resolveTemplate (chain_fuel templates)
          (resolver cache (store_getter templates)) tid = (Return t, st') ->
        parent t = parent leaf /\ id t = id leaf /\ name t = name leaf
        /\ category t = category leaf /\ version t = version leaf
        /\ (forall d, description leaf = Some d -> description t = Some d)
        /\ resolvedCache st' !! tid = Some t
        /\ cache_sound templates (resolvedCache st'))
  /\ (forall templates cache tid leaf,
        templates !! tid = Some leaf ->
        truthy (parent leaf) = true ->
        (forall l, parent_path (store_getter templates) (tid :: l) ->
                   NoDup (tid :: l)
                   /\ forall x, x ∈ l -> is_Some (templates !! x)) ->
        exists t st',
          resolveTemplate (chain_fuel templates)
            (resolver cache (store_getter templates)) tid = (Return t, st')).
Proof.
  split; [exact mergeTemplates_child_fields|]. split.
  - intros templates cache tid leaf t st' Hsound Hleaf Hparent Hres.
    pose proof (cache_sound_resolveTemplate _ _ _ _ _ Hsound Hres) as Hsound'.
    destruct (cache !! tid) as [cached|] eqn:Hlookup.
    + rewrite (resolveTemplate_hit _ _ _ _ _ Hlookup) in Hres.
      injection Hres as <- <-.
      apply Hsound in Hlookup as Hstore. unfold resolved_from_store in Hstore.
      destruct (resolveTemplate (chain_fuel templates)
                  (resolver ∅ (store_getter templates)) tid)
        as [r st0] eqn:Hres0.
      simpl in Hstore. subst r.
      apply (resolveTemplate_miss_leaf _ _ _ leaf) in Hres0 as [Ht _];
        [|apply lookup_empty|done..].
      destruct (leaf_fields leaf cached Ht) as (?&?&?&?&?&?). done.
    + apply (resolveTemplate_miss_leaf _ _ _ leaf) in Hres as [Ht Hcache];
        [|done..].
      destruct (leaf_fields leaf t Ht) as (?&?&?&?&?&?). done.
  - intros templates cache tid leaf Hleaf Hparent Hacyclic.
    destruct (cache !! tid) as [cached|] eqn:Hlookup.
    { rewrite (resolveTemplate_hit _ _ _ _ _ Hlookup). eauto. }
    rewrite (resolveTemplate_with_parent _ _ _ _ leaf) by done.
    pose proof (getInheritanceChain_store templates cache tid) as Hchain.
    cbv zeta in Hchain.
    destruct (getInheritanceChain (chain_fuel templates)
                (resolver cache (store_getter templates)) tid)
      as [chain|e|]; [| |done].
    + destruct Hchain as (c & -> & Hpath & _).
      destruct (merge_chain_returns (store_getter templates)
                  (reverse (tid :: c)) None) as [t ->]; [| |eauto].
      * intros x Hx. apply elem_of_reverse, elem_of_cons in Hx as [->|Hx].
        -- unfold store_getter. by rewrite Hleaf.
        -- by apply (Hacyclic c Hpath).
      * left. rewrite reverse_cons. by destruct (reverse c).
    + exfalso. destruct Hchain as (c & p & -> & Hpath & Hnd & Hp).
      destruct (Hacyclic (c ++ [p]) Hpath) as [Hnd' _].
      change (NoDup ((tid :: c) ++ [p])) in Hnd'.
      apply NoDup_app in Hnd' as (_ & Hdisj & _).
      apply (Hdisj p Hp). by apply list_elem_of_singleton.
Qed.

Lemma resolveTemplate_keeps_leaf_parent_witness :
  exists t st',
    resolveTemplate (chain_fuel family_store)
      (resolver ∅ (store_getter family_store)) "grandchild" = (Return t, st')
    /\ parent t = Some "child" /\ id t = "grandchild"
    /\ resolvedCache st' !! "grandchild" = Some t.
Proof.
  destruct (resolveTemplate (chain_fuel family_store)
              (resolver ∅ (store_getter family_store)) "grandchild")
    as [r st'] eqn:Hres.
  assert (Hret : exists t, r = Return t).
  { vm_compute in Hres. injection Hres as <- _. eauto. }
  destruct Hret as [t ->]. exists t, st'. split; [reflexivity|].
  destruct (proj1 (proj2 resolveTemplate_keeps_leaf_parent)
              family_store ∅ "grandchild"
              (sample_template "grandchild" "[{{>parent}}]" (Some "child"))
              t st' (cache_sound_empty _) eq_refl eq_refl Hres)
    as (Hp & Hid & _ & _ & _ & _ & Hcache & _).
  auto.
Defined.

End Resolve.

(** ** The loop of [render] *)

Section RenderLoop.

Implicit Types (step : string -> option string)
  (this_render : string -> record -> option string).

Lemma render_items_mono r1 r2 content e itemName items result out :
  below r1 r2 ->
  render_items r1 content e itemName items result = Some out ->
  render_items r2 content e itemName items result = Some out.
Proof.
  intros Hle. revert result.
  induction items as [|item items IH]; intros result; simpl; [done|].
  destruct (r1 content (set_field e itemName item)) as [o|] eqn:Hr1; [|done].
  rewrite (Hle _ _ _ Hr1). apply IH.
Qed.

Lemma processLoops_loop_mono r1 r2 turns t e lastPos result out :
  below r1 r2 ->
  processLoops_loop r1 turns t e lastPos result = Some out ->
  processLoops_loop r2 turns t e lastPos result = Some out.
Proof.
  intros Hle. revert lastPos result.
  induction turns as [|turns IH]; intros lastPos result; simpl; [done|].
  destruct (indexOf "{{#each" t lastPos) as [startMatch|]; [|done].
  destruct (indexOf "}}" t startMatch) as [headerEnd|]; [|done].
  destruct (match_header _) as [[arrayVar itemName]|]; [|apply IH].
  destruct (findMatchingEnd t (headerEnd + 2)) as [endPos|]; [|done].
  destruct (array_items _) as [items|]; [|apply IH].
  destruct (render_items r1 _ _ _ _ _) as [o|] eqn:Hitems; [|done].
  rewrite (render_items_mono _ _ _ _ _ _ _ _ Hle Hitems). apply IH.
Qed.

Lemma pass_mono r1 r2 e t out :
  below r1 r2 -> pass r1 e t = Some out -> pass r2 e t = Some out.
Proof.
  intros Hle. unfold pass, processLoops.
  destruct (processLoops_loop r1 _ _ _ _ _) as [o|] eqn:Hloops; [|done].
  by rewrite (processLoops_loop_mono _ _ _ _ _ _ _ _ Hle Hloops).
Qed.

Lemma until_stable_mono n m step1 step2 result previous out :
  (forall x y, step1 x = Some y -> step2 x = Some y) ->
  n <= m ->
  until_stable n step1 result previous = Some out ->
  until_stable m step2 result previous = Some out.
Proof.
  intros Hle. revert m result previous.
  induction n as [|n IH]; intros m result previous Hnm.
  - destruct m; simpl; destruct (String.eqb result previous); done.
  - destruct m as [|m]; [lia|]. simpl.
    destruct (String.eqb result previous); [done|].
    destruct (step1 result) as [r|] eqn:Hstep; [|done].
    rewrite (Hle _ _ Hstep). apply IH. lia.
Qed.

(** More fuel does not change what [render] returns. *)
Lemma render_mono n m t e out :
  n <= m -> render n t e = Some out -> render m t e = Some out.
Proof.
  revert m t e out. induction n as [|n IH]; intros m t e out Hnm; [done|].
  destruct m as [|m]; [lia|]. simpl.
  destruct (until_stable n _ _ _) as [F|] eqn:Hloop; [|done].
  intros [= <-].
  erewrite (until_stable_mono n m); [done| |lia|exact Hloop].
  intros x y. apply pass_mono. intros c e' o. apply IH. lia.
Qed.

(** What [render] returns does not depend on the fuel. *)
Lemma render_deterministic n m t e out1 out2 :
  render n t e = Some out1 -> render m t e = Some out2 -> out1 = out2.
Proof.
  intros H1 H2.
  apply (render_mono n (n `max` m)) in H1; [|lia].
  apply (render_mono m (n `max` m)) in H2; [|lia]. congruence.
Qed.

Lemma stable_text_mono n m t e F :
  n <= m -> stable_text n t e = Some F -> stable_text m t e = Some F.
Proof.
  destruct n as [|n]; [done|]. destruct m as [|m]; [lia|]. simpl.
  intros Hnm. apply until_stable_mono; [|lia].
  intros x y. apply pass_mono. intros c e' o. apply render_mono. lia.
Qed.

Lemma render_stable_text fuel t e :
  render fuel t e = cleanup <$> stable_text fuel t e.
Proof. by destruct fuel. Qed.

Lemma until_stable_step n step result previous :
  until_stable (S n) step result previous
  = if String.eqb result previous then Some result
    else match step result with
         | None => None
         | Some result' => until_stable n step result' result
         end.
Proof. reflexivity. Qed.

Lemma until_stable_same n step x : until_stable n step x x = Some x.
Proof. destruct n; simpl; by rewrite String.eqb_refl. Qed.

Lemma pass_empty this_render e : pass this_render e "" = Some "".
Proof. reflexivity. Qed.

Lemma passes_fixed k step x : step x = Some x -> passes k step x = Some x.
Proof. intros Hx. induction k as [|k IH]; simpl; [done|]. by rewrite Hx. Qed.

(** Where the loop stops: at a text that one more turn leaves as it is,
    unless it never ran. *)
Lemma until_stable_inv n step result previous F :
  until_stable n step result previous = Some F ->
  (result = previous /\ F = result)
  \/ exists k, passes k step result = Some F /\ step F = Some F.
Proof.
  revert result previous.
  induction n as [|n IH]; intros result previous; simpl.
  - destruct (String.eqb_spec result previous); [|done].
    intros [= <-]. by left.
  - destruct (String.eqb_spec result previous) as [->|Hne].
    { intros [= <-]. by left. }
    destruct (step result) as [r|] eqn:Hstep; [|done].
    intros H. right. destruct (IH _ _ H) as [[-> ->]|(k & Hk & HF)].
    + exists 0. done.
    + exists (S k). simpl. by rewrite Hstep.
Qed.

(** The loop stops at the text that [k] turns reach, once one more turn
    leaves that text as it is. *)
Lemma until_stable_passes k step result previous F :
  passes k step result = Some F ->
  step F = Some F ->
  (result = previous -> F = result) ->
  until_stable (S k) step result previous = Some F.
Proof.
  revert result previous.
  induction k as [|k IH]; intros result previous; simpl.
  - intros [= ->] HF Hsame.
    destruct (String.eqb_spec F previous); [done|].
    by rewrite HF, String.eqb_refl.
  - destruct (step result) as [r|] eqn:Hstep; [|done].
    intros Hk HF Hsame.
    destruct (String.eqb_spec result previous) as [Heq|Hne].
    { by rewrite (Hsame Heq). }
    change (until_stable (S k) step r result = Some F).
    apply IH; [done..|].
    intros ->. rewrite passes_fixed in Hk by done. congruence.
Qed.

End RenderLoop.

(** ** Termination of [render] *)

Section RenderTermination.

(** C1 (amended): [render] has no bound on its turns and no failure for a
    text that does not settle.  It returns exactly when some number of turns
    (loops, conditionals, variables) reaches a text that one more turn leaves
    unchanged, and what it returns is that text after the clean-up. *)
Theorem render_returns_iff_settles t e r :
  (exists fuel, render fuel t e = Some r)
  <-> (exists n k F,
         passes k (pass (render n) e) t = Some F
         /\ pass (render n) e F = Some F
         /\ r = cleanup F).
Proof.
  split.
  - intros [[|fuel] Hr]; [done|]. simpl in Hr.
    destruct (until_stable fuel _ _ _) as [F|] eqn:Hloop; [|done].
    injection Hr as <-.
    apply until_stable_inv in Hloop as [[-> ->]|(k & Hk & HF)].
    + exists fuel, 0, "". done.
    + exists fuel, k, F. done.
  - intros (n & k & F & Hk & HF & ->).
    exists (S (S k + n)). rewrite render_stable_text. unfold stable_text.
    erewrite (until_stable_mono (S k) (S k + n) (pass (render n) e)); [done| |lia|].
    + intros x y. apply pass_mono. intros c e' o. apply render_mono. lia.
    + apply until_stable_passes; [done..|].
      intros ->. rewrite passes_fixed in Hk by apply pass_empty. congruence.
Qed.

Lemma render_returns_iff_settles_witness :
  exists fuel,
    render fuel "Hello {{name}}" [("name", VStr "Ann")] = Some "Hello Ann".
Proof.
  apply (proj2 (render_returns_iff_settles _ _ _)).
  exists 1, 1, "Hello Ann". repeat split.
Defined.

Lemma mutual_pass this_render :
  pass this_render mutual_env "{{a}}" = Some "{{b}}"
  /\ pass this_render mutual_env "{{b}}" = Some "{{a}}".
Proof. split; reflexivity. Qed.

Lemma mutual_env_never_settles n this_render :
  until_stable n (pass this_render mutual_env) "{{a}}" "{{b}}" = None
  /\ until_stable n (pass this_render mutual_env) "{{b}}" "{{a}}" = None.
Proof.
  induction n as [|n [IHa IHb]]; [done|].
  destruct (mutual_pass this_render) as [Ha Hb].
  split; rewrite until_stable_step; [rewrite Ha; exact IHb|rewrite Hb; exact IHa].
Qed.

(** C1 as stated fails: there is no bound on the turns, and on the template
    [{{a}}] with [a] and [b] naming each other the text never settles, so
    [render] never returns, whatever the fuel. *)
Lemma render_does_not_return :
  ~ exists fuel out, render fuel "{{a}}" mutual_env = Some out.
Proof.
  intros (fuel & out & H). rewrite render_stable_text in H.
  destruct fuel as [|[|fuel]]; [done..|]. unfold stable_text in H.
  rewrite until_stable_step in H.
  destruct (mutual_pass (render (S fuel))) as [Ha _]. rewrite Ha in H.
  change (cleanup <$> until_stable fuel (pass (render (S fuel)) mutual_env)
                        "{{b}}" "{{a}}" = Some out) in H.
  by rewrite (proj2 (mutual_env_never_settles fuel _)) in H.
Qed.

End RenderTermination.

(** ** Rendering again *)

Section RenderAgain.

(** C8 (amended): when the loop of [render] stops at a text from which the
    clean-up removes nothing, [render] returns that text, and rendering it
    again with the same environment returns it unchanged. *)
Theorem render_idempotent_when_clean fuel t e F :
  stable_text fuel t e = Some F ->
  cleanup F = F ->
  render fuel t e = Some F /\ render fuel F e = Some F.
Proof.
  intros Hstable Hclean. rewrite !render_stable_text, Hstable. simpl.
  rewrite Hclean. split; [done|].
  destruct fuel as [|fuel]; [done|]. simpl in *.
  destruct (String.eqb_spec F "") as [->|Hne].
  { destruct fuel; simpl; by rewrite Hclean. }
  destruct fuel as [|fuel].
  - simpl in Hstable. destruct (String.eqb_spec t ""); congruence.
  - apply until_stable_inv in Hstable as [[-> ->]|(k & _ & HF)]; [done|].
    rewrite until_stable_step.
    destruct (String.eqb_spec F ""); [done|].
    rewrite HF, until_stable_same. simpl. by rewrite Hclean.
Qed.

Lemma render_idempotent_when_clean_witness :
  let e := [("name", VStr "Ann")] in
  stable_text 3 "Hello {{name}}" e = Some "Hello Ann"
  /\ cleanup "Hello Ann" = "Hello Ann"
  /\ render 3 "Hello {{name}}" e = Some "Hello Ann"
  /\ render 3 "Hello Ann" e = Some "Hello Ann".
Proof.
  intros e.
  assert (H1 : stable_text 3 "Hello {{name}}" e = Some "Hello Ann")
    by reflexivity.
  assert (H2 : cleanup "Hello Ann" = "Hello Ann") by reflexivity.
  split; [exact H1|]. split; [exact H2|].
  exact (render_idempotent_when_clean 3 "Hello {{name}}" e "Hello Ann" H1 H2).
Defined.

(** C8 as stated fails: with [a] bound to its own marker the loop stops at
    the template itself, the clean-up removes the inner marker and leaves a
    new one, which a second rendering removes. *)
Lemma render_not_idempotent :
  stable_text 3 "{{{{a}}b}}" self_env = Some "{{{{a}}b}}"
  /\ render 3 "{{{{a}}b}}" self_env = Some "{{b}}"
  /\ render 3 "{{b}}" self_env = Some ""
  /\ ~ (forall fuel t e r r',
          render fuel t e = Some r -> render fuel r e = Some r' -> r' = r).
Proof.
  repeat split.
  intros H. by specialize (H 3 "{{{{a}}b}}" self_env "{{b}}" "" eq_refl eq_refl).
Qed.

End RenderAgain.

(** ** Nested conditionals *)

Section NestedConditionals.

(** C2: the closing marker that [processConditionals] pairs with an opening
    marker is the first one after it, whatever the body holds: on
    [{{#if a}}{{#if b}}X{{/if}}Y{{/if}}] the outer opening is paired with the
    first closing marker and the body is [{{#if b}}X].  With [a] false the
    rendering leaves [Y] and the last closing marker; with [a] true and [b]
    false it leaves nothing, not [Y].  Loops are matched by depth. *)
Theorem conditional_closes_at_first_marker :
  let t := "{{#if a}}{{#if b}}X{{/if}}Y{{/if}}" in
  conditionalPattern "" t = Some (26, ("a", "{{#if b}}X"))
  /\ processConditionals t [("a", VBool false)] = "Y{{/if}}"
  /\ (forall n, render (3 + n) t [("a", VBool false)] = Some "Y{{/if}}")
  /\ (forall n, render (4 + n) t [("a", VBool true); ("b", VBool false)]
                = Some "")
  /\ findMatchingEnd
       "{{#each a as x}}{{#each b as y}}X{{/each}}Y{{/each}}" 16
     = Some 52.
Proof.
  intros t. repeat split.
  - intros n. apply (render_mono 3); [lia|reflexivity].
  - intros n. apply (render_mono 4); [lia|reflexivity].
Qed.

End NestedConditionals.

(** ** Resolving a path *)

Section NestedValue.

Lemma pretty_N_go_not_length x s :
  s <> "length" -> pretty_N_go x s <> "length".
Proof.
  revert s. induction (N.lt_wf_0 x) as [x _ IH]; intros s Hs.
  assert (x = 0 \/ 0 < x)%N as [->|Hx] by lia.
  - by rewrite pretty_N_go_0.
  - rewrite pretty_N_go_step by done. apply IH.
    { by apply N.div_lt. }
    unfold pretty_N_char. by repeat case_match.
Qed.

(** No index of an array is written [length]. *)
Lemma own_index_length items i : own_index items i "length" = None.
Proof.
  revert i. induction items as [|x items IH]; intros i; simpl; [done|].
  destruct (String.eqb_spec (pretty i) "length") as [Heq|_]; [|apply IH].
  exfalso. revert Heq. unfold pretty, pretty_nat, pretty, pretty_N.
  case_decide; [done|]. by apply pretty_N_go_not_length.
Qed.

(** Every index of an array is a property of it. *)
Lemma own_index_lookup (items : list value) k i x :
  items !! i = Some x -> own_index items k (pretty (k + i)) = Some x.
Proof.
  revert k i. induction items as [|y items IH]; intros k i; [done|].
  destruct i as [|i]; simpl.
  - intros [= ->]. by rewrite Nat.add_0_r, String.eqb_refl.
  - intros Hx. destruct (String.eqb_spec (pretty k) (pretty (k + S i))) as [Heq|_].
    + apply (inj pretty) in Heq. lia.
    + replace (k + S i) with (S k + i) by lia. by apply IH.
Qed.

Lemma getNestedValue_parts_undefined parts :
  getNestedValue_parts parts VUndefined = VUndefined.
Proof. by destruct parts. Qed.

Lemma getNestedValue_parts_app parts1 parts2 current :
  getNestedValue_parts (parts1 ++ parts2) current
  = getNestedValue_parts parts2 (getNestedValue_parts parts1 current).
Proof.
  revert current. induction parts1 as [|part parts1 IH]; intros current; [done|].
  simpl. destruct (_ && _); [apply IH|].
  by rewrite getNestedValue_parts_undefined.
Qed.

Lemma getNestedValue_parts_no_property part parts current :
  is_object current = false \/ property current part = None ->
  getNestedValue_parts (part :: parts) current = VUndefined.
Proof.
  intros [Hobj|Hprop]; simpl.
  - destruct current; try done; simpl; by rewrite ?andb_false_r.
  - unfold has_property. rewrite Hprop. by rewrite andb_false_r.
Qed.

Lemma variablePattern_path before path :
  path <> "" -> all_chars is_path_char path = true ->
  variablePattern before ("{{" +:+ path +:+ "}}")
  = Some (4 + String.length path, path).
Proof.
  intros Hne Hpath.
  assert (H1 : strip_prefix "{{" ("{{" +:+ path +:+ "}}")
               = Some (path +:+ "}}")) by reflexivity.
  assert (H2 : span is_space (path +:+ "}}") = ("", path +:+ "}}")).
  { destruct path as [|c path]; [done|]. rewrite append_cons. simpl in *.
    apply andb_prop in Hpath as [Hc _].
    by rewrite (path_char_not_space _ Hc). }
  assert (H3 : span is_path_char (path +:+ "}}") = (path, "}}"))
    by (by apply span_all).
  assert (H4 : String.eqb path "" = false) by (by apply String.eqb_neq).
  unfold variablePattern. rewrite H1. cbn [mbind option_bind].
  rewrite H2, H3, H4. cbn [mbind option_bind span strip_prefix].
  change (Some (2 + String.length ("" +:+ path +:+ "") + 2, "" +:+ path +:+ "")
          = Some (4 + String.length path, path)).
  rewrite append_nil_l, append_nil_r. do 2 f_equal. lia.
Qed.

(** C9 (amended): resolution is a total function of the environment and the
    path.  Its result is the undefined value as soon as the value reached is
    not an object (undefined, null, a boolean, a number, a string) or the
    segment is not a property of it; a key that a mapping does not hold and
    does not inherit is not a property; a list is an object, and its length
    and its indices resolve.  A reference that resolves to undefined is
    replaced by the empty string, as in the scenario of the specification. *)
Theorem getNestedValue_undefined_when_not_a_property :
  (forall obj path before part after,
     split "." path = before ++ part :: after ->
     (let current := getNestedValue_parts before (VMap obj) in
      is_object current = false \/ property current part = None) ->
     getNestedValue obj path = VUndefined)
  /\ (forall fields key,
        own_field fields key = None ->
        mem key inherited_object_keys = false ->
        property (VMap fields) key = None)
  /\ (forall items,
        property (VList items) "length"
        = Some (VNum (Int (Z.of_nat (length items)))))
  /\ (forall (items : list value) i x,
        items !! i = Some x -> property (VList items) (pretty i) = Some x)
  /\ (forall obj path,
        path <> "" -> all_chars is_path_char path = true ->
        getNestedValue obj path = VUndefined ->
        processVariables ("{{" +:+ path +:+ "}}") obj = "")
  /\ (forall n,
        render (3 + n) "Hi {{name}}, id {{id}}" [("name", VStr "Jo")]
        = Some "Hi Jo, id ").
Proof.
  split; [|split; [|split; [|split; [|split]]]].
  - intros obj path before part after Hsplit Hstep.
    unfold getNestedValue. rewrite Hsplit, getNestedValue_parts_app.
    by apply getNestedValue_parts_no_property.
  - intros fields key Hown Hkey. simpl. rewrite Hown.
    unfold object_prototype_get. unfold inherited_object_keys in Hkey.
    simpl in Hkey. apply orb_false_elim in Hkey as [-> Hkey].
    apply orb_false_elim in Hkey as [-> Hkey].
    unfold mem. simpl. by rewrite Hkey.
  - intros items. simpl.
    by rewrite own_index_length.
  - intros items i x Hx. simpl.
    pose proof (own_index_lookup items 0 i x Hx) as Hidx.
    simpl in Hidx. by rewrite Hidx.
  - intros obj path Hne Hpath Hundef. unfold processVariables, replace_all.
    change ("{{" +:+ path +:+ "}}") with (String "{" ("{" +:+ path +:+ "}}")).
    erewrite replace_scan_matched
      by exact (variablePattern_path "" path Hne Hpath).
    rewrite trim_path, Hundef by done. rewrite append_nil_l.
    apply replace_scan_skipped. rewrite append_cons. simpl.
    rewrite !length_append. simpl. lia.
  - intros n. apply (render_mono 3); [lia|reflexivity].
Qed.

Lemma getNestedValue_undefined_when_not_a_property_witness :
  let obj := [("name", VStr "Jo")] in
  split "." "id" = [] ++ "id" :: []
  /\ property (getNestedValue_parts [] (VMap obj)) "id" = None
  /\ getNestedValue obj "id" = VUndefined
  /\ processVariables "{{id}}" obj = "".
Proof.
  intros obj.
  pose proof getNestedValue_undefined_when_not_a_property
    as (Hresolve & _ & _ & _ & Hsubst & _).
  assert (Hsplit : split "." "id" = [] ++ "id" :: []) by reflexivity.
  assert (Hprop : property (getNestedValue_parts [] (VMap obj)) "id" = None)
    by reflexivity.
  assert (Hundef : getNestedValue obj "id" = VUndefined)
    by exact (Hresolve obj "id" [] "id" [] Hsplit (or_intror Hprop)).
  split; [exact Hsplit|]. split; [exact Hprop|]. split; [exact Hundef|].
  apply (Hsubst obj "id"); [discriminate|reflexivity|exact Hundef].
Defined.

(** C9 as stated fails when the value reached is a list: a list is not a
    mapping, yet its indices and its length resolve. *)
Lemma getNestedValue_walks_into_lists :
  let obj := [("xs", VList [VStr "a"])] in
  getNestedValue_parts ["xs"] (VMap obj) = VList [VStr "a"]
  /\ getNestedValue obj "xs.0" = VStr "a"
  /\ getNestedValue obj "xs.length" = VNum (Int 1)
  /\ getNestedValue obj "xs.0" <> VUndefined.
Proof. repeat split. discriminate. Qed.

End NestedValue.

(** ** Extracting variables *)

Section ExtractVariables.

Lemma set_add_elem matches x y :
  y ∈ set_add matches x <-> y ∈ matches \/ y = x.
Proof.
  unfold set_add. destruct (mem x matches) eqn:Hmem.
  - apply mem_spec in Hmem. split; [by left|]. by intros [?| ->].
  - rewrite elem_of_app, list_elem_of_singleton. done.
Qed.

Lemma set_add_NoDup matches x : NoDup matches -> NoDup (set_add matches x).
Proof.
  intros Hnd. unfold set_add. destruct (mem x matches) eqn:Hmem; [done|].
  apply mem_false in Hmem. apply NoDup_app. repeat split; [done| |].
  - intros y Hy Hy'. apply list_elem_of_singleton in Hy'. by subst.
  - apply NoDup_singleton.
Qed.

Lemma fold_set_add_elem l matches y :
  y ∈ fold_left set_add l matches <-> y ∈ matches \/ y ∈ l.
Proof.
  revert matches. induction l as [|x l IH]; intros matches; simpl.
  - split; [by left|]. intros [?|H]; [done|]. by apply elem_of_nil in H.
  - rewrite IH, set_add_elem, elem_of_cons. tauto.
Qed.

Lemma fold_set_add_NoDup l matches :
  NoDup matches -> NoDup (fold_left set_add l matches).
Proof.
  revert matches. induction l as [|x l IH]; intros matches Hnd; [done|].
  simpl. by apply IH, set_add_NoDup.
Qed.

(** On names that are pairwise distinct the [Map] of [extractVariables]
    receives one definition for each, in order. *)
Lemma fold_define_variable l variables :
  NoDup l -> (forall x, x ∈ l -> x ∉ fst <$> variables) ->
  fold_left define_variable l variables
  = variables ++ ((fun n => (n, extracted n)) <$> l).
Proof.
  revert variables. induction l as [|x l IH]; intros variables Hnd Hfresh.
  - by rewrite app_nil_r.
  - simpl. apply NoDup_cons in Hnd as [Hx Hnd].
    unfold define_variable at 2.
    replace (mem x (fst <$> variables)) with false.
    2:{ symmetry. apply mem_false, Hfresh. left. }
    rewrite IH; [by rewrite <- app_assoc|done|].
    intros y Hy. rewrite fmap_app, elem_of_app. simpl.
    rewrite list_elem_of_singleton. intros [Hin| ->]; [|done].
    revert Hin. apply Hfresh. by right.
Qed.

Lemma extractVariables_matches t :
  extractVariables t
  = extracted
      <$> fold_left set_add
            (variable_matches t ++ conditional_matches t ++ loop_matches t) [].
Proof.
  unfold extractVariables. rewrite !fold_left_app.
  set (matches := fold_left set_add (loop_matches t) _).
  rewrite fold_define_variable.
  - simpl. rewrite <- list_fmap_compose. done.
  - repeat apply fold_set_add_NoDup. apply NoDup_nil_2.
  - intros x _. simpl. apply not_elem_of_nil.
Qed.

(** C3: the conditional scan and the loop scan of [extractVariables] go on
    after the first closing marker of a block they have matched, so a block
    of the same kind inside it is not scanned: the condition [b] of
    [{{#if a}}{{#if b}}X{{/if}}{{/if}}] is not returned, although [render]
    reads it (the text is [X] or nothing with [b]), and the source [zs] of a
    loop inside a loop is not returned, although [render] walks it.  The
    same function does return a reference inside a block and the source of a
    loop inside a conditional.  The item name of a loop is not taken from
    its header, and is returned when the body refers to it. *)
Theorem extractVariables_misses_nested_blocks :
  let nested_if := "{{#if a}}{{#if b}}X{{/if}}{{/if}}" in
  let nested_each :=
    "{{#each xs as x}}{{#each zs as z}}{{z}}{{/each}}{{/each}}" in
  exec_all conditionalPattern nested_if = [("a", "{{#if b}}X")]
  /\ var_name <$> extractVariables nested_if = ["a"]
  /\ (forall n, render (4 + n) nested_if
                  [("a", VBool true); ("b", VBool true)] = Some "X")
  /\ (forall n, render (4 + n) nested_if
                  [("a", VBool true); ("b", VBool false)] = Some "")
  /\ exec_all loopPattern nested_each
     = [("xs", "x", "{{#each zs as z}}{{z}}")]
  /\ var_name <$> extractVariables nested_each = ["z"; "xs"]
  /\ (forall n, render (5 + n) nested_each
                  [("xs", VList [VNull]); ("zs", VList [VStr "1"; VStr "2"])]
                = Some "12")
  /\ var_name <$> extractVariables "{{#if a}}{{b}}{{/if}}" = ["b"; "a"]
  /\ var_name <$> extractVariables "{{#if a}}{{#each zs as z}}-{{/each}}{{/if}}"
     = ["a"; "zs"]
  /\ var_name <$> extractVariables "{{#each xs as x}}-{{/each}}" = ["xs"]
  /\ var_name <$> extractVariables "{{#each xs as x}}{{x}}{{/each}}"
     = ["x"; "xs"].
Proof.
  intros nested_if nested_each.
  split; [reflexivity|]. split; [reflexivity|].
  split; [intros n; apply (render_mono 4); [lia|reflexivity]|].
  split; [intros n; apply (render_mono 4); [lia|reflexivity]|].
  split; [reflexivity|]. split; [reflexivity|].
  split; [intros n; apply (render_mono 5); [lia|reflexivity]|].
  repeat split.
Qed.

End ExtractVariables.

(** ** The tests of the repository and the scenarios of the specification *)

Section RepositoryTests.

Example should_render_simple_variables :
  render 3 "Hello {{name}}, welcome to {{project}}!"
    [("name", VStr "John"); ("project", VStr "MetaGOTHIC")]
  = Some "Hello John, welcome to MetaGOTHIC!".
Proof. reflexivity. Qed.

Example should_render_nested_variables :
  render 3 "User: {{user.name}} ({{user.role}})"
    [("user", VMap [("name", VStr "Jane Doe"); ("role", VStr "Developer")])]
  = Some "User: Jane Doe (Developer)".
Proof. reflexivity. Qed.

Example should_process_conditionals :
  let t := "{{#if premium}}Premium User{{/if}}{{#if regular}}Regular User{{/if}}" in
  render 3 t [("premium", VBool true); ("regular", VBool false)]
  = Some "Premium User"
  /\ render 3 t [("premium", VBool false); ("regular", VBool true)]
     = Some "Regular User".
Proof. split; reflexivity. Qed.

Example should_process_loops :
  render 4 "Items:{{#each items as item}} {{item.name}}{{/each}}"
    [("items", VList [VMap [("name", VStr "Apple")];
                      VMap [("name", VStr "Banana")];
                      VMap [("name", VStr "Cherry")]])]
  = Some "Items: Apple Banana Cherry".
Proof. reflexivity. Qed.

Example should_handle_malformed_variable_syntax :
  render 3 "Hello {{ name } welcome!" [("name", VStr "John")]
  = Some "Hello {{ name } welcome!".
Proof. reflexivity. Qed.

Example should_handle_boolean_conditions_properly :
  let t := "{{#if enabled}}Enabled{{/if}}" in
  render 3 t [("enabled", VBool true)] = Some "Enabled"
  /\ render 3 t [("enabled", VBool false)] = Some ""
  /\ render 3 t [("enabled", VNum (Int 1))] = Some "Enabled"
  /\ render 3 t [("enabled", VNum (Int 0))] = Some ""
  /\ render 3 t [("enabled", VStr "yes")] = Some "Enabled"
  /\ render 3 t [("enabled", VStr "")] = Some ""
  /\ render 3 t [("enabled", VList [])] = Some ""
  /\ render 3 t [("enabled", VList [VStr "item"])] = Some "Enabled".
Proof. repeat split. Qed.

Example should_handle_non_array_values_in_loops :
  render 3 "{{#each items as item}}{{item}}{{/each}}"
    [("items", VStr "not an array")]
  = Some "".
Proof. reflexivity. Qed.

Example should_extract_variables_from_conditionals :
  var_name <$> extractVariables "{{#if isAdmin}}Admin: {{adminName}}{{/if}}"
  = ["adminName"; "isAdmin"].
Proof. reflexivity. Qed.

Example should_extract_unique_variables_only :
  var_name <$> extractVariables "{{name}} - {{name}} - {{name}}" = ["name"].
Proof. reflexivity. Qed.

Example scenario_loop :
  render 4 "{{#each xs as x}}-{{x}}{{/each}}"
    [("xs", VList [VStr "a"; VStr "b"])]
  = Some "-a-b".
Proof. reflexivity. Qed.

Example scenario_parentless :
  fst (resolveTemplate (chain_fuel family_store)
         (resolver ∅ (store_getter family_store)) "base")
  = Return (sample_template "base" "BASE" None).
Proof. reflexivity. Qed.

End RepositoryTests.

(** * Further properties of the code *)

Import ContentManager.

(** ** Tags and variables of a merge *)

Section MergeMore.

Implicit Types (p c m : list ITemplateVariable) (x v : ITemplateVariable).

Lemma fold_set_add_prefix l (matches : list string) :
  matches `prefix_of` fold_left set_add l matches.
Proof.
  revert matches. induction l as [|x l IH]; intros matches; simpl; [done|].
  etrans; [|apply IH]. unfold set_add.
  destruct (mem x matches); [done|]. by exists [x].
Qed.

Lemma fold_set_add_distinct (l : list string) :
  NoDup l -> fold_left set_add l [] = l.
Proof.
  assert (H : forall acc, NoDup (acc ++ l) ->
                          fold_left set_add l acc = acc ++ l).
  { induction l as [|x l IH]; intros acc Hnd; simpl.
    - by rewrite app_nil_r.
    - unfold set_add at 2. replace (mem x acc) with false.
      + rewrite IH; rewrite <- app_assoc; done.
      + symmetry. apply mem_false. apply NoDup_app in Hnd as (_ & Hdisj & _).
        intros Hx. apply (Hdisj x Hx). left. }
  intros Hnd. by apply (H []).
Qed.

(** X1: the tags of a merge are the union of the tags of both sides, each
    once; they start with the parent tags in their order when no parent tag
    is repeated. *)
Theorem mergeTags_union parentTags childTags :
  NoDup (mergeTags parentTags childTags)
  /\ (forall tag, tag ∈ mergeTags parentTags childTags
                  <-> tag ∈ parentTags \/ tag ∈ childTags)
  /\ (NoDup parentTags ->
      parentTags `prefix_of` mergeTags parentTags childTags).
Proof.
  unfold mergeTags. split; [|split].
  - apply fold_set_add_NoDup, NoDup_nil_2.
  - intros tag. rewrite fold_set_add_elem, elem_of_app.
    split; [intros [H|H]; [by apply elem_of_nil in H|done]|by right].
  - intros Hnd. rewrite fold_left_app, (fold_set_add_distinct _ Hnd).
    apply fold_set_add_prefix.
Qed.

Lemma names_merge_step m x :
  var_name <$> merge_step m x = set_add (var_name <$> m) (var_name x).
Proof.
  unfold merge_step, set_add.
  destruct (findIndex (var_name x) m) as [i|] eqn:Hi.
  - rewrite (names_insert _ _ _ Hi). replace (mem _ _) with true; [done|].
    symmetry. apply mem_spec.
    destruct (decide (var_name x ∈ var_name <$> m)) as [|Hn]; [done|].
    apply findIndex_None in Hn. congruence.
  - apply findIndex_None in Hi as Hn. apply mem_false in Hn.
    by rewrite Hn, fmap_app.
Qed.

Lemma names_mergeVariables p c :
  var_name <$> mergeVariables p c
  = fold_left set_add (var_name <$> c) (var_name <$> p).
Proof.
  revert p. induction c as [|x c IH]; intros p; [done|].
  rewrite mergeVariables_cons, IH, names_merge_step. done.
Qed.

(** X2: whatever the two lists, the names of the merged variables are the
    parent names in their order followed by the child names that were not
    there yet, each once in order of first occurrence; so the merged list
    starts with an entry for every parent entry, under the same name, and has
    an entry for the name of every child entry. *)
Theorem mergeVariables_names p c :
  var_name <$> mergeVariables p c
  = fold_left set_add (var_name <$> c) (var_name <$> p)
  /\ (var_name <$> p) `prefix_of` (var_name <$> mergeVariables p c)
  /\ (forall x, x ∈ c -> var_name x ∈ var_name <$> mergeVariables p c)
  /\ length p <= length (mergeVariables p c).
Proof.
  rewrite names_mergeVariables. split; [done|].
  assert (Hpre : (var_name <$> p)
                   `prefix_of` fold_left set_add (var_name <$> c) (var_name <$> p))
    by apply fold_set_add_prefix.
  split; [done|]. split.
  - intros x Hx. apply fold_set_add_elem. right.
    by apply list_elem_of_fmap_2.
  - apply prefix_length in Hpre.
    rewrite <- names_mergeVariables in Hpre. by rewrite !length_fmap in Hpre.
Qed.

Lemma findIndex_lookup n m i :
  findIndex n m = Some i -> exists v, m !! i = Some v /\ var_name v = n.
Proof.
  revert i. induction m as [|v m IH]; intros i; simpl; [done|].
  destruct (String.eqb_spec (var_name v) n) as [Heq|Hne].
  - intros [= <-]. by exists v.
  - destruct (findIndex n m) as [j|]; [|done]. intros [= <-].
    by apply IH.
Qed.

Lemma merge_step_elem m x : x ∈ merge_step m x.
Proof.
  unfold merge_step. destruct (findIndex (var_name x) m) as [i|] eqn:Hi.
  - apply findIndex_lookup in Hi as (v & Hv & _).
    apply list_elem_of_lookup. exists i.
    apply list_lookup_insert_eq. by apply lookup_lt_Some in Hv.
  - apply elem_of_app. right. left.
Qed.

Lemma merge_step_lookup m x i v :
  m !! i = Some v -> var_name x <> var_name v -> merge_step m x !! i = Some v.
Proof.
  intros Hv Hne. unfold merge_step.
  destruct (findIndex (var_name x) m) as [j|] eqn:Hj.
  - apply findIndex_lookup in Hj as (w & Hw & Hname).
    rewrite list_lookup_insert_ne; [done|]. intros ->. congruence.
  - by apply lookup_app_l_Some.
Qed.

Lemma mergeVariables_lookup p c i v :
  p !! i = Some v -> var_name v ∉ var_name <$> c ->
  mergeVariables p c !! i = Some v.
Proof.
  revert p. induction c as [|x c IH]; intros p Hv Hn; [done|].
  simpl in Hn. apply not_elem_of_cons in Hn as [Hne Hn].
  rewrite mergeVariables_cons. apply IH; [|done].
  apply merge_step_lookup; [done|congruence].
Qed.

(** X3: whatever the two lists, a child entry after which the child list has
    no entry of the same name is in the merged list (the child wins, and of
    several child entries of a name the last one), and a parent entry whose
    name no child entry has stays where it was. *)
Theorem mergeVariables_child_wins p c1 x c2 :
  var_name x ∉ var_name <$> c2 ->
  x ∈ mergeVariables p (c1 ++ x :: c2)
  /\ (forall i v, p !! i = Some v ->
                  var_name v ∉ var_name <$> (c1 ++ x :: c2) ->
                  mergeVariables p (c1 ++ x :: c2) !! i = Some v).
Proof.
  intros Hlast. split; [|intros i v; apply mergeVariables_lookup].
  unfold mergeVariables. rewrite fold_left_app. simpl.
  set (m := fold_left merge_step c1 p).
  pose proof (merge_step_elem m x) as Hx.
  apply list_elem_of_lookup in Hx as [i Hi].
  apply list_elem_of_lookup. exists i.
  by apply (mergeVariables_lookup (merge_step m x) c2).
Qed.

Lemma mergeVariables_child_wins_witness :
  let a1 := sample_variable "a" TString in
  let a2 := sample_variable "a" TNumber in
  let b := sample_variable "b" TDate in
  (var_name a2 ∉ var_name <$> [b])
  /\ a2 ∈ mergeVariables [a1] ([a1] ++ a2 :: [b]).
Proof.
  intros a1 a2 b.
  assert (H : var_name a2 ∉ var_name <$> [b]).
  { simpl. intros Hin. apply list_elem_of_singleton in Hin. discriminate. }
  split; [exact H|].
  exact (proj1 (mergeVariables_child_wins [a1] [a1] a2 [b] H)).
Defined.

End MergeMore.

(** ** The cache and the errors of the resolver *)

Section ResolveMore.

Implicit Types (templates cache : gmap string ISDLCTemplate).

(** X4: what [resolveTemplate] has returned for an id it returns again, from
    the cache, without a change of state and whatever the getter answers by
    then: a later change of the store is not seen until the cache is
    cleared. *)
Theorem resolveTemplate_answers_from_cache fuel fuel' st tid t st' getter' :
  resolveTemplate fuel st tid = (Return t, st') ->
  resolveTemplate fuel' st' tid = (Return t, st')
  /\ resolveTemplate fuel' (setTemplateGetter st' getter') tid
     = (Return t, setTemplateGetter st' getter').
Proof.
  intros Hres.
  assert (Hcached : resolvedCache st' !! tid = Some t).
  { revert Hres. unfold resolveTemplate.
    destruct (resolvedCache st !! tid) as [cached|] eqn:Hlookup.
    { by intros [= <- <-]. }
    destruct (templateGetter st) as [getter|]; [|done].
    destruct (getter tid) as [template|]; [|done].
    destruct (truthy (parent template)); simpl negb; cbv iota.
    2:{ intros [= <- <-]. apply lookup_insert_eq. }
    destruct (getInheritanceChain fuel st tid) as [chain|e|]; [|done..].
    destruct (merge_chain getter (reverse chain) None) as [[r|]|e|]; [|done..].
    intros [= <- <-]. apply lookup_insert_eq. }
  split; unfold resolveTemplate; simpl; by rewrite Hcached.
Qed.

Lemma resolveTemplate_answers_from_cache_witness :
  exists t st',
    resolveTemplate (chain_fuel family_store)
      (resolver ∅ (store_getter family_store)) "child" = (Return t, st')
    /\ resolveTemplate 0 (setTemplateGetter st' (store_getter cyclic_store))
         "child"
       = (Return t, setTemplateGetter st' (store_getter cyclic_store)).
Proof.
  destruct (resolveTemplate (chain_fuel family_store)
              (resolver ∅ (store_getter family_store)) "child")
    as [r st'] eqn:Hres.
  assert (Hret : exists t, r = Return t).
  { vm_compute in Hres. injection Hres as <- _. eauto. }
  destruct Hret as [t ->]. exists t, st'. split; [reflexivity|].
  exact (proj2 (resolveTemplate_answers_from_cache _ 0 _ _ _ _
                  (store_getter cyclic_store) Hres)).
Defined.

Lemma resolved_from_store_parentless templates tid t :
  templates !! tid = Some t -> truthy (parent t) = false ->
  resolved_from_store templates tid = Return t.
Proof.
  intros Ht Hparent. unfold resolved_from_store, resolveTemplate.
  cbv beta iota delta [resolver resolvedCache templateGetter].
  rewrite lookup_empty. unfold store_getter at 1. by rewrite Ht, Hparent.
Qed.

Lemma resolved_from_store_absent templates tid :
  templates !! tid = None ->
  resolved_from_store templates tid = Throw (TemplateNotFound tid).
Proof.
  intros Ht. unfold resolved_from_store, resolveTemplate.
  cbv beta iota delta [resolver resolvedCache templateGetter].
  rewrite lookup_empty. unfold store_getter at 1. by rewrite Ht.
Qed.

(** What a sound cache holds for an id is what the store resolves to. *)
Lemma resolveTemplate_sound fuel templates cache tid :
  cache_sound templates cache ->
  fst (resolveTemplate fuel (resolver cache (store_getter templates)) tid)
  = fst (resolveTemplate fuel (resolver ∅ (store_getter templates)) tid)
  \/ exists cached,
       cache !! tid = Some cached
       /\ resolved_from_store templates tid = Return cached
       /\ resolveTemplate fuel (resolver cache (store_getter templates)) tid
          = (Return cached, resolver cache (store_getter templates)).
Proof.
  intros Hsound. destruct (cache !! tid) as [cached|] eqn:Hlookup.
  - right. exists cached. split; [done|]. split; [by apply Hsound|].
    by apply resolveTemplate_hit.
  - left. by apply resolveTemplate_miss.
Qed.

(** X5: a template without parent is returned as the store holds it, with no
    field changed, whatever the fuel, and is then in the cache. *)
Theorem resolveTemplate_parentless fuel templates cache tid t :
  cache_sound templates cache ->
  templates !! tid = Some t ->
  truthy (parent t) = false ->
  exists st',
    resolveTemplate fuel (resolver cache (store_getter templates)) tid
    = (Return t, st')
    /\ resolvedCache st' !! tid = Some t
    /\ templateGetter st' = Some (store_getter templates).
Proof.
  intros Hsound Ht Hparent.
  destruct (cache !! tid) as [cached|] eqn:Hlookup.
  - apply Hsound in Hlookup as Hstore.
    rewrite (resolved_from_store_parentless _ _ _ Ht Hparent) in Hstore.
    injection Hstore as <-.
    exists (resolver cache (store_getter templates)).
    by rewrite (resolveTemplate_hit _ _ _ _ _ Hlookup).
  - exists (cache_set (resolver cache (store_getter templates)) tid t).
    split; [|split; [apply lookup_insert_eq|done]].
    unfold resolveTemplate.
    cbv beta iota delta [resolver resolvedCache templateGetter].
    rewrite Hlookup. unfold store_getter at 1. by rewrite Ht, Hparent.
Qed.

Lemma resolveTemplate_parentless_witness :
  exists st',
    resolveTemplate 0 (resolver ∅ (store_getter family_store)) "base"
    = (Return (sample_template "base" "BASE" None), st')
    /\ resolvedCache st' !! "base" = Some (sample_template "base" "BASE" None)
    /\ templateGetter st' = Some (store_getter family_store).
Proof.
  apply (resolveTemplate_parentless 0 family_store ∅ "base");
    [apply cache_sound_empty|reflexivity|reflexivity].
Defined.

(** X6: for an id that the store does not hold, [resolveTemplate] throws the
    not-found error and leaves the state as it was, while
    [getInheritanceChain] throws nothing and returns the id alone. *)
Theorem resolveTemplate_unknown_id fuel templates cache tid :
  cache_sound templates cache ->
  templates !! tid = None ->
  resolveTemplate fuel (resolver cache (store_getter templates)) tid
  = (Throw (TemplateNotFound tid), resolver cache (store_getter templates))
  /\ getInheritanceChain (S fuel) (resolver cache (store_getter templates)) tid
     = Return [tid].
Proof.
  intros Hsound Ht. split.
  - destruct (cache !! tid) as [cached|] eqn:Hlookup.
    { apply Hsound in Hlookup.
      by rewrite (resolved_from_store_absent _ _ Ht) in Hlookup. }
    unfold resolveTemplate.
    cbv beta iota delta [resolver resolvedCache templateGetter].
    rewrite Hlookup. unfold store_getter at 1. by rewrite Ht.
  - unfold getInheritanceChain.
    cbv beta iota delta [resolver templateGetter]. simpl.
    unfold store_getter at 1. by rewrite Ht.
Qed.

Lemma resolveTemplate_unknown_id_witness :
  resolveTemplate 0 (resolver ∅ (store_getter family_store)) "nobody"
  = (Throw (TemplateNotFound "nobody"),
     resolver ∅ (store_getter family_store))
  /\ getInheritanceChain 1 (resolver ∅ (store_getter family_store)) "nobody"
     = Return ["nobody"].
Proof.
  apply (resolveTemplate_unknown_id 0 family_store ∅ "nobody");
    [apply cache_sound_empty|reflexivity].
Defined.

Lemma merge_chain_missing_root (getter : TemplateGetter) root ids :
  getter root = None ->
  merge_chain getter (root :: ids) None = Throw (ChainTemplateNotFound root).
Proof. intros H. simpl. by rewrite H. Qed.

(** X7: when the parent links from an id end at an id that the store does
    not hold (a parent that was never loaded), [getInheritanceChain] still
    returns the chain, that id last, and [resolveTemplate] throws the error
    that names that id, leaving the state as it was. *)
Theorem resolveTemplate_missing_ancestor templates cache tid leaf chain root :
  cache_sound templates cache ->
  templates !! tid = Some leaf ->
  truthy (parent leaf) = true ->
  getInheritanceChain (chain_fuel templates)
    (resolver cache (store_getter templates)) tid = Return chain ->
  last chain = Some root ->
  templates !! root = None ->
  resolveTemplate (chain_fuel templates)
    (resolver cache (store_getter templates)) tid
  = (Throw (ChainTemplateNotFound root),
     resolver cache (store_getter templates)).
Proof.
  intros Hsound Hleaf Hparent Hchain Hlast Hroot.
  assert (Hrev : exists ids, reverse chain = root :: ids).
  { destruct chain as [|x chain _] using rev_ind; [done|].
    rewrite last_snoc in Hlast. injection Hlast as ->.
    rewrite reverse_snoc. eauto. }
  destruct Hrev as [ids Hrev].
  assert (Hthrow : forall cache',
    cache' !! tid = None ->
    resolveTemplate (chain_fuel templates)
      (resolver cache' (store_getter templates)) tid
    = (Throw (ChainTemplateNotFound root),
       resolver cache' (store_getter templates))).
  { intros cache' Hmiss.
    rewrite (resolveTemplate_with_parent _ _ _ _ leaf) by done.
    change (getInheritanceChain (chain_fuel templates)
              (resolver cache' (store_getter templates)) tid)
      with (getInheritanceChain (chain_fuel templates)
              (resolver cache (store_getter templates)) tid).
    rewrite Hchain, Hrev. by rewrite merge_chain_missing_root. }
  destruct (cache !! tid) as [cached|] eqn:Hlookup; [|by apply Hthrow].
  apply Hsound in Hlookup. unfold resolved_from_store in Hlookup.
  by rewrite (Hthrow ∅ (lookup_empty _)) in Hlookup.
Qed.

Lemma resolveTemplate_missing_ancestor_witness :
  let templates : gmap string ISDLCTemplate :=
    {[ "orphan" := sample_template "orphan" "{{> parent}}" (Some "lost") ]} in
  getInheritanceChain (chain_fuel templates)
    (resolver ∅ (store_getter templates)) "orphan" = Return ["orphan"; "lost"]
  /\ resolveTemplate (chain_fuel templates)
       (resolver ∅ (store_getter templates)) "orphan"
     = (Throw (ChainTemplateNotFound "lost"),
        resolver ∅ (store_getter templates)).
Proof.
  intros templates.
  assert (Hchain : getInheritanceChain (chain_fuel templates)
            (resolver ∅ (store_getter templates)) "orphan"
          = Return ["orphan"; "lost"]) by reflexivity.
  split; [exact Hchain|].
  apply (resolveTemplate_missing_ancestor templates ∅ "orphan"
           (sample_template "orphan" "{{> parent}}" (Some "lost"))
           ["orphan"; "lost"] "lost");
    [apply cache_sound_empty|reflexivity|reflexivity|exact Hchain
    |reflexivity|reflexivity].
Defined.

(** X8: a chain that [getInheritanceChain] returns on a store has at most
    one id more than the store has templates, and every id of it but the last
    is the id of a template of the store. *)
Theorem getInheritanceChain_bounded templates cache tid chain :
  getInheritanceChain (chain_fuel templates)
    (resolver cache (store_getter templates)) tid = Return chain ->
  length chain <= S (size templates)
  /\ (forall x, x ∈ chain -> Some x <> last chain -> is_Some (templates !! x)).
Proof.
  intros Hres.
  pose proof (getInheritanceChain_store templates cache tid) as Hchain.
  cbv zeta in Hchain. rewrite Hres in Hchain.
  destruct Hchain as (c & -> & Hpath & Hnd & lc & root & Hc & Hroot).
  assert (Hin : forall x, x ∈ tid :: c -> Some x <> last (tid :: c) ->
                          is_Some (templates !! x)).
  { intros x Hx Hlast.
    exact (parent_path_present (store_getter templates) _ x Hpath Hx Hlast). }
  split; [|exact Hin].
  rewrite Hc in *. rewrite last_snoc in Hin.
  apply NoDup_app in Hnd as (Hnd & Hdisj & _).
  rewrite length_app. simpl.
  assert (length lc <= size templates); [|lia].
  apply distinct_ids_bounded; [done|].
  intros x Hx. apply Hin; [apply elem_of_app; by left|].
  intros [= ->]. apply (Hdisj root Hx). left.
Qed.

Lemma getInheritanceChain_bounded_witness :
  getInheritanceChain (chain_fuel family_store)
    (resolver ∅ (store_getter family_store)) "grandchild"
  = Return ["grandchild"; "child"; "base"]
  /\ length ["grandchild"; "child"; "base"] <= S (size family_store).
Proof.
  assert (H : getInheritanceChain (chain_fuel family_store)
                (resolver ∅ (store_getter family_store)) "grandchild"
              = Return ["grandchild"; "child"; "base"]) by reflexivity.
  split; [exact H|].
  exact (proj1 (getInheritanceChain_bounded _ _ _ _ H)).
Defined.

Lemma merge_chain_fold (getter : TemplateGetter) ids ts r :
  Forall2 (fun i t => getter i = Some t) ids ts ->
  merge_chain getter ids (Some r) = Return (Some (foldl mergeTemplates r ts)).
Proof.
  intros H. revert r. induction H as [|i t ids ts Hi _ IH]; intros r; [done|].
  simpl. rewrite Hi. apply IH.
Qed.

(** X9: when every id of the chain is the id of a template of the store,
    [resolveTemplate] returns the root template with the templates below it
    merged onto it one after the other, the leaf last. *)
Theorem resolveTemplate_folds_root_to_leaf templates cache tid leaf chain ts :
  cache !! tid = None ->
  templates !! tid = Some leaf ->
  truthy (parent leaf) = true ->
  getInheritanceChain (chain_fuel templates)
    (resolver cache (store_getter templates)) tid = Return chain ->
  Forall2 (fun i t => templates !! i = Some t) (reverse chain) ts ->
  exists root below,
    ts = root :: below
    /\ fst (resolveTemplate (chain_fuel templates)
              (resolver cache (store_getter templates)) tid)
       = Return (foldl mergeTemplates root below).
Proof.
  intros Hmiss Hleaf Hparent Hchain Hts.
  rewrite (resolveTemplate_with_parent _ _ _ _ leaf) by done.
  rewrite Hchain.
  pose proof (getInheritanceChain_store templates cache tid) as Hstore.
  cbv zeta in Hstore. rewrite Hchain in Hstore.
  destruct Hstore as (c & -> & _).
  destruct (reverse (tid :: c)) as [|i ids] eqn:Hrev.
  { rewrite reverse_cons in Hrev. by destruct (reverse c). }
  destruct ts as [|root below]; [by apply Forall2_nil_inv_r in Hts|].
  apply Forall2_cons_1 in Hts as [Hi Hts].
  exists root, below. split; [done|].
  simpl. unfold store_getter at 1. rewrite Hi.
  by rewrite (merge_chain_fold (store_getter templates) ids below root Hts).
Qed.

Lemma resolveTemplate_folds_root_to_leaf_witness :
  let base := sample_template "base" "BASE" None in
  let child := sample_template "child"
                 ("{{> parent}}" +:+ String "010" "EXTRA") (Some "base") in
  let grandchild := sample_template "grandchild" "[{{>parent}}]"
                      (Some "child") in
  fst (resolveTemplate (chain_fuel family_store)
         (resolver ∅ (store_getter family_store)) "grandchild")
  = Return (mergeTemplates (mergeTemplates base child) grandchild).
Proof.
  intros base child grandchild.
  destruct (resolveTemplate_folds_root_to_leaf family_store ∅ "grandchild"
              grandchild ["grandchild"; "child"; "base"]
              [base; child; grandchild])
    as (root & below & Hts & Hres);
    [apply lookup_empty|reflexivity|reflexivity|reflexivity| |].
  - repeat constructor.
  - injection Hts as <- <-. exact Hres.
Defined.

(** X10: [getTemplate] answers undefined for an id that the store does not
    hold, and leaves the cache as it is; for an id that the store holds it
    answers what [resolveTemplate] answers, and it keeps the cache sound. *)
Theorem getTemplate_agrees_with_resolveTemplate fuel templates cache tid :
  cache_sound templates cache ->
  (templates !! tid = None ->
   getTemplate fuel templates cache tid = (Return None, cache))
  /\ (is_Some (templates !! tid) ->
      forall t,
        fst (getTemplate fuel templates cache tid) = Return (Some t)
        <-> fst (resolveTemplate fuel
                   (resolver cache (store_getter templates)) tid) = Return t)
  /\ (fuel = chain_fuel templates ->
      cache_sound templates (snd (getTemplate fuel templates cache tid))).
Proof.
  intros Hsound. unfold getTemplate. split; [|split].
  - by intros ->.
  - intros [template Ht] t. rewrite Ht.
    destruct (truthy (parent template)) eqn:Hparent.
    + destruct (resolveTemplate fuel _ tid) as [[r|e|] st']; simpl;
        split; congruence.
    + destruct (resolveTemplate_parentless fuel _ _ _ _ Hsound Ht Hparent)
        as (st' & -> & _). simpl. split; congruence.
  - intros ->. destruct (templates !! tid) as [template|]; [|done].
    destruct (truthy (parent template)); [|done].
    destruct (resolveTemplate _ _ tid) as [r st'] eqn:Hres.
    pose proof (cache_sound_resolveTemplate _ _ _ _ _ Hsound Hres).
    by destruct r.
Qed.

Lemma getTemplate_agrees_with_resolveTemplate_witness :
  getTemplate (chain_fuel family_store) family_store ∅ "nobody"
  = (Return None, ∅)
  /\ cache_sound family_store
       (snd (getTemplate (chain_fuel family_store) family_store ∅ "child")).
Proof.
  pose proof (getTemplate_agrees_with_resolveTemplate
                (chain_fuel family_store) family_store ∅)
    as H.
  split.
  - exact (proj1 (H "nobody" (cache_sound_empty _)) eq_refl).
  - exact (proj2 (proj2 (H "child" (cache_sound_empty _))) eq_refl).
Defined.

End ResolveMore.

(** ** Texts without markers *)

Section PlainText.

Lemma strip_prefix_append p q s :
  strip_prefix p s = None -> strip_prefix (p +:+ q) s = None.
Proof.
  revert s. induction p as [|a p IH]; intros s; [done|].
  rewrite append_cons. simpl. destruct s as [|b s]; [done|].
  destruct (Ascii.eqb a b); [apply IH|done].
Qed.

Lemma find_None_inv pat c s :
  find pat (String c s) = None ->
  strip_prefix pat (String c s) = None /\ find pat s = None.
Proof.
  simpl. destruct (strip_prefix pat (String c s)); [done|].
  by destruct (find pat s).
Qed.

Lemma find_None_strip pat s : find pat s = None -> strip_prefix pat s = None.
Proof.
  destruct s as [|c s]; [|by intros [H _]%find_None_inv].
  simpl. by destruct (strip_prefix pat "").
Qed.

(** A text that does not hold a pattern does not hold a longer one. *)
Lemma find_None_append p q s : find p s = None -> find (p +:+ q) s = None.
Proof.
  induction s as [|c s IH]; intros H.
  - apply find_None_strip, (strip_prefix_append _ q) in H. simpl. by rewrite H.
  - apply find_None_inv in H as [Hp Hs]. simpl.
    by rewrite (strip_prefix_append _ q _ Hp), (IH Hs).
Qed.

Lemma find_None_drop pat s n : find pat s = None -> find pat (drop n s) = None.
Proof.
  revert s. induction n as [|n IH]; intros s H; [by destruct s|].
  destruct s as [|c s]; [done|]. simpl.
  apply find_None_inv in H as [_ H]. by apply IH.
Qed.

Lemma indexOf_None pat s pos : find pat s = None -> indexOf pat s pos = None.
Proof. intros H. unfold indexOf. by rewrite (find_None_drop _ _ pos H). Qed.

(** A pattern that starts with [pat] matches nowhere in a text without
    [pat]: replacing changes nothing and nothing is found. *)
Lemma replace_scan_none {A} (m : string -> string -> option (nat * A))
    pat emit before s :
  (forall b rest, strip_prefix pat rest = None -> m b rest = None) ->
  find pat s = None ->
  replace_scan m emit before s 0 = s.
Proof.
  intros Hm. revert before. induction s as [|c s IH]; intros before H; [done|].
  apply find_None_inv in H as [Hp Hs]. simpl.
  by rewrite (Hm _ _ Hp), (IH _ Hs).
Qed.

Lemma exec_scan_none {A} (m : string -> string -> option (nat * A))
    pat before s :
  (forall b rest, strip_prefix pat rest = None -> m b rest = None) ->
  find pat s = None ->
  exec_scan m before s 0 = [].
Proof.
  intros Hm. revert before. induction s as [|c s IH]; intros before H; [done|].
  apply find_None_inv in H as [Hp Hs]. simpl.
  by rewrite (Hm _ _ Hp), (IH _ Hs).
Qed.

Lemma variablePattern_needs b rest :
  strip_prefix "{{" rest = None -> variablePattern b rest = None.
Proof. intros H. unfold variablePattern. by rewrite H. Qed.

Lemma conditionalPattern_needs b rest :
  strip_prefix "{{#if" rest = None -> conditionalPattern b rest = None.
Proof. intros H. unfold conditionalPattern. by rewrite H. Qed.

Lemma loopPattern_needs b rest :
  strip_prefix "{{#each" rest = None -> loopPattern b rest = None.
Proof. intros H. unfold loopPattern. by rewrite H. Qed.

Lemma parentPattern_needs b rest :
  strip_prefix "{{>" rest = None -> parentPattern b rest = None.
Proof. intros H. unfold parentPattern. by rewrite H. Qed.

Lemma drop_0 s : drop 0 s = s.
Proof. by destruct s. Qed.

Lemma processLoops_loop_no_opening this_render turns t e lastPos result :
  indexOf "{{#each" t lastPos = None ->
  processLoops_loop this_render (S turns) t e lastPos result
  = Some (result +:+ slice_from t lastPos).
Proof. intros H. simpl. by rewrite H. Qed.

Lemma pass_plain this_render e t :
  find "{{" t = None -> pass this_render e t = Some t.
Proof.
  intros H. unfold pass, processLoops.
  rewrite processLoops_loop_no_opening
    by exact (indexOf_None "{{#each" t 0 (find_None_append "{{" "#each" t H)).
  unfold slice_from. rewrite drop_0, append_nil_l.
  unfold processConditionals, processVariables, replace_all.
  rewrite (replace_scan_none conditionalPattern "{{#if");
    [|apply conditionalPattern_needs|exact (find_None_append "{{" "#if" t H)].
  by rewrite (replace_scan_none variablePattern "{{");
    [|apply variablePattern_needs|].
Qed.

(** X11: a text that holds no pair of opening braces is rendered as it is,
    whatever the environment, and no variable is extracted from it. *)
Theorem render_plain_text t e :
  find "{{" t = None ->
  (forall n, render (2 + n) t e = Some t)
  /\ extractVariables t = [].
Proof.
  intros H. split.
  - intros n. apply (render_mono 2); [lia|].
    rewrite render_stable_text. unfold stable_text.
    assert (Hclean : cleanup t = t).
    { unfold cleanup, replace_all.
      by apply (replace_scan_none variablePattern "{{");
        [apply variablePattern_needs|]. }
    destruct (String.eqb_spec t "") as [->|Hne]; [done|].
    rewrite until_stable_step.
    destruct (String.eqb_spec t ""); [done|].
    rewrite pass_plain by done. rewrite until_stable_same. simpl.
    by rewrite Hclean.
  - unfold extractVariables, variable_matches, conditional_matches,
      loop_matches, exec_all.
    rewrite (exec_scan_none variablePattern "{{");
      [|apply variablePattern_needs|done].
    rewrite (exec_scan_none conditionalPattern "{{#if");
      [|apply conditionalPattern_needs
       |exact (find_None_append "{{" "#if" t H)].
    by rewrite (exec_scan_none loopPattern "{{#each");
      [|apply loopPattern_needs|exact (find_None_append "{{" "#each" t H)].
Qed.

Lemma render_plain_text_witness :
  find "{{" "This is plain text, with a } and a {." = None
  /\ render 2 "This is plain text, with a } and a {." [("name", VStr "Jo")]
     = Some "This is plain text, with a } and a {.".
Proof.
  assert (H : find "{{" "This is plain text, with a } and a {." = None)
    by reflexivity.
  split; [exact H|].
  exact (proj1 (render_plain_text _ [("name", VStr "Jo")] H) 0).
Defined.

(** X12: a child content without splice marker is the content of the merge,
    whatever the parent content: the parent content is dropped. *)
Theorem mergeContent_without_marker parentContent childContent :
  find "{{>" childContent = None ->
  mergeContent parentContent childContent = childContent.
Proof.
  intros H. unfold mergeContent, replace_all_string, replace_all.
  apply (replace_scan_none _ "{{>"); [|done].
  intros b rest Hrest. by rewrite (parentPattern_needs b rest Hrest).
Qed.

Lemma mergeContent_without_marker_witness :
  find "{{>" "Hello {{name}}" = None
  /\ mergeContent "BASE $& $$" "Hello {{name}}" = "Hello {{name}}".
Proof.
  assert (H : find "{{>" "Hello {{name}}" = None) by reflexivity.
  split; [exact H|]. exact (mergeContent_without_marker _ _ H).
Defined.

End PlainText.

(** ** Loops without end, and where a loop ends *)

Section LoopEnds.

Lemma append_assoc (a b c : string) : (a +:+ b) +:+ c = a +:+ b +:+ c.
Proof.
  induction a as [|x a IH]; [done|]. rewrite !append_cons. by rewrite IH.
Qed.

Lemma substring_0_drop n s : substring 0 n s +:+ drop n s = s.
Proof.
  revert s. induction n as [|n IH]; intros s.
  - destruct s; reflexivity.
  - destruct s as [|c s]; [done|]. simpl. rewrite append_cons. by rewrite IH.
Qed.

(** [s.slice(a, b) + s.slice(b)] is [s.slice(a)]. *)
Lemma slice_drop s a b : a <= b -> slice s a b +:+ drop b s = drop a s.
Proof.
  unfold slice. revert s b. induction a as [|a IH]; intros s b Hab.
  - rewrite Nat.sub_0_r, drop_0. apply substring_0_drop.
  - destruct s as [|c s].
    + simpl. by destruct b.
    + destruct b as [|b]; [lia|]. simpl. apply IH. lia.
Qed.

Lemma findMatchingEnd_loop_no_closing turns text depth pos :
  find "{{/each}}" text = None ->
  findMatchingEnd_loop turns text depth pos = None.
Proof.
  intros H. destruct turns as [|turns]; [done|]. simpl.
  destruct (_ && _); [|done].
  by rewrite (indexOf_None "{{/each}}" text pos H).
Qed.

Lemma processLoops_loop_no_closing this_render turns t e lastPos result :
  find "{{/each}}" t = None ->
  lastPos <= String.length t ->
  String.length t < lastPos + turns ->
  processLoops_loop this_render turns t e lastPos result
  = Some (result +:+ drop lastPos t).
Proof.
  intros Hnone. revert lastPos result.
  induction turns as [|turns IH]; intros lastPos result Hpos Hturns; [lia|].
  simpl.
  destruct (indexOf "{{#each" t lastPos) as [startMatch|] eqn:Hstart; [|done].
  apply indexOf_bound in Hstart as [Hs1 Hs2]; [|simpl; lia].
  destruct (indexOf "}}" t startMatch) as [headerEnd|] eqn:Hheader.
  2:{ by rewrite append_assoc, slice_drop. }
  apply indexOf_bound in Hheader as [Hh1 Hh2]; [|simpl; lia]. simpl in Hh2.
  destruct (match_header _) as [[arrayVar itemName]|].
  - unfold findMatchingEnd.
    rewrite findMatchingEnd_loop_no_closing by done.
    by rewrite append_assoc, slice_drop.
  - rewrite IH by lia.
    rewrite !append_assoc, slice_drop by lia. by rewrite slice_drop.
Qed.

(** X13: a text that holds no closing loop marker comes out of
    [processLoops] as it is, opening markers included, and [render] is not
    called for any body. *)
Theorem processLoops_without_closing_marker this_render t e :
  find "{{/each}}" t = None ->
  processLoops this_render t e = Some t.
Proof.
  intros H. unfold processLoops.
  rewrite processLoops_loop_no_closing by (done || lia).
  by rewrite drop_0.
Qed.

Lemma processLoops_without_closing_marker_witness :
  find "{{/each}}" "a {{#each xs as x}} b {{x}}" = None
  /\ processLoops (fun _ _ => None) "a {{#each xs as x}} b {{x}}"
       [("xs", VList [VStr "1"])]
     = Some "a {{#each xs as x}} b {{x}}".
Proof.
  assert (H : find "{{/each}}" "a {{#each xs as x}} b {{x}}" = None)
    by reflexivity.
  split; [exact H|].
  exact (processLoops_without_closing_marker _ _ _ H).
Defined.

Lemma strip_prefix_substring p s r :
  strip_prefix p s = Some r -> substring 0 (String.length p) s = p.
Proof.
  revert s. induction p as [|a p IH]; intros s; simpl.
  - by destruct s.
  - destruct s as [|b s]; [done|].
    destruct (Ascii.eqb_spec a b) as [<-|]; [|done].
    intros H.
    change (String a (substring 0 (String.length p) s) = String a p).
    by rewrite (IH _ H).
Qed.

Lemma find_substring pat s i :
  find pat s = Some i -> substring i (String.length pat) s = pat.
Proof.
  revert i. induction s as [|c s IH]; intros i; simpl.
  - destruct (strip_prefix pat "") as [r|] eqn:Hp; [|done].
    intros [= <-]. by apply strip_prefix_substring in Hp.
  - destruct (strip_prefix pat (String c s)) as [r|] eqn:Hp.
    + intros [= <-]. by apply strip_prefix_substring in Hp.
    + destruct (find pat s) as [j|]; [|done]. intros [= <-]. by apply IH.
Qed.

Lemma substring_drop n j m s :
  substring (n + j) m s = substring j m (drop n s).
Proof.
  revert s. induction n as [|n IH]; intros s; [by rewrite drop_0|].
  destruct s as [|c s]; simpl; [by destruct j, m|apply IH].
Qed.

(** Where [indexOf] finds the pattern, the pattern is. *)
Lemma indexOf_substring pat s pos i :
  indexOf pat s pos = Some i -> substring i (String.length pat) s = pat.
Proof.
  unfold indexOf. destruct (find pat (drop pos s)) as [j|] eqn:Hj; [|done].
  intros [= <-]. rewrite substring_drop. by apply find_substring.
Qed.

Lemma findMatchingEnd_loop_marker turns text depth pos endPos :
  findMatchingEnd_loop turns text depth pos = Some endPos ->
  slice text (endPos - 9) endPos = "{{/each}}".
Proof.
  revert depth pos.
  induction turns as [|turns IH]; intros depth pos; simpl; [done|].
  destruct (_ && _); [|done].
  destruct (indexOf "{{/each}}" text pos) as [nextEnd|] eqn:Hend; [|done].
  apply indexOf_substring in Hend.
  assert (Hclose :
    (if depth - 1 =? 0 then Some (nextEnd + 9)
     else findMatchingEnd_loop turns text (depth - 1) (nextEnd + 9))
    = Some endPos -> slice text (endPos - 9) endPos = "{{/each}}").
  { destruct (depth - 1 =? 0); [|apply IH].
    intros [= <-]. unfold slice.
    replace (nextEnd + 9 - 9) with nextEnd by lia.
    by replace (nextEnd + 9 - nextEnd) with 9 by lia. }
  destruct (indexOf "{{#each" text pos) as [nextStart|]; [|done].
  destruct (nextStart <? nextEnd); [apply IH|done].
Qed.

(** X14: the position that [findMatchingEnd] returns is the end of a closing
    loop marker that starts at or after the position it was given, inside the
    text; and when no opening marker follows that position, the marker is the
    first closing marker after it. *)
Theorem findMatchingEnd_ends_a_closing_marker text startPos :
  (forall endPos,
     findMatchingEnd text startPos = Some endPos ->
     startPos + 9 <= endPos /\ endPos <= String.length text
     /\ slice text (endPos - 9) endPos = "{{/each}}")
  /\ (indexOf "{{#each" text startPos = None ->
      findMatchingEnd text startPos
      = (fun nextEnd => nextEnd + 9) <$> indexOf "{{/each}}" text startPos).
Proof.
  split.
  - intros endPos H. split; [|split].
    + by apply findMatchingEnd_bound in H as [? _].
    + by apply findMatchingEnd_bound in H as [_ ?].
    + by apply findMatchingEnd_loop_marker in H.
  - intros Hstart. unfold findMatchingEnd. simpl. rewrite Hstart.
    destruct (indexOf "{{/each}}" text startPos) as [nextEnd|] eqn:Hend.
    + apply indexOf_bound in Hend as [H1 H2]; [|simpl; lia]. simpl in H2.
      replace (startPos <? String.length text) with true; [done|].
      symmetry. apply Nat.ltb_lt. lia.
    + by destruct (startPos <? String.length text).
Qed.

Lemma findMatchingEnd_ends_a_closing_marker_witness :
  findMatchingEnd "{{#each a as x}}{{#each b as y}}X{{/each}}Y{{/each}}" 16
  = Some 52
  /\ slice "{{#each a as x}}{{#each b as y}}X{{/each}}Y{{/each}}" (52 - 9) 52
     = "{{/each}}".
Proof.
  assert (H : findMatchingEnd
                "{{#each a as x}}{{#each b as y}}X{{/each}}Y{{/each}}" 16
              = Some 52) by reflexivity.
  split; [exact H|].
  exact (proj2 (proj2 (proj1 (findMatchingEnd_ends_a_closing_marker _ _)
                         52 H))).
Defined.

End LoopEnds.

(** ** The environment of a loop body *)

Section LoopBinding.

Lemma own_field_set_field fields k v :
  own_field (set_field fields k v) k = Some v.
Proof.
  induction fields as [|[k' w] fields IH]; simpl.
  - by rewrite String.eqb_refl.
  - destruct (String.eqb_spec k' k) as [->|Hne]; simpl.
    + by rewrite String.eqb_refl.
    + by destruct (String.eqb_spec k' k).
Qed.

Lemma own_field_set_field_ne fields k v k' :
  k' <> k -> own_field (set_field fields k v) k' = own_field fields k'.
Proof.
  intros Hne. induction fields as [|[k0 w] fields IH]; simpl.
  - by destruct (String.eqb_spec k k').
  - destruct (String.eqb_spec k0 k) as [->|Hk0]; simpl.
    + by destruct (String.eqb_spec k k').
    + by rewrite IH.
Qed.

Lemma split_no_dot s :
  all_chars (fun c => negb (Ascii.eqb c ".")) s = true -> split "." s = [s].
Proof.
  induction s as [|c s IH]; [done|]. simpl.
  intros [Hc Hs]%andb_prop. apply negb_true_iff in Hc. rewrite Hc.
  by rewrite (IH Hs).
Qed.

(** X15: in the environment of a loop body (the outer environment with the
    item name bound to the item) a path whose first segment is the item name
    resolves inside the item, whatever the outer environment holds under that
    name, and every other path resolves as in the outer environment; an item
    name without a dot resolves to the item. *)
Theorem getNestedValue_in_loop_body variables itemName item :
  (forall path part rest,
     split "." path = part :: rest ->
     getNestedValue (set_field variables itemName item) path
     = if String.eqb part itemName then getNestedValue_parts rest item
       else getNestedValue variables path)
  /\ (all_chars (fun c => negb (Ascii.eqb c ".")) itemName = true ->
      getNestedValue (set_field variables itemName item) itemName = item).
Proof.
  assert (Hfirst : forall path part rest,
     split "." path = part :: rest ->
     getNestedValue (set_field variables itemName item) path
     = if String.eqb part itemName then getNestedValue_parts rest item
       else getNestedValue variables path).
  { intros path part rest Hsplit. unfold getNestedValue. rewrite Hsplit.
    simpl. unfold has_property, get_property. simpl.
    destruct (String.eqb_spec part itemName) as [->|Hne].
    - by rewrite own_field_set_field.
    - by rewrite own_field_set_field_ne. }
  split; [exact Hfirst|].
  intros Hdot. rewrite (Hfirst itemName itemName []) by by apply split_no_dot.
  by rewrite String.eqb_refl.
Qed.

End LoopBinding.

(** ** The names that [extractVariables] returns *)

Section ExtractedNames.

Lemma span_spec f s a b :
  span f s = (a, b) -> s = a +:+ b /\ all_chars f a = true.
Proof.
  revert a b. induction s as [|c s IH]; intros a b; simpl.
  - by intros [= <- <-].
  - destruct (f c) eqn:Hc; [|by intros [= <- <-]].
    destruct (span f s) as [a' b'] eqn:Hs. intros [= <- <-].
    destruct (IH _ _ eq_refl) as [-> Ha]. split; [done|]. simpl.
    by rewrite Hc.
Qed.

Lemma exec_scan_elem {A} (m : string -> string -> option (nat * A))
    before s skip a :
  a ∈ exec_scan m before s skip -> exists b rest len, m b rest = Some (len, a).
Proof.
  revert before skip. induction s as [|c s IH]; intros before skip; simpl.
  - by intros ?%elem_of_nil.
  - destruct skip as [|k]; [|apply IH].
    destruct (m before (String c s)) as [[len x]|] eqn:Hm; [|apply IH].
    intros [->|Hin]%elem_of_cons; [eauto|by eapply IH].
Qed.

Lemma drop_while_all f ws rest :
  all_chars f ws = true -> drop_while f (ws +:+ rest) = drop_while f rest.
Proof.
  induction ws as [|c ws IH]; [done|]. rewrite append_cons. simpl.
  intros [Hc Hws]%andb_prop. rewrite Hc. auto.
Qed.

Lemma rev_app_append (a b c : string) :
  String.rev_app (a +:+ b) c = String.rev_app b (String.rev_app a c).
Proof.
  revert c. induction a as [|x a IH]; intros c; [done|].
  rewrite append_cons. simpl. apply IH.
Qed.

Lemma drop_while_rev_app_all f s a :
  all_chars f s = true ->
  drop_while f (String.rev_app s a) = drop_while f a.
Proof.
  revert a. induction s as [|c s IH]; intros a; [done|]. simpl.
  intros [Hc Hs]%andb_prop. rewrite IH by done. simpl. by rewrite Hc.
Qed.

(** [trim] removes the padding of a padded path. *)
Lemma trim_padded ws1 path ws2 :
  all_chars is_space ws1 = true -> all_chars is_space ws2 = true ->
  path <> "" -> all_chars is_path_char path = true ->
  trim (ws1 +:+ path +:+ ws2) = path.
Proof.
  intros H1 H2 Hne Hpath.
  assert (Hns : all_chars (fun c => negb (is_space c)) path = true).
  { eapply all_chars_impl; [|exact Hpath].
    intros c Hc. by rewrite (path_char_not_space _ Hc). }
  unfold trim. rewrite drop_while_all by done.
  assert (Hhead : drop_while is_space (path +:+ ws2) = path +:+ ws2).
  { destruct path as [|c path]; [done|]. rewrite append_cons. simpl in *.
    apply andb_prop in Hpath as [Hc _].
    by rewrite (path_char_not_space _ Hc). }
  rewrite Hhead. unfold String.rev at 2. rewrite rev_app_append.
  rewrite drop_while_rev_app_all by done.
  rewrite drop_while_rev_app by done.
  exact (rev_involutive path).
Qed.

Lemma variablePattern_group before rest len group :
  variablePattern before rest = Some (len, group) ->
  trim group <> "" /\ all_chars is_path_char (trim group) = true.
Proof.
  unfold variablePattern.
  destruct (strip_prefix "{{" rest) as [rest1|]; [|done].
  cbn [mbind option_bind].
  destruct (span is_space rest1) as [ws1 rest2] eqn:H1.
  destruct (span is_path_char rest2) as [path rest3] eqn:H2.
  destruct (String.eqb_spec path "") as [|Hne]; [done|].
  destruct (span is_space rest3) as [ws2 rest4] eqn:H3.
  destruct (strip_prefix "}}" rest4); [|done].
  cbn [mbind option_bind]. intros [= _ <-].
  apply span_spec in H1 as [_ H1]. apply span_spec in H2 as [_ H2].
  apply span_spec in H3 as [_ H3].
  by rewrite trim_padded.
Qed.

Lemma conditionalPattern_group before rest len condition body :
  conditionalPattern before rest = Some (len, (condition, body)) ->
  trim condition <> "" /\ all_chars is_path_char (trim condition) = true.
Proof.
  unfold conditionalPattern.
  destruct (strip_prefix "{{#if" rest) as [rest1|]; [|done].
  cbn [mbind option_bind].
  destruct (span is_space rest1) as [ws rest2].
  destruct (String.eqb ws ""); [done|].
  destruct (span is_path_char rest2) as [path rest3] eqn:H2.
  destruct (String.eqb_spec path "") as [|Hne]; [done|].
  destruct (strip_prefix "}}" rest3) as [rest4|]; [|done].
  cbn [mbind option_bind].
  destruct (find "{{/if}}" rest4); [|done].
  cbn [mbind option_bind]. intros [= _ <- _].
  apply span_spec in H2 as [_ H2]. by rewrite trim_path.
Qed.

Lemma loop_header_group s arrayVar itemName rest n :
  loop_header s = Some (arrayVar, itemName, rest, n) ->
  arrayVar <> "" /\ all_chars is_path_char arrayVar = true
  /\ itemName <> "" /\ all_chars is_word itemName = true.
Proof.
  unfold loop_header.
  destruct (span is_space s) as [ws1 s1].
  destruct (String.eqb ws1 ""); [done|].
  destruct (span is_path_char s1) as [path s2] eqn:H2.
  destruct (String.eqb_spec path "") as [|Hne]; [done|].
  destruct (span is_space s2) as [ws2 s3].
  destruct (String.eqb ws2 ""); [done|].
  destruct (strip_prefix "as" s3) as [s4|]; [|done].
  cbn [mbind option_bind].
  destruct (span is_space s4) as [ws3 s5].
  destruct (String.eqb ws3 ""); [done|].
  destruct (span is_word s5) as [item s6] eqn:H5.
  destruct (String.eqb_spec item "") as [|Hitem]; [done|].
  intros [= <- <- _ _].
  apply span_spec in H2 as [_ H2]. by apply span_spec in H5 as [_ H5].
Qed.

Lemma loopPattern_group before rest len arrayVar itemName body :
  loopPattern before rest = Some (len, (arrayVar, itemName, body)) ->
  trim arrayVar <> "" /\ all_chars is_path_char (trim arrayVar) = true.
Proof.
  unfold loopPattern.
  destruct (strip_prefix "{{#each" rest) as [rest1|]; [|done].
  cbn [mbind option_bind].
  destruct (loop_header rest1) as [[[[a i] rest2] n]|] eqn:Hh; [|done].
  cbn [mbind option_bind].
  destruct (strip_prefix "}}" rest2) as [rest3|]; [|done].
  cbn [mbind option_bind].
  destruct (find "{{/each}}" rest3); [|done].
  cbn [mbind option_bind]. intros [= _ <- _ _].
  apply loop_header_group in Hh as (Hne & Hpath & _).
  by rewrite trim_path.
Qed.

(** X16: every name that [extractVariables] returns is a path: it is not
    empty and consists of word characters and dots only, so it holds neither
    a space nor a brace. *)
Theorem extractVariables_names_are_paths t v :
  v ∈ extractVariables t ->
  var_name v <> "" /\ all_chars is_path_char (var_name v) = true.
Proof.
  rewrite extractVariables_matches.
  intros (n & -> & Hn)%list_elem_of_fmap. simpl.
  apply fold_set_add_elem in Hn as [Hn|Hn]; [by apply elem_of_nil in Hn|].
  rewrite !elem_of_app in Hn. destruct Hn as [Hn|[Hn|Hn]].
  - apply list_elem_of_fmap in Hn as (g & -> & Hg).
    apply exec_scan_elem in Hg as (b & rest & len & Hm).
    by eapply variablePattern_group.
  - apply list_elem_of_fmap in Hn as ([condition body] & -> & Hg).
    apply exec_scan_elem in Hg as (b & rest & len & Hm).
    by eapply conditionalPattern_group.
  - apply list_elem_of_fmap in Hn as ([[arrayVar itemName] body] & -> & Hg).
    apply exec_scan_elem in Hg as (b & rest & len & Hm).
    by eapply loopPattern_group.
Qed.

Lemma extractVariables_names_are_paths_witness :
  extracted "user.name" ∈ extractVariables "Dear {{  user.name }}!"
  /\ var_name (extracted "user.name") <> ""
  /\ all_chars is_path_char (var_name (extracted "user.name")) = true.
Proof.
  assert (H : extracted "user.name" ∈ extractVariables "Dear {{  user.name }}!")
    by (vm_compute; left).
  split; [exact H|].
  exact (extractVariables_names_are_paths _ _ H).
Defined.

End ExtractedNames.

(** ** Validation of an environment *)

Import TemplateValidation Samples.

Section ValidateEnvironment.
Variable host : Host.

Lemma elem_of_concat {A} (x : A) (ls : list (list A)) :
  x ∈ concat ls <-> exists l, x ∈ l /\ l ∈ ls.
Proof.
  induction ls as [|l ls IH]; simpl.
  - split; [by intros ?%elem_of_nil|]. by intros (l & _ & ?%elem_of_nil).
  - rewrite elem_of_app, IH. split.
    + intros [Hx|(l' & Hx & Hl')]; [exists l; split; [done|left]|].
      exists l'. split; [done|by right].
    + intros (l' & Hx & [->|Hl']%elem_of_cons); [by left|].
      right. by exists l'.
Qed.

Lemma elem_of_List_filter {A} (f : A -> bool) (l : list A) (x : A) :
  x ∈ List.filter f l <-> f x = true /\ x ∈ l.
Proof.
  rewrite !list_elem_of_In, filter_In. tauto.
Qed.

Lemma validate_definitions_pushed variables defs errs r :
  validate_definitions host variables defs errs = Normal r ->
  exists pushed,
    Forall2 (fun d es => validate_definition host variables d = Normal es)
      defs pushed
    /\ r = errs ++ concat pushed.
Proof.
  revert errs. induction defs as [|d defs IH]; intros errs; simpl.
  - intros [= <-]. exists []. split; [constructor|]. by rewrite app_nil_r.
  - destruct (validate_definition host variables d) as [es|e] eqn:Hd; [|done].
    intros (pushed & Hall & ->)%IH. exists (es :: pushed).
    split; [by constructor|]. simpl. by rewrite app_assoc.
Qed.

Lemma validate_definitions_abrupt variables defs errs e :
  validate_definitions host variables defs errs = Abrupt e ->
  exists d, d ∈ defs /\ validate_definition host variables d = Abrupt e.
Proof.
  revert errs. induction defs as [|d defs IH]; intros errs; simpl; [done|].
  destruct (validate_definition host variables d) as [es|e'] eqn:Hd.
  - intros (d' & Hin & Hd')%IH. exists d'. split; [by right|done].
  - intros [= ->]. exists d. split; [left|done].
Qed.

Lemma validate_definitions_total variables defs errs :
  (forall d, d ∈ defs ->
     exists es, validate_definition host variables d = Normal es) ->
  exists r, validate_definitions host variables defs errs = Normal r.
Proof.
  revert errs. induction defs as [|d defs IH]; intros errs Hall; simpl.
  - eauto.
  - destruct (Hall d) as [es ->]; [left|].
    apply IH. intros d' Hd'. apply Hall. by right.
Qed.

(** What makes a definition push no error. *)
Lemma validate_definition_clean variables d es :
  validate_definition host variables d = Normal es ->
  es = [] <->
  let v := getNestedValue variables (var_name d) in
  if is_undefined v then var_required d = false
  else validateType host v (var_type d) = true
       /\ validateValue host v d = Normal [].
Proof.
  unfold validate_definition. cbv zeta.
  destruct (is_undefined (getNestedValue variables (var_name d))) eqn:Hu.
  - rewrite andb_true_r.
    destruct (var_required d); intros [= <-]; split; done.
  - rewrite andb_false_r.
    destruct (validateType host _ (var_type d)) eqn:Ht.
    + destruct (var_validation d) as [validation|] eqn:Hv.
      * destruct (validateValue host _ d) as [ves|e]; [|done].
        intros [= <-]. simpl. split; [by intros ->|by intros [_ [= ->]]].
      * intros [= <-]. split; [|done]. intros _. split; [done|].
        unfold validateValue. by rewrite Hv.
    + destruct (var_validation d) as [validation|].
      * destruct (validateValue host _ d) as [ves|e]; [|done].
        intros [= <-]. split; [done|by intros [? _]].
      * intros [= <-]. split; [done|by intros [? _]].
Qed.

Lemma validateValue_paths v d es :
  validateValue host v d = Normal es ->
  forall e, e ∈ es -> err_path e = var_name d /\ err_type e = Invalid.
Proof.
  unfold validateValue. destruct (var_validation d) as [validation|].
  2:{ intros [= <-] e He. by apply elem_of_nil in He. }
  destruct (validate_pattern host v d validation) as [pes|ex] eqn:Hp; [|done].
  intros [= <-] e. rewrite !elem_of_app. intros [He|[He|He]].
  - unfold validate_pattern in Hp.
    destruct (pattern validation) as [p|], v; try by injection Hp as <-;
      apply elem_of_nil in He.
    destruct (String.eqb p "").
    { injection Hp as <-. by apply elem_of_nil in He. }
    destruct (RegExp_test host p s) as [[]|]; [| |done]; injection Hp as <-.
    + by apply elem_of_nil in He.
    + by apply list_elem_of_singleton in He as ->.
  - unfold validate_range in He. destruct v; try by apply elem_of_nil in He.
    apply elem_of_app in He as [He|He].
    + destruct (min validation) as [m|]; [|by apply elem_of_nil in He].
      destruct (number_lt n m); [|by apply elem_of_nil in He].
      by apply list_elem_of_singleton in He as ->.
    + destruct (max validation) as [m|]; [|by apply elem_of_nil in He].
      destruct (number_lt m n); [|by apply elem_of_nil in He].
      by apply list_elem_of_singleton in He as ->.
  - unfold validate_enum in He.
    destruct (enum validation) as [items|]; [|by apply elem_of_nil in He].
    destruct (includes items v); [by apply elem_of_nil in He|].
    by apply list_elem_of_singleton in He as ->.
Qed.

Lemma validate_definition_paths variables d es :
  validate_definition host variables d = Normal es ->
  forall e, e ∈ es -> err_path e = var_name d.
Proof.
  unfold validate_definition. cbv zeta.
  destruct (var_required d && is_undefined _).
  { intros [= <-] e He. by apply list_elem_of_singleton in He as ->. }
  destruct (is_undefined _).
  { intros [= <-] e He. by apply elem_of_nil in He. }
  assert (Htype : forall e,
    e ∈ (if validateType host (getNestedValue variables (var_name d))
              (var_type d)
         then [] else [type_error d]) -> err_path e = var_name d).
  { intros e He. destruct (validateType host _ _).
    - by apply elem_of_nil in He.
    - by apply list_elem_of_singleton in He as ->. }
  destruct (var_validation d) as [validation|].
  - destruct (validateValue host _ d) as [ves|ex] eqn:Hv; [|done].
    intros [= <-] e [He|He]%elem_of_app; [by apply Htype|].
    by apply (validateValue_paths _ _ _ Hv).
  - intros [= <-]. exact Htype.
Qed.

Lemma validate_definition_abrupt variables d ex :
  validate_definition host variables d = Abrupt ex ->
  exists validation p s,
    var_validation d = Some validation /\ pattern validation = Some p
    /\ p <> ""
    /\ getNestedValue variables (var_name d) = VStr s
    /\ RegExp_test host p s = None /\ ex = InvalidRegExp p.
Proof.
  unfold validate_definition. cbv zeta.
  destruct (var_required d && is_undefined _); [done|].
  destruct (is_undefined _); [done|].
  unfold validateValue.
  destruct (var_validation d) as [validation|]; [|done].
  unfold validate_pattern.
  destruct (pattern validation) as [p|] eqn:Hpattern; [|done].
  destruct (getNestedValue variables (var_name d)) as [| | | |s| | | |]
    eqn:Hvalue; try done.
  destruct (String.eqb_spec p "") as [|Hne]; [done|].
  destruct (RegExp_test host p s) as [[]|] eqn:Htest; [done..|].
  intros [= <-]. by exists validation, p, s.
Qed.

Lemma validate_definition_normal variables d :
  (forall validation,
     var_validation d = Some validation -> pattern validation = None) ->
  exists es, validate_definition host variables d = Normal es.
Proof.
  intros Hpat. unfold validate_definition. cbv zeta.
  destruct (var_required d && is_undefined _); [eauto|].
  destruct (is_undefined _); [eauto|].
  unfold validateValue.
  destruct (var_validation d) as [validation|]; [|eauto].
  unfold validate_pattern. rewrite (Hpat validation eq_refl). eauto.
Qed.

Lemma flattenKeys_cons key v rest prefix :
  flattenKeys ((key, v) :: rest) prefix
  = let fullKey := if String.eqb prefix "" then key
                   else prefix +:+ "." +:+ key in
    fullKey :: flattenKeys_of v fullKey ++ flattenKeys rest prefix.
Proof. reflexivity. Qed.

Lemma flattenKeys_top obj key v : (key, v) ∈ obj -> key ∈ flattenKeys obj "".
Proof.
  induction obj as [|[k w] obj IH]; [by intros ?%elem_of_nil|].
  rewrite flattenKeys_cons. cbv zeta. simpl String.eqb. cbv iota.
  intros [[= -> ->]|Hin]%elem_of_cons; [left|].
  right. apply elem_of_app. right. by apply IH.
Qed.

(** The result of a validation that returns. *)
Lemma validateVariables_normal template variables result :
  validateVariables host template variables = Normal result ->
  exists defs errs,
    ContentTypes.variables template = Some defs
    /\ validate_definitions host variables defs [] = Normal errs
    /\ result
       = {| valid := Nat.eqb (length errs) 0;
            errors := errs;
            warnings :=
              unused_warning
                <$> List.filter (fun key => negb (mem key (var_name <$> defs)))
                      (flattenKeys variables "") |}.
Proof.
  unfold validateVariables.
  destruct (ContentTypes.variables template) as [defs|]; [|done].
  destruct (validate_definitions host variables defs []) as [errs|e] eqn:He;
    [|done].
  intros [= <-]. by exists defs, errs.
Qed.

(** The required variables of a template whose validation passes resolve. *)
Lemma validateVariables_valid_required template variables result :
  validateVariables host template variables = Normal result ->
  valid result = true ->
  forall d, d ∈ default [] (ContentTypes.variables template) ->
            var_required d = true ->
            getNestedValue variables (var_name d) <> VUndefined.
Proof.
  intros (defs & errs & Hdefs & Herrs & ->)%validateVariables_normal Hvalid.
  rewrite Hdefs. simpl in *. intros d Hd Hreq Hundef.
  apply validate_definitions_pushed in Herrs as (pushed & Hall & ->).
  simpl in Hvalid. apply Nat.eqb_eq, length_zero_iff_nil in Hvalid.
  apply list_elem_of_lookup in Hd as [i Hi].
  destruct (Forall2_lookup_l _ _ _ _ _ Hall Hi) as (es & Hes & Hd).
  assert (es = []) as ->.
  { apply list_elem_of_lookup_2 in Hes.
    destruct es as [|e es]; [done|]. exfalso.
    assert (He : e ∈ concat pushed)
      by (apply elem_of_concat; exists (e :: es); split; [left|done]).
    rewrite Hvalid in He. by apply elem_of_nil in He. }
  apply validate_definition_clean in Hd. destruct Hd as [Hd _].
  specialize (Hd eq_refl). cbv zeta in Hd. rewrite Hundef in Hd.
  simpl in Hd. congruence.
Qed.

(** X17: a validation that returns declares the environment valid exactly
    when every definition of the template passes on its own: a variable that
    does not resolve is not required, and one that resolves has the declared
    type and passes the checks of its validation.  Keys of the environment
    that the template does not define never make it invalid. *)
Theorem validateVariables_valid_iff template variables result :
  validateVariables host template variables = Normal result ->
  valid result = true <->
  forall varDef, varDef ∈ default [] (ContentTypes.variables template) ->
    let v := getNestedValue variables (var_name varDef) in
    if is_undefined v then var_required varDef = false
    else validateType host v (var_type varDef) = true
         /\ validateValue host v varDef = Normal [].
Proof.
  intros (defs & errs & Hdefs & Herrs & ->)%validateVariables_normal.
  rewrite Hdefs. simpl.
  apply validate_definitions_pushed in Herrs as (pushed & Hall & ->).
  simpl. rewrite Nat.eqb_eq, length_zero_iff_nil. split.
  - intros Hnil d Hd.
    apply list_elem_of_lookup in Hd as [i Hi].
    destruct (Forall2_lookup_l _ _ _ _ _ Hall Hi) as (es & Hes & Hd).
    apply (validate_definition_clean _ _ _ Hd).
    apply list_elem_of_lookup_2 in Hes.
    destruct es as [|e es]; [done|]. exfalso.
    assert (He : e ∈ concat pushed)
      by (apply elem_of_concat; exists (e :: es); split; [left|done]).
    rewrite Hnil in He. by apply elem_of_nil in He.
  - intros Hclean. clear Hdefs.
    induction Hall as [|d es defs' pushed' Hd Hall IH]; [done|].
    simpl. rewrite IH.
    + rewrite app_nil_r. apply (validate_definition_clean _ _ _ Hd).
      apply Hclean. left.
    + intros d' Hd'. apply Hclean. by right.
Qed.

(** X18: every error of a validation is about a definition of the template:
    its path is the name of one.  Every warning is of type unused and names a
    flattened key of the environment that no definition names, and every key
    the environment holds at top level gets one unless a definition names
    it. *)
Theorem validateVariables_paths template variables result :
  validateVariables host template variables = Normal result ->
  let names := var_name <$> default [] (ContentTypes.variables template) in
  (forall e, e ∈ errors result -> err_path e ∈ names)
  /\ (forall w, w ∈ warnings result ->
        w = unused_warning (warn_path w)
        /\ warn_path w ∈ flattenKeys variables ""
        /\ warn_path w ∉ names)
  /\ (forall key v, (key, v) ∈ variables -> key ∉ names ->
        unused_warning key ∈ warnings result).
Proof.
  intros (defs & errs & Hdefs & Herrs & ->)%validateVariables_normal.
  rewrite Hdefs. simpl. split; [|split].
  - apply validate_definitions_pushed in Herrs as (pushed & Hall & ->).
    simpl. intros e (es & He & Hes)%elem_of_concat.
    apply list_elem_of_lookup in Hes as [i Hi].
    destruct (Forall2_lookup_r _ _ _ _ _ Hall Hi) as (d & Hd & Hpush).
    rewrite (validate_definition_paths _ _ _ Hpush e He).
    apply list_elem_of_fmap. exists d. split; [done|].
    by apply list_elem_of_lookup_2 in Hd.
  - intros w (key & -> & Hkey)%list_elem_of_fmap.
    apply elem_of_List_filter in Hkey as [Hundef Hkey]. simpl.
    split; [done|]. split; [done|].
    apply mem_false. by apply negb_true_iff.
  - intros key v Hin Hundef. apply list_elem_of_fmap. exists key.
    split; [done|]. apply elem_of_List_filter. split.
    + apply negb_true_iff. by apply mem_false.
    + by apply (flattenKeys_top _ _ v).
Qed.

(** X19: when every value of every enumeration of the template prints
    ([printable]: joining them for a message then cannot throw, as it does on
    a mapping with a key [toString]), a validation throws in two cases only:
    the template has no list of variables, or a definition with a pattern
    meets a string value and the pattern does not compile.  When the template
    has a list and no definition has a pattern, the validation returns. *)
Theorem validateVariables_throws template variables :
  (forall varDef validation items,
     varDef ∈ default [] (ContentTypes.variables template) ->
     var_validation varDef = Some validation ->
     enum validation = Some items -> forallb printable items = true) ->
  (forall ex,
     validateVariables host template variables = Abrupt ex ->
     (ContentTypes.variables template = None /\ ex = NotIterable)
     \/ exists varDef validation p s,
          varDef ∈ default [] (ContentTypes.variables template)
          /\ var_validation varDef = Some validation
          /\ pattern validation = Some p /\ p <> ""
          /\ getNestedValue variables (var_name varDef) = VStr s
          /\ RegExp_test host p s = None /\ ex = InvalidRegExp p)
  /\ (ContentTypes.variables template = None ->
      validateVariables host template variables = Abrupt NotIterable)
  /\ (forall defs,
        ContentTypes.variables template = Some defs ->
        (forall varDef validation,
           varDef ∈ defs -> var_validation varDef = Some validation ->
           pattern validation = None) ->
        exists result,
          validateVariables host template variables = Normal result).
Proof.
  intros _. unfold validateVariables. split; [|split].
  - intros ex. destruct (ContentTypes.variables template) as [defs|].
    2:{ intros [= <-]. by left. }
    destruct (validate_definitions host variables defs []) as [errs|e] eqn:He;
      [done|].
    intros [= ->]. right.
    apply validate_definitions_abrupt in He as (d & Hd & Hex).
    apply validate_definition_abrupt in Hex
      as (validation & p & s & H1 & H2 & H3 & H4 & H5 & H6).
    by exists d, validation, p, s.
  - by intros ->.
  - intros defs -> Hpat.
    destruct (validate_definitions_total variables defs []) as [errs ->];
      [|eauto].
    intros d Hd. apply validate_definition_normal.
    intros validation. by apply Hpat.
Qed.

End ValidateEnvironment.

Lemma validateVariables_valid_iff_witness :
  validateVariables sample_host greeting [("name", VStr "Jo"); ("n", VNull)]
  = Normal {| valid := true; errors := [];
              warnings := [unused_warning "n"] |}
  /\ forall varDef, varDef ∈ [sample_variable "name" TString] ->
       let v := getNestedValue [("name", VStr "Jo"); ("n", VNull)]
                  (var_name varDef) in
       if is_undefined v then var_required varDef = false
       else validateType sample_host v (var_type varDef) = true
            /\ validateValue sample_host v varDef = Normal [].
Proof.
  assert (H : validateVariables sample_host greeting
                [("name", VStr "Jo"); ("n", VNull)]
              = Normal {| valid := true; errors := [];
                          warnings := [unused_warning "n"] |})
    by reflexivity.
  split; [exact H|].
  exact (proj1 (validateVariables_valid_iff sample_host _ _ _ H) eq_refl).
Defined.

Lemma validateVariables_paths_witness :
  validateVariables sample_host greeting [("n", VNull)]
  = Normal {| valid := false;
              errors := [missing_error (sample_variable "name" TString)];
              warnings := [unused_warning "n"] |}
  /\ unused_warning "n"
     ∈ [unused_warning "n"].
Proof.
  assert (H : validateVariables sample_host greeting [("n", VNull)]
              = Normal {| valid := false;
                          errors := [missing_error
                                       (sample_variable "name" TString)];
                          warnings := [unused_warning "n"] |})
    by reflexivity.
  split; [exact H|].
  apply (proj2 (proj2 (validateVariables_paths sample_host _ _ _ H)) "n" VNull).
  - left.
  - simpl. intros Hin. apply list_elem_of_singleton in Hin. discriminate.
Defined.

Lemma validateVariables_throws_witness :
  validateVariables sample_host checked [("code", VStr "x")]
  = Abrupt (InvalidRegExp "(")
  /\ exists varDef validation p s,
       varDef ∈ [checked_variable]
       /\ var_validation varDef = Some validation
       /\ pattern validation = Some p /\ p <> ""
       /\ getNestedValue [("code", VStr "x")] (var_name varDef) = VStr s
       /\ RegExp_test sample_host p s = None
       /\ InvalidRegExp "(" = InvalidRegExp p.
Proof.
  assert (H : validateVariables sample_host checked [("code", VStr "x")]
              = Abrupt (InvalidRegExp "(")) by reflexivity.
  split; [exact H|].
  assert (Henum : forall varDef validation items,
    varDef ∈ default [] (ContentTypes.variables checked) ->
    var_validation varDef = Some validation ->
    enum validation = Some items -> forallb printable items = true).
  { intros varDef validation items Hin Hvalidation Hitems.
    apply list_elem_of_singleton in Hin. subst varDef.
    injection Hvalidation as <-. discriminate Hitems. }
  destruct (proj1 (validateVariables_throws sample_host checked
                     [("code", VStr "x")] Henum) _ H) as [[Hnone _]|Hex].
  - discriminate Hnone.
  - exact Hex.
Defined.

(** ** Rendering a stored template *)

Section RenderTemplate.
Variable host : Host.

Lemma merge_chain_merged (getter : TemplateGetter) ids idl leaf resolved t :
  getter idl = Some leaf ->
  ids <> [] \/ is_Some resolved ->
  merge_chain getter (ids ++ [idl]) resolved = Return (Some t) ->
  exists r, t = mergeTemplates r leaf.
Proof.
  intros Hleaf. revert resolved.
  induction ids as [|x ids IH]; intros resolved Hne; simpl.
  - destruct Hne as [?|[r ->]]; [done|]. rewrite Hleaf. simpl.
    intros [= <-]. eauto.
  - destruct (getter x) as [current|]; [|done].
    destruct resolved as [r|]; apply IH; right; eauto.
Qed.

Lemma mergeTemplates_has_variables p c :
  is_Some (ContentTypes.variables (mergeTemplates p c)).
Proof. unfold mergeTemplates. destruct (_ || _); simpl; eauto. Qed.

(** The template resolved for an id that has a parent is a merge. *)
Lemma resolveTemplate_inherited_merged templates tid leaf t st' :
  templates !! tid = Some leaf ->
  truthy (parent leaf) = true ->
  resolveTemplate (chain_fuel templates)
    (resolver ∅ (store_getter templates)) tid = (Return t, st') ->
  exists r, t = mergeTemplates r leaf.
Proof.
  intros Hleaf Hparent.
  rewrite (resolveTemplate_with_parent _ _ _ _ leaf)
    by (done || apply lookup_empty).
  pose proof (getInheritanceChain_store templates ∅ tid) as Hchain.
  cbv zeta in Hchain.
  destruct (getInheritanceChain (chain_fuel templates)
              (resolver ∅ (store_getter templates)) tid)
    as [chain|e|]; [|done..].
  destruct Hchain as (c & -> & _ & _ & lc & root & Hroot & Hnone).
  destruct (merge_chain (store_getter templates) (reverse (tid :: c)) None)
    as [[resolved|]|e|] eqn:Hmerge; [|done..].
  intros [= <- <-]. rewrite reverse_cons in Hmerge.
  apply (merge_chain_merged _ _ _ leaf) in Hmerge; [done|done|].
  left. destruct c as [|p c]; [|by rewrite reverse_cons; destruct (reverse c)].
  exfalso. destruct lc as [|x lc].
  - injection Hroot as <-. unfold parent_of, store_getter in Hnone.
    rewrite Hleaf, Hparent in Hnone. by destruct (parent leaf).
  - injection Hroot as _ Hroot. by destruct lc.
Qed.

Lemma resolveTemplate_inherited_variables templates cache tid leaf t st' :
  cache_sound templates cache ->
  templates !! tid = Some leaf ->
  truthy (parent leaf) = true ->
  resolveTemplate (chain_fuel templates)
    (resolver cache (store_getter templates)) tid = (Return t, st') ->
  is_Some (ContentTypes.variables t).
Proof.
  intros Hsound Hleaf Hparent Hres.
  assert (Hempty : exists st0,
    resolveTemplate (chain_fuel templates)
      (resolver ∅ (store_getter templates)) tid = (Return t, st0)).
  { destruct (cache !! tid) as [cached|] eqn:Hlookup.
    - rewrite (resolveTemplate_hit _ _ _ _ _ Hlookup) in Hres.
      injection Hres as <- <-.
      apply Hsound in Hlookup. unfold resolved_from_store in Hlookup.
      destruct (resolveTemplate (chain_fuel templates)
                  (resolver ∅ (store_getter templates)) tid) as [r st0].
      simpl in Hlookup. subst r. eauto.
    - pose proof (resolveTemplate_miss (chain_fuel templates) cache
                    (store_getter templates) tid Hlookup) as Hmiss.
      rewrite Hres in Hmiss. simpl in Hmiss.
      destruct (resolveTemplate (chain_fuel templates)
                  (resolver ∅ (store_getter templates)) tid) as [r st0].
      simpl in Hmiss. subst r. eauto. }
  destruct Hempty as [st0 Hempty].
  destruct (resolveTemplate_inherited_merged _ _ _ _ _ Hleaf Hparent Hempty)
    as [r ->].
  apply mergeTemplates_has_variables.
Qed.

(** X20: [renderTemplate] answers a text exactly when [getTemplate] answers
    a template, the validation of the environment against it returns and
    passes, and [render] returns that text for the content of the template;
    every required variable of the template then resolves.  For an id that
    the store does not hold it fails and leaves the cache as it is. *)
Theorem renderTemplate_renders_only_valid fuel turns templates cache
    templateId variables :
  (templates !! templateId = None ->
   renderTemplate host fuel turns templates cache templateId variables
   = (Failed (TemplateMissing templateId), cache))
  /\ (forall text cache',
        renderTemplate host fuel turns templates cache templateId variables
        = (Rendered text, cache')
        <-> exists template result,
              getTemplate fuel templates cache templateId
              = (Return (Some template), cache')
              /\ validateVariables host template variables = Normal result
              /\ valid result = true
              /\ render turns (content template) variables = Some text)
  /\ (forall text cache',
        renderTemplate host fuel turns templates cache templateId variables
        = (Rendered text, cache') ->
        exists template,
          getTemplate fuel templates cache templateId
          = (Return (Some template), cache')
          /\ forall varDef,
               varDef ∈ default [] (ContentTypes.variables template) ->
               var_required varDef = true ->
               getNestedValue variables (var_name varDef) <> VUndefined).
Proof.
  assert (Hiff : forall text cache',
    renderTemplate host fuel turns templates cache templateId variables
    = (Rendered text, cache')
    <-> exists template result,
          getTemplate fuel templates cache templateId
          = (Return (Some template), cache')
          /\ validateVariables host template variables = Normal result
          /\ valid result = true
          /\ render turns (content template) variables = Some text).
  { intros text cache'. unfold renderTemplate. split.
    - destruct (getTemplate fuel templates cache templateId)
        as [[[template|]|e|] cache0]; [|done..].
      destruct (validateVariables host template variables)
        as [result|ex] eqn:Hv; [|done].
      destruct (valid result) eqn:Hvalid; [|done]. simpl.
      destruct (render turns (content template) variables) as [rendered|]
        eqn:Hr; [|done].
      intros [= <- <-]. by exists template, result.
    - intros (template & result & -> & -> & -> & ->). done. }
  split; [|split; [exact Hiff|]].
  - intros Hnone. unfold renderTemplate, getTemplate. by rewrite Hnone.
  - intros text cache' (template & result & Hget & Hv & Hvalid & _)%Hiff.
    exists template. split; [done|].
    by apply (validateVariables_valid_required host _ _ result).
Qed.

(** X21: a stored template without a parent and without a list of variables
    is never rendered: the validation throws on it, whatever the environment.
    A stored template with a parent never fails this way, since a merge
    always carries a list. *)
Theorem renderTemplate_variable_list turns templates cache templateId
    template variables :
  cache_sound templates cache ->
  templates !! templateId = Some template ->
  (truthy (parent template) = false ->
   ContentTypes.variables template = None ->
   renderTemplate host (chain_fuel templates) turns templates cache
     templateId variables
   = (Failed (Validation NotIterable), cache))
  /\ (truthy (parent template) = true ->
      fst (renderTemplate host (chain_fuel templates) turns templates cache
             templateId variables)
      <> Failed (Validation NotIterable)).
Proof.
  intros Hsound Hstored. split.
  - intros Hparent Hnone. unfold renderTemplate, getTemplate.
    rewrite Hstored, Hparent. unfold validateVariables. by rewrite Hnone.
  - intros Hparent. unfold renderTemplate, getTemplate.
    rewrite Hstored, Hparent.
    destruct (resolveTemplate (chain_fuel templates)
                (resolver cache (store_getter templates)) templateId)
      as [[t|e|] st'] eqn:Hres; [|done..].
    destruct (resolveTemplate_inherited_variables _ _ _ _ _ _
                Hsound Hstored Hparent Hres) as [defs Hdefs].
    unfold validateVariables. rewrite Hdefs.
    destruct (validate_definitions host variables defs []) as [errs|ex] eqn:He.
    + simpl. destruct (negb _); [done|].
      by destruct (render turns (content t) variables).
    + simpl. intros [= ->].
      apply validate_definitions_abrupt in He as (d & _ & Hd).
      by apply validate_definition_abrupt in Hd as (? & ? & ? & _ & _ & _ & _ & _ & ?).
Qed.

End RenderTemplate.

Lemma renderTemplate_renders_only_valid_witness :
  renderTemplate sample_host 0 3 greeting_store ∅ "greeting"
    [("name", VStr "Jo")]
  = (Rendered "Hi Jo", ∅)
  /\ exists template,
       getTemplate 0 greeting_store ∅ "greeting" = (Return (Some template), ∅)
       /\ forall varDef,
            varDef ∈ default [] (ContentTypes.variables template) ->
            var_required varDef = true ->
            getNestedValue [("name", VStr "Jo")] (var_name varDef)
            <> VUndefined.
Proof.
  assert (H : renderTemplate sample_host 0 3 greeting_store ∅ "greeting"
                [("name", VStr "Jo")]
              = (Rendered "Hi Jo", ∅)) by reflexivity.
  split; [exact H|].
  exact (proj2 (proj2 (renderTemplate_renders_only_valid sample_host 0 3
                         greeting_store ∅ "greeting" [("name", VStr "Jo")]))
           _ _ H).
Defined.

Lemma renderTemplate_variable_list_witness :
  renderTemplate sample_host (chain_fuel family_store) 3 family_store ∅
    "base" []
  = (Failed (Validation NotIterable), ∅)
  /\ fst (renderTemplate sample_host (chain_fuel family_store) 3 family_store
            ∅ "child" [])
     <> Failed (Validation NotIterable).
Proof.
  split.
  - apply (proj1 (renderTemplate_variable_list sample_host 3 family_store ∅
                    "base" (sample_template "base" "BASE" None) []
                    (cache_sound_empty _) eq_refl));
      reflexivity.
  - apply (proj2 (renderTemplate_variable_list sample_host 3 family_store ∅
                    "child"
                    (sample_template "child"
                       ("{{> parent}}" +:+ String "010" "EXTRA")
                       (Some "base")) []
                    (cache_sound_empty _) eq_refl)).
    reflexivity.
Defined.

(** ** The expansion of a loop *)

Section LoopExpansion.
Variable this_render : string -> record -> option string.

Lemma drop_app_length a b : drop (String.length a) (a +:+ b) = b.
Proof. induction a as [|c a IH]; [apply drop_0|]. by rewrite append_cons. Qed.

Lemma drop_add n m s : drop (n + m) s = drop m (drop n s).
Proof.
  revert s. induction n as [|n IH]; intros s; [by rewrite drop_0|].
  destruct s as [|c s]; [by destruct m|]. simpl. apply IH.
Qed.

Lemma substring_0_app a b : substring 0 (String.length a) (a +:+ b) = a.
Proof.
  induction a as [|c a IH]; [by destruct b|].
  rewrite append_cons. simpl. by rewrite IH.
Qed.

Lemma slice_middle a b c :
  slice (a +:+ b +:+ c) (String.length a) (String.length a + String.length b)
  = b.
Proof.
  unfold slice.
  replace (String.length a + String.length b - String.length a)
    with (String.length b) by lia.
  rewrite <- (Nat.add_0_r (String.length a)) at 1.
  rewrite substring_drop, drop_app_length. apply substring_0_app.
Qed.

Lemma strip_prefix_self pat r : strip_prefix pat (pat +:+ r) = Some r.
Proof.
  induction pat as [|c pat IH]; [done|]. rewrite append_cons. simpl.
  by rewrite Ascii.eqb_refl.
Qed.

(** The first occurrence of a pattern after a text that does not hold its
    first character. *)
Lemma find_after c pat s r :
  all_chars (fun x => negb (Ascii.eqb c x)) s = true ->
  find (String c pat) (s +:+ String c pat +:+ r) = Some (String.length s).
Proof.
  induction s as [|x s IH]; intros Hs.
  - rewrite append_nil_l.
    pose proof (strip_prefix_self (String c pat) r) as Hself.
    destruct (String c pat +:+ r) eqn:Hr; cbn [find]; by rewrite Hself.
  - simpl in Hs. apply andb_prop in Hs as [Hx Hs].
    rewrite append_cons. cbn [find strip_prefix].
    apply negb_true_iff in Hx. rewrite Hx, (IH Hs). done.
Qed.

Lemma all_chars_app f a b :
  all_chars f (a +:+ b) = all_chars f a && all_chars f b.
Proof.
  induction a as [|c a IH]; [done|]. rewrite append_cons. simpl.
  by rewrite IH, andb_assoc.
Qed.

Lemma word_is_path_char c : is_word c = true -> is_path_char c = true.
Proof. by destruct c as [[] [] [] [] [] [] [] []]. Qed.

Lemma path_char_not_closing c :
  is_path_char c = true -> negb (Ascii.eqb "}" c) = true.
Proof. by destruct c as [[] [] [] [] [] [] [] []]. Qed.

Lemma word_not_space c : is_word c = true -> is_space c = false.
Proof. by destruct c as [[] [] [] [] [] [] [] []]. Qed.

(** The header match of [processLoops] on a header as it is written. *)
Lemma match_header_plain arrayVar itemName :
  arrayVar <> "" -> all_chars is_path_char arrayVar = true ->
  itemName <> "" -> all_chars is_word itemName = true ->
  match_header (" " +:+ arrayVar +:+ " as " +:+ itemName)
  = Some (arrayVar, itemName).
Proof.
  intros Ha1 Ha2 Hi1 Hi2.
  assert (H1 : span is_space (" " +:+ arrayVar +:+ " as " +:+ itemName)
               = (" ", arrayVar +:+ " as " +:+ itemName)).
  { apply (span_all is_space " "); [done|].
    destruct arrayVar as [|c a]; [done|]. rewrite append_cons. simpl in Ha2.
    apply andb_prop in Ha2 as [Hc _]. by apply path_char_not_space. }
  assert (H2 : span is_path_char (arrayVar +:+ " as " +:+ itemName)
               = (arrayVar, " as " +:+ itemName))
    by (by apply span_all).
  assert (H3 : span is_space (" as " +:+ itemName) = (" ", "as " +:+ itemName))
    by (by apply (span_all is_space " ")).
  assert (H4 : span is_space (" " +:+ itemName) = (" ", itemName)).
  { apply (span_all is_space " "); [done|].
    destruct itemName as [|c i]; [done|]. simpl in Hi2.
    apply andb_prop in Hi2 as [Hc _]. by apply word_not_space. }
  assert (H5 : span is_word itemName = (itemName, "")).
  { rewrite <- (append_nil_r itemName) at 1. by apply span_all. }
  assert (Hh : loop_header (" " +:+ arrayVar +:+ " as " +:+ itemName)
               = Some (arrayVar, itemName, "",
                       1 + String.length arrayVar + 1 + 2 + 1
                       + String.length itemName)).
  { unfold loop_header. rewrite H1. simpl String.eqb. cbv iota.
    rewrite H2.
    replace (String.eqb arrayVar "") with false
      by (symmetry; by apply String.eqb_neq).
    rewrite H3. simpl String.eqb. cbv iota.
    change (strip_prefix "as" ("as " +:+ itemName)) with (Some (" " +:+ itemName)).
    cbn [mbind option_bind]. rewrite H4. simpl String.eqb. cbv iota.
    rewrite H5.
    replace (String.eqb itemName "") with false
      by (symmetry; by apply String.eqb_neq).
    done. }
  change (" " +:+ arrayVar +:+ " as " +:+ itemName)
    with (String " " (arrayVar +:+ " as " +:+ itemName)) in *.
  cbn [match_header]. by rewrite Hh.
Qed.

Lemma render_items_outs content variables itemName items outs result :
  Forall2 (fun item out =>
             this_render content (set_field variables itemName item) = Some out)
    items outs ->
  render_items this_render content variables itemName items result
  = Some (result +:+ String.concat "" outs).
Proof.
  intros Hall. revert result.
  induction Hall as [|item out items outs Hout Hall IH]; intros result; simpl.
  - by rewrite append_nil_r.
  - rewrite Hout, IH. destruct outs as [|o outs].
    + simpl. by rewrite !append_nil_r.
    + by rewrite append_assoc.
Qed.

(** One turn of the loop of [processLoops] that finds a whole loop. *)
Lemma processLoops_loop_found turns t e lastPos result startMatch headerEnd
    arrayVar itemName endPos :
  indexOf "{{#each" t lastPos = Some startMatch ->
  indexOf "}}" t startMatch = Some headerEnd ->
  match_header (slice t (startMatch + 7) headerEnd)
  = Some (arrayVar, itemName) ->
  findMatchingEnd t (headerEnd + 2) = Some endPos ->
  processLoops_loop this_render (S turns) t e lastPos result
  = match render_items this_render (slice t (headerEnd + 2) (endPos - 9)) e
            itemName
            (default [] (array_items (getNestedValue e (trim arrayVar))))
            (result +:+ slice t lastPos startMatch) with
    | None => None
    | Some result' => processLoops_loop this_render turns t e endPos result'
    end.
Proof.
  intros H1 H2 H3 H4. cbn [processLoops_loop]. rewrite H1, H2, H3, H4.
  by destruct (array_items _).
Qed.

(** X22: a loop that is the only one of the template (no other opening
    marker before or after its header, and the closing marker after the body
    the first one) is replaced by the renderings of its body, one for each
    item of the list in order, each with the item bound to the item name in
    the environment; the text before and after stays.  A source that is not a
    list gives no rendering. *)
Theorem processLoops_expands_loop variables pre arrayVar itemName body post
    outs :
  let header := "{{#each " +:+ arrayVar +:+ " as " +:+ itemName +:+ "}}" in
  let rest := body +:+ "{{/each}}" +:+ post in
  let items := default [] (array_items (getNestedValue variables arrayVar)) in
  find "{{#each" (pre +:+ header +:+ rest) = Some (String.length pre) ->
  arrayVar <> "" -> all_chars is_path_char arrayVar = true ->
  itemName <> "" -> all_chars is_word itemName = true ->
  find "{{/each}}" rest = Some (String.length body) ->
  find "{{#each" rest = None ->
  Forall2 (fun item out =>
             this_render body (set_field variables itemName item) = Some out)
    items outs ->
  processLoops this_render (pre +:+ header +:+ rest) variables
  = Some (pre +:+ String.concat "" outs +:+ post).
Proof.
  intros header rest items H0 Ha1 Ha2 Hi1 Hi2 H1 H2 Houts.
  set (words := " " +:+ arrayVar +:+ " as " +:+ itemName).
  assert (Hheader : header = "{{#each" +:+ words +:+ "}}").
  { unfold header, words. rewrite <- !append_assoc. done. }
  set (t := pre +:+ header +:+ rest).
  assert (Hlen : String.length header = 7 + String.length words + 2).
  { rewrite Hheader, !length_append. simpl. lia. }
  assert (F1 : indexOf "{{#each" t 0 = Some (String.length pre)).
  { unfold indexOf. rewrite drop_0. unfold t. by rewrite H0. }
  assert (Hclosing : all_chars (fun x => negb (Ascii.eqb "}" x))
                       ("{{#each" +:+ words) = true).
  { unfold words. rewrite !all_chars_app.
    rewrite (all_chars_impl _ _ _ path_char_not_closing Ha2).
    rewrite (all_chars_impl is_word _ itemName); [done| |done].
    intros c Hc. by apply path_char_not_closing, word_is_path_char. }
  assert (F3 : indexOf "}}" t (String.length pre)
               = Some (String.length pre + (7 + String.length words))).
  { unfold indexOf, t. rewrite drop_app_length, Hheader.
    replace (("{{#each" +:+ words +:+ "}}") +:+ rest)
      with (("{{#each" +:+ words) +:+ "}}" +:+ rest)
      by (by rewrite !append_assoc).
    rewrite (find_after "}" "}" _ rest Hclosing).
    rewrite length_append. done. }
  assert (F4 : slice t (String.length pre + 7)
                 (String.length pre + (7 + String.length words)) = words).
  { unfold t. rewrite Hheader.
    replace (pre +:+ ("{{#each" +:+ words +:+ "}}") +:+ rest)
      with ((pre +:+ "{{#each") +:+ words +:+ "}}" +:+ rest)
      by (by rewrite !append_assoc).
    replace (String.length pre + 7) with (String.length (pre +:+ "{{#each"))
      by (by rewrite length_append).
    replace (String.length pre + (7 + String.length words))
      with (String.length (pre +:+ "{{#each") + String.length words)
      by (rewrite length_append; simpl; lia).
    apply slice_middle. }
  assert (F5 : match_header
                 (slice t (String.length pre + 7)
                    (String.length pre + (7 + String.length words)))
               = Some (arrayVar, itemName))
    by (rewrite F4; by apply match_header_plain).
  set (contentStart := String.length pre + (7 + String.length words) + 2).
  assert (Hstart : contentStart = String.length (pre +:+ header)).
  { unfold contentStart. rewrite length_append, Hlen. lia. }
  assert (F6 : drop contentStart t = rest).
  { rewrite Hstart. unfold t. rewrite <- append_assoc. apply drop_app_length. }
  assert (Hrest : String.length body + 9 <= String.length rest)
    by (by apply find_bound in H1).
  assert (Ht : String.length t = contentStart + String.length rest).
  { rewrite Hstart. unfold t. by rewrite <- append_assoc, length_append. }
  assert (F7 : findMatchingEnd t contentStart
               = Some (contentStart + String.length body + 9)).
  { unfold findMatchingEnd. cbn [findMatchingEnd_loop].
    replace (contentStart <? String.length t) with true
      by (symmetry; apply Nat.ltb_lt; lia).
    unfold indexOf. rewrite F6, H1, H2. done. }
  assert (F8 : slice t contentStart (contentStart + String.length body + 9 - 9)
               = body).
  { replace (contentStart + String.length body + 9 - 9)
      with (contentStart + String.length body) by lia.
    rewrite Hstart. unfold t, rest. rewrite <- append_assoc.
    apply slice_middle. }
  assert (F9 : slice t 0 (String.length pre) = pre).
  { unfold slice, t. rewrite Nat.sub_0_r. apply substring_0_app. }
  assert (F10 : drop (contentStart + String.length body + 9) t = post).
  { rewrite <- Nat.add_assoc, drop_add, F6. unfold rest.
    replace (body +:+ "{{/each}}" +:+ post)
      with ((body +:+ "{{/each}}") +:+ post) by (by rewrite append_assoc).
    replace (String.length body + 9)
      with (String.length (body +:+ "{{/each}}"))
      by (by rewrite length_append).
    apply drop_app_length. }
  assert (F11 : indexOf "{{#each" t (contentStart + String.length body + 9)
                = None).
  { unfold indexOf. rewrite <- Nat.add_assoc, drop_add, F6.
    by rewrite (find_None_drop _ _ _ H2). }
  unfold processLoops.
  destruct (String.length t) as [|n] eqn:Hn; [lia|].
  rewrite (processLoops_loop_found _ _ _ _ _ _ _ _ _ _ F1 F3 F5 F7).
  fold contentStart. rewrite F8, F9, trim_path by done.
  rewrite (render_items_outs _ _ _ _ outs) by exact Houts.
  rewrite processLoops_loop_no_opening by exact F11.
  unfold slice_from. rewrite F10, append_nil_l. by rewrite append_assoc.
Qed.

End LoopExpansion.

Lemma processLoops_expands_loop_witness :
  processLoops (render 3) "<{{#each xs as x}}[{{x}}]{{/each}}>"
    [("xs", VList [VStr "a"; VStr "b"])]
  = Some "<[a][b]>".
Proof.
  apply (processLoops_expands_loop (render 3)
           [("xs", VList [VStr "a"; VStr "b"])] "<" "xs" "x" "[{{x}}]" ">"
           ["[a]"; "[b]"]);
    try reflexivity; try discriminate.
  repeat constructor.
Defined.

(** ** One reference, one conditional *)

Section Replacements.
Context {A : Type} (matcher : string -> string -> option (nat * A)).
Variable emit : A -> string.

(** The length of a match and the text put in its place do not depend on
    what lies before the position the pattern is tried at. *)
Hypothesis matcher_forward :
  forall b b' rest,
    (fun '(len, a) => (len, emit a)) <$> matcher b rest
    = (fun '(len, a) => (len, emit a)) <$> matcher b' rest.

Lemma replace_scan_before b b' s skip :
  replace_scan matcher emit b s skip = replace_scan matcher emit b' s skip.
Proof.
  revert b b' skip. induction s as [|c s IH]; intros b b' skip; [done|].
  simpl. destruct skip as [|k]; [|apply IH].
  pose proof (matcher_forward b b' (String c s)) as Hm.
  destruct (matcher b (String c s)) as [[len a]|],
           (matcher b' (String c s)) as [[len' a']|]; try done.
  - injection Hm as -> ->. f_equal. apply IH.
  - f_equal. apply IH.
Qed.

Lemma replace_scan_skip b x y :
  replace_scan matcher emit b (x +:+ y) (String.length x)
  = replace_all matcher emit y.
Proof.
  revert b. induction x as [|c x IH]; intros b.
  - rewrite append_nil_l. apply replace_scan_before.
  - rewrite append_cons. simpl. apply IH.
Qed.

(** A text on whose characters the pattern cannot start is copied. *)
Lemma replace_scan_copy (f : ascii -> bool) b pre s :
  (forall b c rest, f c = true -> matcher b (String c rest) = None) ->
  all_chars f pre = true ->
  replace_scan matcher emit b (pre +:+ s) 0
  = pre +:+ replace_all matcher emit s.
Proof.
  intros Hf. revert b. induction pre as [|c pre IH]; intros b Hpre.
  - rewrite !append_nil_l. apply replace_scan_before.
  - simpl in Hpre. apply andb_prop in Hpre as [Hc Hpre].
    rewrite !append_cons. cbn [replace_scan]. rewrite (Hf _ _ _ Hc).
    by rewrite IH.
Qed.

(** The scan at a match: what the match yields, then on after the match. *)
Lemma replace_scan_at b matched post a :
  matched <> "" ->
  matcher b (matched +:+ post) = Some (String.length matched, a) ->
  replace_scan matcher emit b (matched +:+ post) 0
  = emit a +:+ replace_all matcher emit post.
Proof.
  intros Hne Hm. destruct matched as [|c x]; [done|].
  rewrite append_cons in *. rewrite (replace_scan_matched _ _ _ _ _ _ _ Hm).
  simpl. rewrite Nat.sub_0_r. by rewrite replace_scan_skip.
Qed.

End Replacements.

Section OneReference.

Lemma variablePattern_forward (emit : string -> string) b b' rest :
  (fun '(len, a) => (len, emit a)) <$> variablePattern b rest
  = (fun '(len, a) => (len, emit a)) <$> variablePattern b' rest.
Proof. reflexivity. Qed.

Lemma conditionalPattern_forward (emit : string * string -> string) b b' rest :
  (fun '(len, a) => (len, emit a)) <$> conditionalPattern b rest
  = (fun '(len, a) => (len, emit a)) <$> conditionalPattern b' rest.
Proof. reflexivity. Qed.

Lemma not_opening_no_variable b c rest :
  negb (Ascii.eqb "{" c) = true -> variablePattern b (String c rest) = None.
Proof.
  intros Hc. apply negb_true_iff in Hc. unfold variablePattern.
  cbn [strip_prefix]. by rewrite Hc.
Qed.

Lemma not_opening_no_conditional b c rest :
  negb (Ascii.eqb "{" c) = true -> conditionalPattern b (String c rest) = None.
Proof.
  intros Hc. apply negb_true_iff in Hc. unfold conditionalPattern.
  cbn [strip_prefix]. by rewrite Hc.
Qed.

Lemma head_not f (s rest : string) (g : ascii -> bool) :
  s <> "" -> all_chars g s = true -> (forall c, g c = true -> f c = false) ->
  match s +:+ rest with String c _ => f c = false | "" => True end.
Proof.
  intros Hne Hs Hg. destruct s as [|c s]; [done|]. rewrite append_cons.
  simpl in Hs. apply andb_prop in Hs as [Hc _]. by apply Hg.
Qed.

Lemma space_not_path_char c : is_space c = true -> is_path_char c = false.
Proof. by destruct c as [[] [] [] [] [] [] [] []]. Qed.

(** The variable pattern on a reference as it is written, padded or not. *)
Lemma variablePattern_reference b ws1 path ws2 post :
  all_chars is_space ws1 = true -> all_chars is_space ws2 = true ->
  path <> "" -> all_chars is_path_char path = true ->
  variablePattern b ("{{" +:+ ws1 +:+ path +:+ ws2 +:+ "}}" +:+ post)
  = Some (String.length ("{{" +:+ ws1 +:+ path +:+ ws2 +:+ "}}"),
          ws1 +:+ path +:+ ws2).
Proof.
  intros H1 H2 Hne Hpath.
  assert (S1 : span is_space (ws1 +:+ path +:+ ws2 +:+ "}}" +:+ post)
               = (ws1, path +:+ ws2 +:+ "}}" +:+ post)).
  { apply span_all; [done|].
    apply (head_not _ _ _ is_path_char); [done..|].
    apply path_char_not_space. }
  assert (S2 : span is_path_char (path +:+ ws2 +:+ "}}" +:+ post)
               = (path, ws2 +:+ "}}" +:+ post)).
  { apply span_all; [done|]. destruct ws2 as [|c ws2]; [done|].
    rewrite append_cons. simpl in H2. apply andb_prop in H2 as [Hc _].
    by apply space_not_path_char. }
  assert (S3 : span is_space (ws2 +:+ "}}" +:+ post) = (ws2, "}}" +:+ post))
    by (by apply span_all).
  unfold variablePattern.
  change (strip_prefix "{{" ("{{" +:+ ws1 +:+ path +:+ ws2 +:+ "}}" +:+ post))
    with (Some (ws1 +:+ path +:+ ws2 +:+ "}}" +:+ post)).
  cbn [mbind option_bind]. rewrite S1, S2.
  replace (String.eqb path "") with false
    by (symmetry; by apply String.eqb_neq).
  rewrite S3.
  change (strip_prefix "}}" ("}}" +:+ post)) with (Some post).
  cbn [mbind option_bind]. do 2 f_equal.
  rewrite !length_append. simpl. lia.
Qed.

(** A replacement of the matches of the variable pattern, at the first
    reference of a text. *)
Lemma replace_first_reference emit pre ws1 path ws2 post :
  all_chars (fun c => negb (Ascii.eqb "{" c)) pre = true ->
  all_chars is_space ws1 = true -> all_chars is_space ws2 = true ->
  path <> "" -> all_chars is_path_char path = true ->
  replace_all variablePattern emit
    (pre +:+ "{{" +:+ ws1 +:+ path +:+ ws2 +:+ "}}" +:+ post)
  = pre +:+ emit (ws1 +:+ path +:+ ws2)
    +:+ replace_all variablePattern emit post.
Proof.
  intros Hpre H1 H2 Hne Hpath. unfold replace_all at 1.
  rewrite (replace_scan_copy _ _ (variablePattern_forward _) _ _ _ _
             not_opening_no_variable Hpre).
  f_equal. unfold replace_all at 1.
  replace ("{{" +:+ ws1 +:+ path +:+ ws2 +:+ "}}" +:+ post)
    with (("{{" +:+ ws1 +:+ path +:+ ws2 +:+ "}}") +:+ post)
    by (by rewrite !append_assoc).
  apply (replace_scan_at _ _ (variablePattern_forward _)).
  - done.
  - rewrite <- (variablePattern_reference "" ws1 path ws2 post) by done.
    by rewrite !append_assoc.
Qed.

(** X23: [processVariables] copies the text before the first reference,
    puts the text of the value in the place of the reference (nothing when
    the path resolves to undefined), whatever the padding inside the braces,
    and goes on after it: the value is not scanned again in this pass.  The
    value is one that prints: [String] returns on it, and returns what
    [to_string] prints. *)
Theorem processVariables_substitutes variables pre ws1 path ws2 post :
  all_chars (fun c => negb (Ascii.eqb "{" c)) pre = true ->
  all_chars is_space ws1 = true -> all_chars is_space ws2 = true ->
  path <> "" -> all_chars is_path_char path = true ->
  printable (getNestedValue variables path) = true ->
  processVariables
    (pre +:+ "{{" +:+ ws1 +:+ path +:+ ws2 +:+ "}}" +:+ post) variables
  = pre
    +:+ match getNestedValue variables path with
        | VUndefined => ""
        | v => to_string v
        end
    +:+ processVariables post variables.
Proof.
  intros Hpre H1 H2 Hne Hpath _. unfold processVariables.
  rewrite replace_first_reference by done.
  rewrite trim_padded by done.
  by destruct (getNestedValue variables path).
Qed.

Lemma processVariables_substitutes_witness :
  processVariables "Hi {{ user.name }}, {{id}}"
    [("user", VMap [("name", VStr "{{id}}")])]
  = "Hi "
    +:+ "{{id}}"
    +:+ processVariables ", {{id}}" [("user", VMap [("name", VStr "{{id}}")])].
Proof.
  apply (processVariables_substitutes
           [("user", VMap [("name", VStr "{{id}}")])]
           "Hi " " " "user.name" " " ", {{id}}");
    try reflexivity.
  discriminate.
Defined.

(** The conditional pattern on a block as it is written. *)
Lemma conditionalPattern_block b ws condition body post :
  ws <> "" -> all_chars is_space ws = true ->
  condition <> "" -> all_chars is_path_char condition = true ->
  find "{{/if}}" (body +:+ "{{/if}}" +:+ post) = Some (String.length body) ->
  conditionalPattern b
    ("{{#if" +:+ ws +:+ condition +:+ "}}" +:+ body +:+ "{{/if}}" +:+ post)
  = Some (String.length
            ("{{#if" +:+ ws +:+ condition +:+ "}}" +:+ body +:+ "{{/if}}"),
          (condition, body)).
Proof.
  intros Hws1 Hws2 Hne Hpath Hfind.
  set (rest := body +:+ "{{/if}}" +:+ post) in *.
  assert (S1 : span is_space (ws +:+ condition +:+ "}}" +:+ rest)
               = (ws, condition +:+ "}}" +:+ rest)).
  { apply span_all; [done|].
    apply (head_not _ _ _ is_path_char); [done..|].
    apply path_char_not_space. }
  assert (S2 : span is_path_char (condition +:+ "}}" +:+ rest)
               = (condition, "}}" +:+ rest))
    by (by apply span_all).
  unfold conditionalPattern.
  change (strip_prefix "{{#if" ("{{#if" +:+ ws +:+ condition +:+ "}}" +:+ rest))
    with (Some (ws +:+ condition +:+ "}}" +:+ rest)).
  cbn [mbind option_bind]. rewrite S1.
  replace (String.eqb ws "") with false
    by (symmetry; by apply String.eqb_neq).
  rewrite S2.
  replace (String.eqb condition "") with false
    by (symmetry; by apply String.eqb_neq).
  change (strip_prefix "}}" ("}}" +:+ rest)) with (Some rest).
  cbn [mbind option_bind]. rewrite Hfind. cbn [mbind option_bind].
  unfold rest. rewrite substring_0_app. do 2 f_equal.
  rewrite !length_append. simpl. lia.
Qed.

(** X24: [processConditionals] copies the text before the first block,
    puts the body in the place of the block when the condition resolves to a
    truthy value and nothing otherwise, and goes on after the first closing
    marker: the body is the text up to that marker and is not scanned in this
    pass. *)
Theorem processConditionals_selects variables pre ws condition body post :
  all_chars (fun c => negb (Ascii.eqb "{" c)) pre = true ->
  ws <> "" -> all_chars is_space ws = true ->
  condition <> "" -> all_chars is_path_char condition = true ->
  find "{{/if}}" (body +:+ "{{/if}}" +:+ post) = Some (String.length body) ->
  processConditionals
    (pre +:+ "{{#if" +:+ ws +:+ condition +:+ "}}" +:+ body +:+ "{{/if}}"
     +:+ post) variables
  = pre
    +:+ (if isTruthy (getNestedValue variables condition) then body else "")
    +:+ processConditionals post variables.
Proof.
  intros Hpre Hws1 Hws2 Hne Hpath Hfind.
  unfold processConditionals at 1, replace_all.
  rewrite (replace_scan_copy _ _ (conditionalPattern_forward _) _ _ _ _
             not_opening_no_conditional Hpre).
  f_equal. unfold replace_all.
  replace ("{{#if" +:+ ws +:+ condition +:+ "}}" +:+ body +:+ "{{/if}}"
           +:+ post)
    with (("{{#if" +:+ ws +:+ condition +:+ "}}" +:+ body +:+ "{{/if}}")
          +:+ post)
    by (by rewrite !append_assoc).
  rewrite (replace_scan_at _ _ (conditionalPattern_forward _) _ _ _
             (condition, body)).
  - by rewrite trim_path.
  - done.
  - rewrite <- (conditionalPattern_block "" ws condition body post) by done.
    by rewrite !append_assoc.
Qed.

Lemma processConditionals_selects_witness :
  processConditionals "a{{#if on}}{{#if off}}X{{/if}}Y{{/if}}"
    [("on", VBool true)]
  = "a"
    +:+ "{{#if off}}X"
    +:+ processConditionals "Y{{/if}}" [("on", VBool true)].
Proof.
  apply (processConditionals_selects [("on", VBool true)]
           "a" " " "on" "{{#if off}}X" "Y{{/if}}");
    try reflexivity; discriminate.
Defined.

End OneReference.

(** ** The two validations of an environment *)

Section ValidatorsAgree.
Variable host : Host.

Lemma getNestedValue_plain_name values n :
  all_chars (fun c => negb (Ascii.eqb c ".")) n = true ->
  getNestedValue values n = get_property (VMap values) n.
Proof.
  intros Hdot. unfold getNestedValue. rewrite split_no_dot by done.
  cbn [getNestedValue_parts to_boolean typeof]. simpl String.eqb.
  unfold has_property, get_property.
  by destruct (property (VMap values) n).
Qed.

Lemma validateType_agree v type :
  mem (type_name type) ContentValidator.validTypes = true ->
  v <> VNum NaN ->
  validateType host v type = ContentValidator.validateVariableType host v type.
Proof.
  intros Hknown Hnan.
  unfold validateType, ContentValidator.validateVariableType. cbv zeta.
  unfold mem, ContentValidator.validTypes in Hknown.
  cbn [existsb] in Hknown.
  destruct (String.eqb (type_name type) "string"); [done|].
  destruct (String.eqb (type_name type) "number").
  { destruct v as [| | |n| | | | |]; try done. by destruct n. }
  destruct (String.eqb (type_name type) "boolean"); [done|].
  destruct (String.eqb (type_name type) "date"); [done|].
  destruct (String.eqb (type_name type) "array"); [done|].
  by destruct (String.eqb (type_name type) "object").
Qed.

Lemma validateValue_agree v d :
  (forall validation,
     var_validation d = Some validation -> enum validation <> Some []) ->
  match validateValue host v d,
        ContentValidator.validateVariableValue host d v with
  | Normal es1, Normal es2 => Forall2 same_report es1 es2
  | Abrupt e1, Abrupt e2 => e1 = e2
  | _, _ => False
  end.
Proof.
  intros Henum. unfold validateValue, ContentValidator.validateVariableValue.
  destruct (var_validation d) as [validation|]; [|constructor].
  specialize (Henum validation eq_refl). cbv zeta.
  set (numericErrors :=
         match v with
         | VNum n =>
             match min validation with
             | Some m =>
                 if number_lt n m then [ContentValidator.below_error d n m]
                 else []
             | None => []
             end
             ++ match max validation with
                | Some m =>
                    if number_lt m n
                    then [ContentValidator.exceeds_error d n m]
                    else []
                | None => []
                end
         | _ => []
         end).
  set (enumErrors :=
         match enum validation with
         | Some items =>
             if (0 <? length items) && negb (includes items v)
             then [ContentValidator.one_of_error d items] else []
         | None => []
         end).
  assert (Hrange : Forall2 same_report (validate_range v d validation)
                     numericErrors).
  { unfold validate_range, numericErrors. destruct v; try constructor.
    apply Forall2_app.
    - destruct (min validation) as [m|]; [|constructor].
      destruct (number_lt n m); by repeat constructor.
    - destruct (max validation) as [m|]; [|constructor].
      destruct (number_lt m n); by repeat constructor. }
  assert (Hone : Forall2 same_report (validate_enum v d validation)
                   enumErrors).
  { unfold validate_enum, enumErrors.
    destruct (enum validation) as [items|]; [|constructor].
    destruct items as [|item items]; [done|]. cbn [length Nat.ltb Nat.leb andb].
    destruct (includes (item :: items) v); by repeat constructor. }
  assert (Hrest : Forall2 same_report
                    (validate_range v d validation
                     ++ validate_enum v d validation)
                    (numericErrors ++ enumErrors))
    by (by apply Forall2_app).
  clearbody numericErrors enumErrors.
  unfold validate_pattern.
  destruct (pattern validation) as [p|]; [|exact Hrest].
  destruct v; try exact Hrest.
  destruct (String.eqb p ""); [exact Hrest|].
  destruct (RegExp_test host p s) as [[]|]; [exact Hrest| |done].
  apply Forall2_app; [by repeat constructor|exact Hrest].
Qed.

Lemma validate_definition_agree values d :
  all_chars (fun c => negb (Ascii.eqb c ".")) (var_name d) = true ->
  mem (type_name (var_type d)) ContentValidator.validTypes = true ->
  getNestedValue values (var_name d) <> VNum NaN ->
  (forall validation,
     var_validation d = Some validation -> enum validation <> Some []) ->
  match validate_definition host values d,
        ContentValidator.validate_variable host values d with
  | Normal es1, Normal es2 => Forall2 same_report es1 es2
  | Abrupt e1, Abrupt e2 => e1 = e2
  | _, _ => False
  end.
Proof.
  intros Hdot Hknown Hnan Henum.
  unfold validate_definition, ContentValidator.validate_variable. cbv zeta.
  rewrite <- (getNestedValue_plain_name values (var_name d) Hdot).
  destruct (var_required d && is_undefined _); [by repeat constructor|].
  destruct (is_undefined _); [constructor|].
  rewrite <- (validateType_agree _ _ Hknown Hnan).
  assert (Htype : Forall2 same_report
    (if validateType host (getNestedValue values (var_name d)) (var_type d)
     then [] else [type_error d])
    (if validateType host (getNestedValue values (var_name d)) (var_type d)
     then [] else [ContentValidator.incorrect_type_error d])).
  { destruct (validateType host _ _); by repeat constructor. }
  pose proof (validateValue_agree (getNestedValue values (var_name d)) d Henum)
    as Hvalue.
  destruct (var_validation d) as [validation|]; [|done].
  destruct (validateValue host _ d) as [es1|e1],
           (ContentValidator.validateVariableValue host d _) as [es2|e2];
    try done.
  by apply Forall2_app.
Qed.

Lemma validate_loops_agree values defs es1 es2 :
  (forall d, d ∈ defs ->
     all_chars (fun c => negb (Ascii.eqb c ".")) (var_name d) = true
     /\ mem (type_name (var_type d)) ContentValidator.validTypes = true
     /\ getNestedValue values (var_name d) <> VNum NaN
     /\ forall validation,
          var_validation d = Some validation -> enum validation <> Some []) ->
  Forall2 same_report es1 es2 ->
  match validate_definitions host values defs es1,
        ContentValidator.validate_variables host values defs es2 with
  | Normal r1, Normal r2 => Forall2 same_report r1 r2
  | Abrupt e1, Abrupt e2 => e1 = e2
  | _, _ => False
  end.
Proof.
  revert es1 es2. induction defs as [|d defs IH]; intros es1 es2 Hdefs Hes.
  - done.
  - destruct (Hdefs d) as (Hdot & Hknown & Hnan & Henum); [left|].
    pose proof (validate_definition_agree values d Hdot Hknown Hnan Henum)
      as Hd.
    cbn [validate_definitions ContentValidator.validate_variables].
    destruct (validate_definition host values d) as [p1|x1],
             (ContentValidator.validate_variable host values d) as [p2|x2];
      try done.
    apply IH; [|by apply Forall2_app].
    intros d' Hd'. apply Hdefs. by right.
Qed.

(** X25: the renderer and the content validator validate an environment
    alike when, for every definition, the name is free of dots, the type is
    one of the six declared types, the variable does not resolve to NaN, and
    the enumeration, if any, is not empty and holds values that print (so
    that joining them for a message cannot throw): both return or both throw
    the same exception, and when they return they agree on [valid] and report
    errors of the same paths and types in the same order; every warning of
    the validator is a warning of the renderer. *)
Theorem validators_agree template defs variables :
  ContentTypes.variables template = Some defs ->
  (forall d, d ∈ defs ->
     all_chars (fun c => negb (Ascii.eqb c ".")) (var_name d) = true
     /\ mem (type_name (var_type d)) ContentValidator.validTypes = true
     /\ getNestedValue variables (var_name d) <> VNum NaN
     /\ forall validation items,
          var_validation d = Some validation ->
          enum validation = Some items ->
          items <> [] /\ forallb printable items = true) ->
  match validateVariables host template variables,
        ContentValidator.validateVariables host defs variables with
  | Normal r1, Normal r2 =>
      valid r1 = valid r2
      /\ Forall2 same_report (errors r1) (errors r2)
      /\ (forall w, w ∈ warnings r2 ->
                    unused_warning (warn_path w) ∈ warnings r1)
  | Abrupt e1, Abrupt e2 => e1 = e2
  | _, _ => False
  end.
Proof.
  intros Hdefs Hall.
  unfold validateVariables, ContentValidator.validateVariables.
  rewrite Hdefs.
  assert (Hall' : forall d, d ∈ defs ->
     all_chars (fun c => negb (Ascii.eqb c ".")) (var_name d) = true
     /\ mem (type_name (var_type d)) ContentValidator.validTypes = true
     /\ getNestedValue variables (var_name d) <> VNum NaN
     /\ forall validation,
          var_validation d = Some validation -> enum validation <> Some []).
  { intros d Hd. destruct (Hall d Hd) as (Hdot & Hknown & Hnan & Henum).
    repeat split; [done..|].
    intros validation Hvalidation Hempty.
    by destruct (Henum validation [] Hvalidation Hempty). }
  pose proof (validate_loops_agree variables defs [] [] Hall'
                ltac:(constructor)) as Hloops.
  destruct (validate_definitions host variables defs []) as [r1|x1],
           (ContentValidator.validate_variables host variables defs [])
             as [r2|x2]; try done.
  cbn [valid errors warnings]. split; [|split; [exact Hloops|]].
  - by rewrite (Forall2_length _ _ _ Hloops).
  - intros w (key & -> & Hkey)%list_elem_of_fmap.
    apply elem_of_List_filter in Hkey as [Hundef Hkey]. simpl.
    apply list_elem_of_fmap. exists key. split; [done|].
    apply elem_of_List_filter. split; [done|].
    apply list_elem_of_fmap in Hkey as ([k v] & -> & Hkv).
    by apply (flattenKeys_top _ _ v).
Qed.

End ValidatorsAgree.

Lemma validators_agree_witness :
  validateVariables sample_host greeting [("n", VNull)]
  = Normal {| valid := false;
              errors := [missing_error (sample_variable "name" TString)];
              warnings := [unused_warning "n"] |}
  /\ ContentValidator.validateVariables sample_host
       [sample_variable "name" TString] [("n", VNull)]
     = Normal {| valid := false;
                 errors := [missing_error (sample_variable "name" TString)];
                 warnings := [ContentValidator.not_defined_warning "n"] |}
  /\ match validateVariables sample_host greeting [("n", VNull)],
           ContentValidator.validateVariables sample_host
             [sample_variable "name" TString] [("n", VNull)] with
     | Normal r1, Normal r2 =>
         valid r1 = valid r2
         /\ Forall2 same_report (errors r1) (errors r2)
         /\ (forall w, w ∈ warnings r2 ->
                       unused_warning (warn_path w) ∈ warnings r1)
     | Abrupt e1, Abrupt e2 => e1 = e2
     | _, _ => False
     end.
Proof.
  split; [reflexivity|]. split; [reflexivity|].
  apply (validators_agree sample_host greeting
           [sample_variable "name" TString] [("n", VNull)] eq_refl).
  intros d Hd. apply list_elem_of_singleton in Hd as ->.
  split; [reflexivity|]. split; [reflexivity|]. split; [discriminate|].
  discriminate.
Defined.

(** ** Rendering one reference *)

Section RenderReference.

Lemma find_no_first_char c pat s :
  all_chars (fun x => negb (Ascii.eqb c x)) s = true ->
  find (String c pat) s = None.
Proof.
  induction s as [|x s IH]; [done|]. simpl all_chars.
  intros [Hx Hs]%andb_prop. apply negb_true_iff in Hx.
  cbn [find strip_prefix]. by rewrite Hx, (IH Hs).
Qed.

(** No block opens in a text before a reference whose content starts
    neither a brace nor a number sign. *)
Lemma find_block_marker_none pre w :
  all_chars (fun x => negb (Ascii.eqb "{" x)) pre = true ->
  all_chars (fun x => negb (Ascii.eqb "{" x)) w = true ->
  match w with String c _ => Ascii.eqb "#" c = false | "" => True end ->
  find "{{#" (pre +:+ "{{" +:+ w) = None.
Proof.
  intros Hpre Hw Hhead.
  assert (Hrest : find "{{#" w = None) by (by apply find_no_first_char).
  induction pre as [|x pre IH].
  - change ("" +:+ "{{" +:+ w) with (String "{" (String "{" w)).
    destruct w as [|c w]; [done|].
    cbn [all_chars] in Hw. apply andb_prop in Hw as [Hc _].
    apply negb_true_iff in Hc.
    apply find_None_inv in Hrest as [_ Hrest].
    cbn [find strip_prefix]. by rewrite !Ascii.eqb_refl, Hhead, Hc, Hrest.
  - cbn [all_chars] in Hpre. apply andb_prop in Hpre as [Hx Hpre].
    apply negb_true_iff in Hx. rewrite append_cons.
    cbn [find strip_prefix]. by rewrite Hx, (IH Hpre).
Qed.

(** A pass over a text in which no block opens substitutes the variables. *)
Lemma pass_no_blocks this_render e t :
  find "{{#" t = None ->
  pass this_render e t = Some (processVariables t e).
Proof.
  intros H. unfold pass, processLoops.
  rewrite processLoops_loop_no_opening
    by exact (indexOf_None "{{#each" t 0 (find_None_append "{{#" "each" t H)).
  unfold slice_from. rewrite drop_0, append_nil_l.
  unfold processConditionals, replace_all.
  by rewrite (replace_scan_none conditionalPattern "{{#if");
    [|apply conditionalPattern_needs|exact (find_None_append "{{#" "if" t H)].
Qed.

Lemma space_plain c :
  is_space c = true ->
  negb (Ascii.eqb "{" c) = true /\ Ascii.eqb "#" c = false.
Proof. by destruct c as [[] [] [] [] [] [] [] []]. Qed.

Lemma path_char_plain c :
  is_path_char c = true ->
  negb (Ascii.eqb "{" c) = true /\ Ascii.eqb "#" c = false.
Proof. by destruct c as [[] [] [] [] [] [] [] []]. Qed.

(** X26: a template with one reference, in a text without opening braces,
    is rendered to the text with the value in the place of the reference
    (nothing when the path resolves to undefined), provided the value prints
    ([String] returns on it what [to_string] prints) and its text has no
    opening brace either; three units of fuel suffice. *)
Theorem render_substitutes_reference variables pre ws1 path ws2 post n :
  let plain := all_chars (fun c => negb (Ascii.eqb "{" c)) in
  let text := match getNestedValue variables path with
              | VUndefined => ""
              | v => to_string v
              end in
  plain pre = true -> plain post = true -> plain text = true ->
  all_chars is_space ws1 = true -> all_chars is_space ws2 = true ->
  path <> "" -> all_chars is_path_char path = true ->
  printable (getNestedValue variables path) = true ->
  render (3 + n)
    (pre +:+ "{{" +:+ ws1 +:+ path +:+ ws2 +:+ "}}" +:+ post) variables
  = Some (pre +:+ text +:+ post).
Proof.
  intros plain text Hpre Hpost Htext H1 H2 Hne Hpath _. subst plain.
  set (w := ws1 +:+ path +:+ ws2 +:+ "}}" +:+ post).
  set (t := pre +:+ "{{" +:+ w).
  assert (Hw : all_chars (fun c => negb (Ascii.eqb "{" c)) w = true).
  { unfold w. rewrite !all_chars_app.
    rewrite (all_chars_impl is_space _ ws1); [|apply space_plain|done].
    rewrite (all_chars_impl is_path_char _ path); [|apply path_char_plain|done].
    rewrite (all_chars_impl is_space _ ws2); [|apply space_plain|done].
    by rewrite Hpost. }
  assert (Hhead : match w with
                  | String c _ => Ascii.eqb "#" c = false
                  | "" => True
                  end).
  { unfold w. destruct ws1 as [|c ws1].
    - rewrite append_nil_l. destruct path as [|c path]; [done|].
      rewrite append_cons. simpl in Hpath.
      apply andb_prop in Hpath as [Hc _]. by apply path_char_plain.
    - rewrite append_cons. simpl in H1.
      apply andb_prop in H1 as [Hc _]. by apply space_plain. }
  assert (Hblocks : find "{{#" t = None)
    by (by apply find_block_marker_none).
  assert (Hafter : processVariables post variables = post).
  { unfold processVariables, replace_all.
    apply (replace_scan_none variablePattern "{{");
      [apply variablePattern_needs|by apply find_no_first_char]. }
  assert (Hpass : forall r, pass r variables t = Some (pre +:+ text +:+ post)).
  { intros r. rewrite pass_no_blocks by done. f_equal.
    unfold processVariables. unfold t, w.
    rewrite replace_first_reference by done.
    rewrite trim_padded by done. fold (processVariables post variables).
    rewrite Hafter. unfold text.
    by destruct (getNestedValue variables path). }
  assert (Hplain : find "{{" (pre +:+ text +:+ post) = None).
  { apply find_no_first_char. rewrite !all_chars_app.
    by rewrite Hpre, Htext, Hpost. }
  assert (Hclean : cleanup (pre +:+ text +:+ post) = pre +:+ text +:+ post).
  { unfold cleanup, replace_all.
    by apply (replace_scan_none variablePattern "{{");
      [apply variablePattern_needs|]. }
  apply (render_mono 3); [lia|].
  rewrite render_stable_text. unfold stable_text.
  rewrite until_stable_step.
  destruct (String.eqb_spec t "") as [Ht|_].
  { exfalso. unfold t in Ht. by destruct pre. }
  rewrite Hpass, until_stable_step.
  destruct (String.eqb (pre +:+ text +:+ post) t).
  - simpl. by rewrite Hclean.
  - rewrite pass_plain by done. rewrite until_stable_same. simpl.
    by rewrite Hclean.
Qed.

End RenderReference.

Lemma render_substitutes_reference_witness :
  render 3 "Dear {{ user.name }}!" [("user", VMap [("name", VStr "Jo")])]
  = Some "Dear Jo!".
Proof.
  apply (render_substitutes_reference
           [("user", VMap [("name", VStr "Jo")])]
           "Dear " " " "user.name" " " "!" 0);
    try reflexivity.
  discriminate.
Defined.

(** The conditions of the agreement of the two validations are needed: a
    NaN, a dotted name, an empty enumeration, a type that is none of the
    six. *)
Example validators_disagree :
  let number := sample_variable "n" TNumber in
  let integer := sample_variable "n" (TOther "integer") in
  let dotted := sample_variable "a.b" TString in
  let choice :=
    {| var_name := "c"; var_description := ""; var_type := TString;
       var_required := true; var_default := None;
       var_validation :=
         Some {| pattern := None; min := None; max := None;
                 enum := Some []; custom := None |} |} in
  let template defs :=
    {| id := "t"; name := "t"; category := Document; phase := None;
       version := "1.0.0"; description := None; variables := Some defs;
       content := ""; parent := None; tags := None |} in
  let verdict r :=
    match r with Normal result => Some (valid result) | Abrupt _ => None end in
  (verdict (validateVariables sample_host (template [number])
              [("n", VNum NaN)]) = Some true
   /\ verdict (ContentValidator.validateVariables sample_host [number]
                 [("n", VNum NaN)]) = Some false)
  /\ (verdict (validateVariables sample_host (template [dotted])
                 [("a", VMap [("b", VStr "x")])]) = Some true
      /\ verdict (ContentValidator.validateVariables sample_host [dotted]
                    [("a", VMap [("b", VStr "x")])]) = Some false)
  /\ (verdict (validateVariables sample_host (template [choice])
                 [("c", VStr "x")]) = Some false
      /\ verdict (ContentValidator.validateVariables sample_host [choice]
                    [("c", VStr "x")]) = Some true)
  /\ (verdict (validateVariables sample_host (template [integer])
                 [("n", VNum (Int 5))]) = Some true
      /\ verdict (ContentValidator.validateVariables sample_host [integer]
                    [("n", VNum (Int 5))]) = Some false).
Proof. repeat split. Qed.

(** ** The flattened keys of an environment resolve *)

Section FlattenedKeys.

Lemma well_keyed_cons k v rest :
  well_keyed (VMap ((k, v) :: rest))
  <-> (k ∉ fst <$> rest)
      /\ all_chars (fun c => negb (Ascii.eqb c ".")) k = true
      /\ v <> VUndefined /\ well_keyed v /\ well_keyed (VMap rest).
Proof.
  cbn [well_keyed]. rewrite fmap_cons, NoDup_cons. cbn [fst]. tauto.
Qed.

Lemma split_nonempty sep s : split sep s <> [].
Proof.
  destruct s as [|c s]; [done|]. simpl.
  destruct (Ascii.eqb c sep); [done|]. by destruct (split sep s).
Qed.

Lemma split_snoc prefix k :
  all_chars (fun c => negb (Ascii.eqb c ".")) k = true ->
  split "." (prefix +:+ "." +:+ k) = split "." prefix ++ [k].
Proof.
  intros Hk. induction prefix as [|c prefix IH].
  - change ("" +:+ "." +:+ k) with (String "." k).
    cbn [split]. rewrite Ascii.eqb_refl. by rewrite split_no_dot.
  - rewrite append_cons. cbn [split]. rewrite IH.
    destruct (Ascii.eqb c "."); [done|].
    pose proof (split_nonempty "." prefix) as Hne.
    by destruct (split "." prefix).
Qed.

Lemma getNestedValue_parts_own fields k v parts :
  own_field fields k = Some v ->
  getNestedValue_parts (k :: parts) (VMap fields)
  = getNestedValue_parts parts v.
Proof.
  intros Hown. cbn [getNestedValue_parts to_boolean typeof].
  unfold has_property, get_property. cbn [property]. by rewrite Hown.
Qed.

Lemma getNestedValue_parts_skip fields k0 v0 k parts :
  k0 <> k ->
  getNestedValue_parts (k :: parts) (VMap ((k0, v0) :: fields))
  = getNestedValue_parts (k :: parts) (VMap fields).
Proof.
  intros Hne. cbn [getNestedValue_parts to_boolean typeof].
  unfold has_property, get_property. cbn [property own_field].
  by destruct (String.eqb_spec k0 k).
Qed.

(** The flattened keys of one object, given those of the objects it
    holds. *)
Lemma flattenKeys_fields_resolve fields prefix pre :
  (forall k v, (k, v) ∈ fields ->
     forall prefix' pre',
       prefix' <> "" -> split "." prefix' = pre' ->
       well_keyed v ->
       forall key, key ∈ flattenKeys_of v prefix' ->
         exists suffix,
           suffix <> [] /\ split "." key = pre' ++ suffix
           /\ getNestedValue_parts suffix v <> VUndefined) ->
  well_keyed (VMap fields) ->
  (forall k v, (k, v) ∈ fields ->
     let fullKey := if String.eqb prefix "" then k
                    else prefix +:+ "." +:+ k in
     fullKey <> "" /\ split "." fullKey = pre ++ [k]) ->
  forall key, key ∈ flattenKeys fields prefix ->
    exists k suffix,
      k ∈ fst <$> fields /\ split "." key = pre ++ k :: suffix
      /\ getNestedValue_parts (k :: suffix) (VMap fields) <> VUndefined.
Proof.
  induction fields as [|[k0 v0] rest IH]; intros Hnested Hkeyed Hfull key.
  { by intros ?%elem_of_nil. }
  apply well_keyed_cons in Hkeyed as (Hfresh & Hdot & Hdef & Hv0 & Hrest).
  destruct (Hfull k0 v0) as [Hne Hsplit]; [left|]. cbv zeta in Hne, Hsplit.
  rewrite flattenKeys_cons. cbv zeta.
  rewrite elem_of_cons, elem_of_app. intros [->|[Hkey|Hkey]].
  - exists k0, []. split; [left|]. split; [done|].
    rewrite (getNestedValue_parts_own _ _ v0) by (simpl; by rewrite String.eqb_refl).
    done.
  - destruct (Hnested k0 v0 ltac:(left) _ _ Hne Hsplit Hv0 key Hkey)
      as (suffix & Hsuffix & Hkeysplit & Hresolve).
    exists k0, suffix. split; [left|]. split.
    + by rewrite Hkeysplit, <- app_assoc.
    + rewrite (getNestedValue_parts_own _ _ v0)
        by (simpl; by rewrite String.eqb_refl).
      done.
  - destruct (IH ltac:(intros k v Hkv; apply (Hnested k v); by right) Hrest
                ltac:(intros k v Hkv; apply (Hfull k v); by right) key Hkey)
      as (k & suffix & Hk & Hkeysplit & Hresolve).
    exists k, suffix. split; [by right|]. split; [done|].
    rewrite getNestedValue_parts_skip; [done|].
    intros ->. by apply Hfresh.
Qed.

(** The flattened keys of a value, under a prefix that is not empty. *)
Lemma flattenKeys_of_resolve :
  forall v prefix pre,
    prefix <> "" -> split "." prefix = pre ->
    well_keyed v ->
    forall key, key ∈ flattenKeys_of v prefix ->
      exists suffix,
        suffix <> [] /\ split "." key = pre ++ suffix
        /\ getNestedValue_parts suffix v <> VUndefined.
Proof.
  fix IH 1. intros v prefix pre Hprefix Hpre Hkeyed key Hkey.
  destruct v as [| | | | | |fields| |];
    try (by apply elem_of_nil in Hkey).
  destruct (flattenKeys_fields_resolve fields prefix pre) with (key := key)
    as (k & suffix & _ & Hsplit & Hresolve).
  - clear -IH. induction fields as [|[k0 v0] rest IHrest].
    + intros k v Hin. by apply elem_of_nil in Hin.
    + intros k v [[= -> ->]|Hin]%elem_of_cons; [apply IH|by apply (IHrest k)].
  - done.
  - intros k v Hkv. cbv zeta.
    destruct (String.eqb_spec prefix "") as [|_]; [done|]. split.
    + by destruct prefix.
    + rewrite split_snoc, Hpre; [done|].
      clear -Hkeyed Hkv. induction fields as [|[k0 v0] rest IHrest].
      * by apply elem_of_nil in Hkv.
      * apply well_keyed_cons in Hkeyed as (_ & Hdot & _ & _ & Hrest).
        apply elem_of_cons in Hkv as [[= -> ->]|Hkv]; [done|by apply IHrest].
  - done.
  - by exists (k :: suffix).
Qed.

(** X27: in an environment of data (no key twice in an object, no dot in a
    key, no undefined value stored, at any depth) whose top-level keys are
    not empty, every key that [flattenKeys] lists is a path that
    [getNestedValue] resolves to a value other than undefined; so a required
    variable named by a flattened key is never reported missing. *)
Theorem flattenKeys_resolve obj key :
  well_keyed (VMap obj) ->
  (forall k v, (k, v) ∈ obj -> k <> "") ->
  key ∈ flattenKeys obj "" ->
  getNestedValue obj key <> VUndefined.
Proof.
  intros Hkeyed Htop Hkey.
  destruct (flattenKeys_fields_resolve obj "" []) with (key := key)
    as (k & suffix & _ & Hsplit & Hresolve).
  - intros k v _. apply flattenKeys_of_resolve.
  - done.
  - intros k v Hkv. cbv zeta. simpl String.eqb. cbv iota.
    split; [by apply (Htop k v)|]. apply split_no_dot.
    clear -Hkeyed Hkv. induction obj as [|[k0 v0] rest IHrest].
    + by apply elem_of_nil in Hkv.
    + apply well_keyed_cons in Hkeyed as (_ & Hdot & _ & _ & Hrest).
      apply elem_of_cons in Hkv as [[= -> ->]|Hkv]; [done|by apply IHrest].
  - done.
  - unfold getNestedValue. by rewrite Hsplit.
Qed.

Lemma flattenKeys_resolve_witness :
  flattenKeys [("user", VMap [("name", VStr "Jo"); ("", VNull)]); ("n", VNull)]
    ""
  = ["user"; "user.name"; "user."; "n"]
  /\ getNestedValue
       [("user", VMap [("name", VStr "Jo"); ("", VNull)]); ("n", VNull)]
       "user." <> VUndefined.
Proof.
  split; [reflexivity|].
  apply flattenKeys_resolve.
  - cbn [well_keyed]. repeat split; try discriminate.
    apply (bool_decide_unpack _). reflexivity.
    apply (bool_decide_unpack _). reflexivity.
  - intros k v Hkv. apply elem_of_cons in Hkv as [[= -> _]|Hkv]; [done|].
    apply list_elem_of_singleton in Hkv as [= -> _]. done.
  - right. right. left.
Defined.

End FlattenedKeys.

(** ** What a resolved template inherits *)

Section Inherited.

Lemma mergeTemplates_lists p c :
  ContentTypes.variables (mergeTemplates p c)
  = Some (mergeVariables (default [] (ContentTypes.variables p))
            (default [] (ContentTypes.variables c)))
  /\ tags (mergeTemplates p c)
     = Some (mergeTags (default [] (tags p)) (default [] (tags c))).
Proof. unfold mergeTemplates. by destruct (_ || _). Qed.

Lemma mergeTemplates_names p c n :
  n ∈ var_name <$> default [] (ContentTypes.variables (mergeTemplates p c))
  <-> n ∈ var_name <$> default [] (ContentTypes.variables p)
      \/ n ∈ var_name <$> default [] (ContentTypes.variables c).
Proof.
  rewrite (proj1 (mergeTemplates_lists p c)). simpl.
  by rewrite names_mergeVariables, fold_set_add_elem.
Qed.

Lemma mergeTemplates_tags p c tag :
  tag ∈ default [] (tags (mergeTemplates p c))
  <-> tag ∈ default [] (tags p) \/ tag ∈ default [] (tags c).
Proof.
  rewrite (proj2 (mergeTemplates_lists p c)). simpl. unfold mergeTags.
  rewrite fold_set_add_elem, elem_of_app. split; [|by right].
  intros [H|H]; [by apply elem_of_nil in H|done].
Qed.

(** What a fold of merges holds is what its templates hold. *)
Lemma foldl_mergeTemplates_holds {A} (held : ISDLCTemplate -> list A) :
  (forall p c x, x ∈ held (mergeTemplates p c) <-> x ∈ held p \/ x ∈ held c) ->
  forall descendants root x,
    x ∈ held (foldl mergeTemplates root descendants)
    <-> exists a, a ∈ root :: descendants /\ x ∈ held a.
Proof.
  intros Hmerge descendants.
  induction descendants as [|b descendants IH]; intros root x; simpl.
  - split; [intros H; exists root; split; [left|done]|].
    by intros (a & ->%list_elem_of_singleton & H).
  - rewrite IH. split.
    + intros (a & [->|Ha]%elem_of_cons & Hx).
      * apply Hmerge in Hx as [Hx|Hx].
        -- exists root. split; [left|done].
        -- exists b. split; [right; left|done].
      * exists a. split; [by do 2 right|done].
    + intros (a & [->|[->|Ha]%elem_of_cons]%elem_of_cons & Hx).
      * exists (mergeTemplates root b). split; [left|]. apply Hmerge. by left.
      * exists (mergeTemplates root b). split; [left|]. apply Hmerge. by right.
      * exists a. split; [by right|done].
Qed.

(** X28: the template that [resolveTemplate] returns for an id with a
    parent defines a variable of a name exactly when some template of the
    chain defines one of that name, and carries a tag exactly when some
    template of the chain carries it: nothing an ancestor declares is lost,
    and nothing is added. *)
Theorem resolveTemplate_inherits templates cache tid leaf chain ts :
  cache !! tid = None ->
  templates !! tid = Some leaf ->
  truthy (parent leaf) = true ->
  getInheritanceChain (chain_fuel templates)
    (resolver cache (store_getter templates)) tid = Return chain ->
  Forall2 (fun i t => templates !! i = Some t) (reverse chain) ts ->
  exists t,
    fst (resolveTemplate (chain_fuel templates)
           (resolver cache (store_getter templates)) tid) = Return t
    /\ (forall n,
          n ∈ var_name <$> default [] (ContentTypes.variables t)
          <-> exists a, a ∈ ts
                /\ n ∈ var_name <$> default [] (ContentTypes.variables a))
    /\ (forall tag,
          tag ∈ default [] (tags t)
          <-> exists a, a ∈ ts /\ tag ∈ default [] (tags a)).
Proof.
  intros Hmiss Hleaf Hparent Hchain Hts.
  rewrite (resolveTemplate_with_parent _ _ _ _ leaf) by done.
  rewrite Hchain.
  pose proof (getInheritanceChain_store templates cache tid) as Hstore.
  cbv zeta in Hstore. rewrite Hchain in Hstore.
  destruct Hstore as (c & -> & _).
  destruct (reverse (tid :: c)) as [|i ids] eqn:Hrev.
  { rewrite reverse_cons in Hrev. by destruct (reverse c). }
  destruct ts as [|root below]; [by apply Forall2_nil_inv_r in Hts|].
  apply Forall2_cons_1 in Hts as [Hi Hts].
  exists (foldl mergeTemplates root below). split; [|split].
  - simpl. unfold store_getter at 1. rewrite Hi.
    by rewrite (merge_chain_fold (store_getter templates) ids below root Hts).
  - intros n.
    apply (foldl_mergeTemplates_holds
             (fun t => var_name <$> default [] (ContentTypes.variables t))).
    intros p c' x. apply mergeTemplates_names.
  - intros tag.
    apply (foldl_mergeTemplates_holds (fun t => default [] (tags t))).
    intros p c' x. apply mergeTemplates_tags.
Qed.

End Inherited.

Lemma resolveTemplate_inherits_witness :
  exists t,
    fst (resolveTemplate (chain_fuel declared_store)
           (resolver ∅ (store_getter declared_store)) "sprint") = Return t
    /\ "owner" ∈ var_name <$> default [] (ContentTypes.variables t)
    /\ "planning" ∈ default [] (tags t).
Proof.
  destruct (resolveTemplate_inherits declared_store ∅ "sprint"
              (declared "sprint" (Some "plan")
                 [sample_variable "week" TNumber] ["agile"])
              ["sprint"; "plan"]
              [declared "plan" None [sample_variable "owner" TString]
                 ["planning"];
               declared "sprint" (Some "plan")
                 [sample_variable "week" TNumber] ["agile"]])
    as (t & Ht & Hnames & Htags).
  - apply lookup_empty.
  - reflexivity.
  - reflexivity.
  - reflexivity.
  - repeat constructor.
  - exists t. split; [exact Ht|]. split.
    + apply Hnames. eexists. split; [left|]. left.
    + apply Htags. eexists. split; [left|]. left.
Defined.

(** ** Splicing the parent content *)

Section Splice.

(** The marker pattern on a marker as it is written, padded or not. *)
Lemma parentPattern_marker b ws1 ws2 post :
  all_chars is_space ws1 = true -> all_chars is_space ws2 = true ->
  parentPattern b ("{{>" +:+ ws1 +:+ "parent" +:+ ws2 +:+ "}}" +:+ post)
  = Some (String.length ("{{>" +:+ ws1 +:+ "parent" +:+ ws2 +:+ "}}")).
Proof.
  intros H1 H2.
  assert (S1 : span is_space (ws1 +:+ "parent" +:+ ws2 +:+ "}}" +:+ post)
               = (ws1, "parent" +:+ ws2 +:+ "}}" +:+ post))
    by (by apply span_all).
  assert (S2 : span is_space (ws2 +:+ "}}" +:+ post) = (ws2, "}}" +:+ post))
    by (by apply span_all).
  unfold parentPattern.
  change (strip_prefix "{{>" ("{{>" +:+ ws1 +:+ "parent" +:+ ws2 +:+ "}}"
                              +:+ post))
    with (Some (ws1 +:+ "parent" +:+ ws2 +:+ "}}" +:+ post)).
  cbn [mbind option_bind]. rewrite S1.
  change (strip_prefix "parent" ("parent" +:+ ws2 +:+ "}}" +:+ post))
    with (Some (ws2 +:+ "}}" +:+ post)).
  cbn [mbind option_bind]. rewrite S2.
  change (strip_prefix "}}" ("}}" +:+ post)) with (Some post).
  cbn [mbind option_bind]. f_equal.
  rewrite !length_append. simpl. lia.
Qed.

(** X29: [mergeContent] copies the child content before the first marker,
    puts the parent content in the place of the marker, whatever the padding
    inside the braces, when the parent content holds no dollar sign, and goes
    on after the marker: every marker of the child content is replaced, and
    the parent content that was put in is not scanned again. *)
Theorem mergeContent_splices parentContent pre ws1 ws2 post :
  all_chars (fun c => negb (Ascii.eqb c "$")) parentContent = true ->
  all_chars (fun c => negb (Ascii.eqb "{" c)) pre = true ->
  all_chars is_space ws1 = true -> all_chars is_space ws2 = true ->
  mergeContent parentContent
    (pre +:+ "{{>" +:+ ws1 +:+ "parent" +:+ ws2 +:+ "}}" +:+ post)
  = pre +:+ parentContent +:+ mergeContent parentContent post.
Proof.
  intros Hplain Hpre H1 H2.
  unfold mergeContent, replace_all_string.
  set (matcher := fun before rest : string =>
         len ← parentPattern before rest;
         Some (len, (before, substring 0 len rest, drop len rest))).
  set (emit := fun '(before, matched, after) =>
         get_substitution before matched after parentContent).
  assert (Hemit : forall x, emit x = parentContent).
  { intros [[before matched] after]. by apply get_substitution_plain. }
  assert (Hforward : forall b b' rest,
    (fun '(len, a) => (len, emit a)) <$> matcher b rest
    = (fun '(len, a) => (len, emit a)) <$> matcher b' rest).
  { intros b b' rest. unfold matcher.
    change (parentPattern b' rest) with (parentPattern b rest).
    destruct (parentPattern b rest) as [len|]; [|done].
    cbn [mbind option_bind fmap option_fmap option_map].
    by rewrite !Hemit. }
  assert (Hcopy : forall b c rest,
    negb (Ascii.eqb "{" c) = true -> matcher b (String c rest) = None).
  { intros b c rest Hc. apply negb_true_iff in Hc.
    unfold matcher, parentPattern. cbn [strip_prefix]. by rewrite Hc. }
  unfold replace_all at 1.
  rewrite (replace_scan_copy matcher emit Hforward _ _ _ _ Hcopy Hpre).
  f_equal. unfold replace_all at 1.
  replace ("{{>" +:+ ws1 +:+ "parent" +:+ ws2 +:+ "}}" +:+ post)
    with (("{{>" +:+ ws1 +:+ "parent" +:+ ws2 +:+ "}}") +:+ post)
    by (by rewrite !append_assoc).
  set (marker := "{{>" +:+ ws1 +:+ "parent" +:+ ws2 +:+ "}}").
  rewrite (replace_scan_at matcher emit Hforward "" marker post
             ("", substring 0 (String.length marker) (marker +:+ post),
              drop (String.length marker) (marker +:+ post))).
  - by rewrite Hemit.
  - done.
  - unfold matcher.
    replace (parentPattern "" (marker +:+ post))
      with (Some (String.length marker)); [done|].
    symmetry. unfold marker. rewrite <- (parentPattern_marker "" ws1 ws2 post)
      by done.
    by rewrite !append_assoc.
Qed.

Lemma mergeContent_splices_witness :
  mergeContent "BASE" "# {{> parent }} and {{>parent}}"
  = "# " +:+ "BASE" +:+ mergeContent "BASE" " and {{>parent}}".
Proof.
  apply (mergeContent_splices "BASE" "# " " " " " " and {{>parent}}");
    reflexivity.
Defined.

End Splice.
